(** * Syntactic bytecode analysis: control-flow graphs, basic blocks,
      call graph and dead-code detection

    A shallow embedding of [solutions/components/bytecode_analysis.py].

    Conventions of the embedding.
    - A Python [int] is a [Z]; a Python [set] is a [gset]; a Python [dict]
      is a [gmap]; a Python [list] is a [list].
    - [d.get(k)] is a field of type [option _] ([None]: the key is absent);
      [d.get(k, v)] is that field read through [default v].
    - A [CFGNode] object is shared between the node dictionary and the
      basic blocks that list it; the node dictionary is the store and a
      block lists its nodes by their key, so that every read goes through
      the store.
    - The parsed opcode objects come from the external opcode parser; of
      the [_opcodes] dictionary the model keeps the key set, and a node has
      no [node_type] field (no statement below reads it). *)

From stdpp Require Import gmap strings list fin_maps sorting.

#[local] Set Warnings "-clear-no-such-hyp".
Local Open Scope Z_scope.

(** ** Loop combinators *)

(** [enumerate(l)] *)
Definition enumerate {A} (l : list A) : list (nat * A) := imap pair l.

(** ** Input format (jvm2json) *)

(** One element of a switch's ["targets"] list. *)
Inductive switch_case :=
  | CaseInt (target_index : Z)          (* tableswitch: a bare index *)
  | CaseDict (case_target : option Z)   (* lookupswitch: {match, target} *)
  | CaseOther.                          (* any other JSON value *)

(** One bytecode instruction dict. *)
Record instr := {
  i_offset : option Z;          (* "offset" *)
  i_opr : string;               (* inst.get("opr", "") *)
  i_target : option Z;          (* "target" *)
  i_default : option Z;         (* "default" *)
  i_targets : list switch_case; (* inst.get("targets", []) *)
  i_method_class : string;      (* method.ref.name, "" when absent *)
  i_method_name : string;       (* method.name, "" when absent *)
}.

(** [inst.get("offset", -1)] *)
Definition get_offset (inst : instr) : Z := default (-1) (i_offset inst).

(** An exception-table entry of the input: instruction indices. *)
Record handler_json := {
  j_start : option Z;
  j_end : option Z;
  j_handler : option Z;
  j_catchType : option string;
}.

(** ** Node classification *)

(** Modelled from the spec: the [NodeType] enumeration of
    [solutions/ir.py], which is not among the sources; its members are the
    ones that [bytecode_analysis.py] names. *)
Inductive NodeType :=
  | PUSH | LOAD | ASSIGN | BINARY | UNARY | DUP | BRANCH | JUMP | SWITCH
  | RETURN | THROW | INVOKE | NEW | ARRAY_ACCESS | FIELD_ACCESS | EXIT | OTHER.

(** The dictionary literal of [classify_opr] (its keys are distinct). *)
Definition opr_map : list (string * NodeType) :=
  [ ("push", PUSH); ("load", LOAD); ("store", ASSIGN); ("incr", ASSIGN);
    ("binary", BINARY); ("negate", UNARY); ("cast", UNARY); ("dup", DUP);
    ("if", BRANCH); ("ifz", BRANCH); ("goto", JUMP);
    ("tableswitch", SWITCH); ("lookupswitch", SWITCH);
    ("return", RETURN); ("throw", THROW); ("invoke", INVOKE);
    ("new", NEW); ("newarray", NEW); ("array_load", ARRAY_ACCESS);
    ("array_store", ARRAY_ACCESS); ("arraylength", ARRAY_ACCESS);
    ("get", FIELD_ACCESS); ("put", FIELD_ACCESS) ].

(** [d.get(k, v)] on a dictionary literal. *)
Fixpoint dict_get {V} (d : list (string * V)) (k : string) (v : V) : V :=
  match d with
  | [] => v
  | (k', v') :: d' => if decide (k = k') then v' else dict_get d' k v
  end.

(** [classify_opr] *)
Definition classify_opr (opr : string) : NodeType := dict_get opr_map opr OTHER.

(** ** Exception handler *)

Record ExceptionHandler := {
  start_pc : Z;
  end_pc : Z;
  handler_pc : Z;
  catch_type : option string;
}.

#[global] Instance ExceptionHandler_eq_dec : EqDecision ExceptionHandler.
Proof. solve_decision. Defined.

(** [index_to_offset.get(k, k)] *)
Definition get_or_self (tbl : gmap Z Z) (k : Z) : Z := default k (tbl !! k).

(** [ExceptionHandler.from_json]; the table argument is optional, and an
    empty dictionary is as falsy as [None]. *)
Definition from_json (data : handler_json) (index_to_offset : option (gmap Z Z))
  : ExceptionHandler :=
  let start := default 0 (j_start data) in
  let end_ := default 0 (j_end data) in
  let handler := default 0 (j_handler data) in
  match index_to_offset with
  | Some tbl =>
      if decide (tbl = ∅) then
        {| start_pc := start; end_pc := end_; handler_pc := handler;
           catch_type := j_catchType data |}
      else
        {| start_pc := get_or_self tbl start; end_pc := get_or_self tbl end_;
           handler_pc := get_or_self tbl handler;
           catch_type := j_catchType data |}
  | None =>
      {| start_pc := start; end_pc := end_; handler_pc := handler;
         catch_type := j_catchType data |}
  end.

(** ** CFG nodes and basic blocks *)

Record CFGNode := {
  offset : Z;
  instruction : instr;
  successors : gset Z;
  predecessors : gset Z;
  is_leader : bool;
  basic_block_id : option nat;
  exception_handlers : list ExceptionHandler;
}.

(** [CFGNode(offset=.., instruction=..)] with the dataclass defaults. *)
Definition new_node (o : Z) (inst : instr) : CFGNode :=
  {| offset := o; instruction := inst; successors := ∅; predecessors := ∅;
     is_leader := false; basic_block_id := None; exception_handlers := [] |}.

Definition with_successors (n : CFGNode) (s : gset Z) : CFGNode :=
  {| offset := offset n; instruction := instruction n; successors := s;
     predecessors := predecessors n; is_leader := is_leader n;
     basic_block_id := basic_block_id n;
     exception_handlers := exception_handlers n |}.

Definition with_predecessors (n : CFGNode) (p : gset Z) : CFGNode :=
  {| offset := offset n; instruction := instruction n;
     successors := successors n; predecessors := p; is_leader := is_leader n;
     basic_block_id := basic_block_id n;
     exception_handlers := exception_handlers n |}.

Definition with_block_id (b : nat) (n : CFGNode) : CFGNode :=
  {| offset := offset n; instruction := instruction n;
     successors := successors n; predecessors := predecessors n;
     is_leader := is_leader n; basic_block_id := Some b;
     exception_handlers := exception_handlers n |}.

Record BasicBlock := {
  block_id : nat;
  block_start_pc : Z;
  block_end_pc : Z;
  nodes : list Z;                (* keys of the nodes, in block order *)
  successor_blocks : list nat;
  predecessor_blocks : list nat;
}.

(** ** The CFG builder ([CFGBuilder])

    Every pass of the class reads and writes fields of [self]; a pass is
    embedded as a function from the fields it reads to the fields it
    writes, and [build_state] threads them in the order of [build]. *)

Record CFGBuilder := {
  bytecode : list instr;
  b_exception_handlers : list ExceptionHandler;
  _opcodes : gset Z;              (* key set of the offset -> opcode dict *)
  _pc_list : list Z;
  _leaders : gset Z;
  _cfg : gmap Z CFGNode;
  _basic_blocks : list BasicBlock;
  _index_to_offset : gmap Z Z;
}.

(** [opr in (...)] *)
Definition opr_in (opr : string) (l : list string) : bool :=
  bool_decide (opr ∈ l).

(** [self.bytecode[i + 1].get("offset")], guarded by
    [i + 1 < len(self.bytecode)]; [None] when either fails. *)
Definition next_offset (bytecode : list instr) (i : nat) : option Z :=
  bytecode !! S i ≫= i_offset.

(** Body of the loop of [_parse_opcodes]. *)
Definition parse_step (st : gmap Z Z * list Z * gset Z) (x : nat * instr)
  : gmap Z Z * list Z * gset Z :=
  let '(tbl, pcs, ops) := st in
  let '(i, ins) := x in
  let o := get_offset ins in
  if decide (o < 0) then st
  else (<[Z.of_nat i := o]> tbl, pcs ++ [o], {[o]} ∪ ops).

(** [_parse_opcodes]: fills [_index_to_offset], [_pc_list] (then sorted)
    and [_opcodes]. *)
Definition _parse_opcodes (bytecode : list instr)
  : gmap Z Z * list Z * gset Z :=
  let '(tbl, pcs, ops) := foldl parse_step (∅, [], ∅) (enumerate bytecode) in
  (tbl, merge_sort Z.le pcs, ops).

(** [_resolve_target] *)
Definition _resolve_target (tbl : gmap Z Z) (target_index : Z) : option Z :=
  tbl !! target_index.

(** The recurring
    [if idx is not None: off = resolve(idx); if off is not None: append(off)]. *)
Definition resolved (tbl : gmap Z Z) (idx : option Z) : list Z :=
  match idx with
  | Some t => match _resolve_target tbl t with Some o => [o] | None => [] end
  | None => []
  end.

(** [_get_branch_targets] *)
Definition _get_branch_targets (tbl : gmap Z Z) (ins : instr) : list Z :=
  let opr := i_opr ins in
  if opr_in opr ["if"; "ifz"; "goto"] then resolved tbl (i_target ins)
  else if bool_decide (opr = "tableswitch") then
    resolved tbl (i_default ins) ++
    (i_targets ins ≫= λ case,
       match case with CaseInt c => resolved tbl (Some c) | _ => [] end)
  else if bool_decide (opr = "lookupswitch") then
    resolved tbl (i_default ins) ++
    (i_targets ins ≫= λ case,
       match case with CaseDict t => resolved tbl t | _ => [] end)
  else [].

(** Body of the instruction loop of [_find_leaders]. *)
Definition leaders_step (bytecode : list instr) (tbl : gmap Z Z)
    (leaders : gset Z) (x : nat * instr) : gset Z :=
  let '(i, ins) := x in
  if decide (get_offset ins < 0) then leaders
  else
    let opr := i_opr ins in
    let targets := _get_branch_targets tbl ins in
    let leaders :=
      match targets with
      | [] => leaders
      | _ =>
          let leaders := leaders ∪ list_to_set targets in
          if opr_in opr ["if"; "ifz"] then
            match next_offset bytecode i with
            | Some n => leaders ∪ {[n]}
            | None => leaders
            end
          else leaders
      end in
    if opr_in opr ["goto"; "return"; "throw"] then
      match next_offset bytecode i with
      | Some n => leaders ∪ {[n]}
      | None => leaders
      end
    else leaders.

(** The test of the handler loop of [_find_leaders]. *)
Definition handler_is_instruction (bytecode : list instr) (tbl : gmap Z Z)
    (ops : gset Z) (h : ExceptionHandler) : bool :=
  bool_decide (handler_pc h ∈ ops)
  || bool_decide (Some (handler_pc h) ∈
       (λ i : nat, tbl !! Z.of_nat i) <$> seq 0 (length bytecode)).

(** [_find_leaders] *)
Definition _find_leaders (bytecode : list instr)
    (handlers : list ExceptionHandler) (tbl : gmap Z Z) (pc_list : list Z)
    (ops : gset Z) : gset Z :=
  match pc_list with
  | [] => ∅
  | first :: _ =>
      let leaders := foldl (leaders_step bytecode tbl) {[first]}
                       (enumerate bytecode) in
      foldl (λ leaders h,
               if handler_is_instruction bytecode tbl ops h
               then leaders ∪ {[handler_pc h]} else leaders)
        leaders handlers
  end.

(** [list(dict.fromkeys(l))]: the first occurrence of every element, in
    order. *)
Fixpoint dict_fromkeys (l : list Z) : list Z :=
  match l with
  | [] => []
  | x :: l' => x :: filter (λ y, y ≠ x) (dict_fromkeys l')
  end.

(** [_compute_successors] *)
Definition _compute_successors (bytecode : list instr) (tbl : gmap Z Z)
    (index : nat) (ins : instr) : list Z :=
  let opr := i_opr ins in
  if opr_in opr ["return"; "throw"] then []
  else
    let next := next_offset bytecode index in
    if opr_in opr ["if"; "ifz"] then
      option_list next ++ resolved tbl (i_target ins)
    else if bool_decide (opr = "goto") then resolved tbl (i_target ins)
    else if opr_in opr ["tableswitch"; "lookupswitch"] then
      dict_fromkeys (_get_branch_targets tbl ins)
    else option_list next.

(** The handlers whose protected range covers an offset. *)
Definition covering (handlers : list ExceptionHandler) (o : Z)
  : list ExceptionHandler :=
  filter (λ h, start_pc h ≤ o ∧ o < end_pc h) handlers.

(** Body of the loop of [_build_nodes]. *)
Definition nodes_step (bytecode : list instr)
    (handlers : list ExceptionHandler) (tbl : gmap Z Z) (leaders : gset Z)
    (cfg : gmap Z CFGNode) (x : nat * instr) : gmap Z CFGNode :=
  let '(i, ins) := x in
  let o := get_offset ins in
  if decide (o < 0) then cfg
  else
    let hs := covering handlers o in
    let node :=
      {| offset := o; instruction := ins; successors := ∅;
         predecessors := ∅; is_leader := bool_decide (o ∈ leaders);
         basic_block_id := None; exception_handlers := hs |} in
    let node :=
      with_successors node (list_to_set (_compute_successors bytecode tbl i ins)) in
    let node :=
      foldl (λ n h, with_successors n (successors n ∪ {[handler_pc h]}))
        node hs in
    <[o := node]> cfg.

(** [_build_nodes] *)
Definition _build_nodes (bytecode : list instr)
    (handlers : list ExceptionHandler) (tbl : gmap Z Z) (leaders : gset Z)
  : gmap Z CFGNode :=
  foldl (nodes_step bytecode handlers tbl leaders) ∅ (enumerate bytecode).

(** [self._cfg[succ].predecessors.add(offset)], under [if succ in self._cfg]. *)
Definition add_predecessor (o : Z) (cfg : gmap Z CFGNode) (succ : Z)
  : gmap Z CFGNode :=
  match cfg !! succ with
  | Some n => <[succ := with_predecessors n (predecessors n ∪ {[o]})]> cfg
  | None => cfg
  end.

(** [_compute_predecessors]: the loop runs over the items of the node
    dictionary; it changes no key and no successor set, so the items are
    those of the dictionary at loop entry. *)
Definition _compute_predecessors (cfg : gmap Z CFGNode) : gmap Z CFGNode :=
  foldl (λ c '(o, node), foldl (add_predecessor o) c (elements (successors node)))
    cfg (map_to_list cfg).

(** [pc >= leader_pc and pc < next_leader]; the last block has
    [next_leader = float('inf')], here [None]. *)
Definition in_block (leader_pc : Z) (next_leader : option Z) (pc : Z) : Prop :=
  leader_pc ≤ pc ∧ from_option (λ n, pc < n) True next_leader.

#[global] Instance in_block_dec l n pc : Decision (in_block l n pc).
Proof. unfold in_block; destruct n; simpl; apply _. Defined.

(** [node.offset] of the node stored under a key. *)
Definition node_offset (cfg : gmap Z CFGNode) (pc : Z) : Z :=
  from_option offset 0 (cfg !! pc).

(** Body of the leader loop of [_build_basic_blocks].  The inner loop over
    [_pc_list] selects the nodes of the block and sets their
    [basic_block_id]; its test reads keys only, so the selection is a
    filter and the assignment a loop over the selection. *)
Definition block_step (sorted_leaders pc_list : list Z)
    (st : gmap Z CFGNode * list BasicBlock * nat) (x : nat * Z)
  : gmap Z CFGNode * list BasicBlock * nat :=
  let '(cfg, blocks, bid) := st in
  let '(i, leader_pc) := x in
  let next_leader := sorted_leaders !! S i in
  let block_nodes :=
    filter (λ pc, in_block leader_pc next_leader pc ∧ is_Some (cfg !! pc))
      pc_list in
  let cfg := foldl (λ c pc, alter (with_block_id bid) pc c) cfg block_nodes in
  match block_nodes with
  | [] => (cfg, blocks, bid)
  | first :: _ =>
      let block :=
        {| block_id := bid;
           block_start_pc := node_offset cfg first;
           block_end_pc := from_option (node_offset cfg) 0 (last block_nodes);
           nodes := block_nodes;
           successor_blocks := []; predecessor_blocks := [] |} in
      (cfg, blocks ++ [block], S bid)
  end.

Definition with_successor_blocks (b : BasicBlock) (l : list nat) : BasicBlock :=
  {| block_id := block_id b; block_start_pc := block_start_pc b;
     block_end_pc := block_end_pc b; nodes := nodes b;
     successor_blocks := l; predecessor_blocks := predecessor_blocks b |}.

Definition with_predecessor_blocks (b : BasicBlock) (l : list nat) : BasicBlock :=
  {| block_id := block_id b; block_start_pc := block_start_pc b;
     block_end_pc := block_end_pc b; nodes := nodes b;
     successor_blocks := successor_blocks b; predecessor_blocks := l |}.

(** One iteration of [for succ_offset in last_node.successors]. *)
Definition succ_block_step (cfg : gmap Z CFGNode) (acc : list nat)
    (succ_offset : Z) : list nat :=
  match cfg !! succ_offset with
  | Some n =>
      match basic_block_id n with
      | Some b => if decide (b ∈ acc) then acc else acc ++ [b]
      | None => acc
      end
  | None => acc
  end.

(** The successor blocks of one block: from its last node only. *)
Definition link_successors (cfg : gmap Z CFGNode) (b : BasicBlock) : BasicBlock :=
  match last (nodes b) with
  | None => b
  | Some last_pc =>
      with_successor_blocks b
        (foldl (succ_block_step cfg) (successor_blocks b)
           (elements (from_option successors ∅ (cfg !! last_pc))))
  end.

(** The innermost loop of the predecessor pass, over every block [other]. *)
Definition add_block_predecessor (from_id succ_id : nat) (other : BasicBlock)
  : BasicBlock :=
  if decide (block_id other = succ_id) then
    if decide (from_id ∈ predecessor_blocks other) then other
    else with_predecessor_blocks other (predecessor_blocks other ++ [from_id])
  else other.

(** The predecessor pass: it changes [predecessor_blocks] only, so the
    outer two loops read ids and successor lists as at loop entry. *)
Definition link_predecessors (blocks : list BasicBlock) : list BasicBlock :=
  foldl (λ bs b,
           foldl (λ bs succ_id, add_block_predecessor (block_id b) succ_id <$> bs)
             bs (successor_blocks b))
    blocks blocks.

(** [_build_basic_blocks] *)
Definition _build_basic_blocks (leaders : gset Z) (pc_list : list Z)
    (cfg : gmap Z CFGNode) : gmap Z CFGNode * list BasicBlock :=
  let sorted_leaders := merge_sort Z.le (elements leaders) in
  let '(cfg, blocks, _) :=
    foldl (block_step sorted_leaders pc_list) (cfg, [], 0%nat)
      (enumerate sorted_leaders) in
  let blocks := link_successors cfg <$> blocks in
  (cfg, link_predecessors blocks).

(** [build], returning the builder's final fields. *)
Definition build_state (bytecode : list instr)
    (handlers : list ExceptionHandler) : CFGBuilder :=
  match bytecode with
  | [] =>
      {| bytecode := bytecode; b_exception_handlers := handlers;
         _opcodes := ∅; _pc_list := []; _leaders := ∅; _cfg := ∅;
         _basic_blocks := []; _index_to_offset := ∅ |}
  | _ =>
      let '(tbl, pcs, ops) := _parse_opcodes bytecode in
      let leaders := _find_leaders bytecode handlers tbl pcs ops in
      let cfg := _build_nodes bytecode handlers tbl leaders in
      let cfg := _compute_predecessors cfg in
      let '(cfg, blocks) := _build_basic_blocks leaders pcs cfg in
      {| bytecode := bytecode; b_exception_handlers := handlers;
         _opcodes := ops; _pc_list := pcs; _leaders := leaders; _cfg := cfg;
         _basic_blocks := blocks; _index_to_offset := tbl |}
  end.

(** [build()] returns the node dictionary. *)
Definition build (bytecode : list instr) (handlers : list ExceptionHandler)
  : gmap Z CFGNode := _cfg (build_state bytecode handlers).

(** [get_basic_blocks()] after [build()]. *)
Definition get_basic_blocks (bytecode : list instr)
    (handlers : list ExceptionHandler) : list BasicBlock :=
  _basic_blocks (build_state bytecode handlers).

(** [build_index_to_offset]: the index-to-offset loop that opens both
    [BytecodeAnalyzer.build_cfg] and [build_cfg_from_json]. *)
Definition build_index_to_offset (bytecode : list instr) : gmap Z Z :=
  foldl (λ tbl '(i, inst),
           let o := get_offset inst in
           if decide (0 ≤ o) then <[Z.of_nat i := o]> tbl else tbl)
    ∅ (enumerate bytecode).

(** [build_cfg_from_json], on the ["code"] entry of the method. *)
Definition build_cfg_from_json (bytecode : list instr)
    (exceptions : list handler_json) : gmap Z CFGNode * list BasicBlock :=
  let index_to_offset := build_index_to_offset bytecode in
  let handlers := (λ e, from_json e (Some index_to_offset)) <$> exceptions in
  (build bytecode handlers, get_basic_blocks bytecode handlers).

(** A small method used by the examples: a protected range over the first
    two instructions, handler at the third. *)
Definition mk_instr (o : Z) (opr : string) (t : option Z) : instr :=
  {| i_offset := Some o; i_opr := opr; i_target := t; i_default := None;
     i_targets := []; i_method_class := ""; i_method_name := "" |}.

(** ** Worklist search

    [CFG.get_reachable_nodes] and [CallGraph.get_reachable_from] are the
    same loop: pop a node, skip it when it is already in [reachable] (or,
    for a CFG, when it is not a node), otherwise add it and push its
    successors that are not yet in [reachable].

    The worklist is a stack; its top (the last element of the Python list)
    is the head of the list here.  The loop is a [while]: the embedding
    recurses on the worklist while it skips and spends one unit of [fuel]
    every time it adds a node; [None] is the loop that would still be
    running when the fuel is gone. *)

Section worklist.
Context {K : Type} `{Countable K}.
Variable valid : K → bool.        (* the node may be added *)
Variable succs : K → list K.      (* its successors, in iteration order *)

(** [for s in succs: if s not in reachable: worklist.append(s)] *)
Definition push_new (reachable : gset K) (worklist : list K) (l : list K)
  : list K :=
  foldl (λ wl s, if decide (s ∈ reachable) then wl else s :: wl) worklist l.

Fixpoint search (fuel : nat) (reachable : gset K) : list K → option (gset K) :=
  fix pop (worklist : list K) : option (gset K) :=
    match worklist with
    | [] => Some reachable
    | x :: rest =>
        if bool_decide (x ∈ reachable) || negb (valid x) then pop rest
        else
          match fuel with
          | O => None
          | S fuel' =>
              let reachable' := reachable ∪ {[x]} in
              search fuel' reachable' (push_new reachable' rest (succs x))
          end
    end.
(** One step of the graph that the search walks. *)
Definition edge (a b : K) : Prop := b ∈ succs a ∧ valid b = true.

(** Reachable from one of the start nodes. *)
Definition reach (init : list K) (x : K) : Prop :=
  ∃ e, e ∈ init ∧ valid e = true ∧ rtc edge e x.

End worklist.

(** ** The simple CFG of [BytecodeAnalyzer] *)

Record CFG := {
  method_name : string;
  cfg_nodes : gmap Z CFGNode;     (* nodes *)
  entry_offset : Z;
}.

Definition with_nodes (cfg : CFG) (ns : gmap Z CFGNode) : CFG :=
  {| method_name := method_name cfg; cfg_nodes := ns;
     entry_offset := entry_offset cfg |}.

Definition add_successor (t : Z) (n : CFGNode) : CFGNode :=
  with_successors n (successors n ∪ {[t]}).

Definition add_pred (f : Z) (n : CFGNode) : CFGNode :=
  with_predecessors n (predecessors n ∪ {[f]}).

(** [CFG.add_edge] *)
Definition add_edge (cfg : CFG) (from_offset to_offset : Z) : CFG :=
  if bool_decide (from_offset ∈ dom (cfg_nodes cfg))
     && bool_decide (to_offset ∈ dom (cfg_nodes cfg))
  then
    with_nodes cfg
      (alter (add_pred from_offset) to_offset
         (alter (add_successor to_offset) from_offset (cfg_nodes cfg)))
  else cfg.

(** [CFG.get_reachable_nodes]; at most [len(self.nodes)] offsets can be
    added. *)
Definition get_reachable_nodes (cfg : CFG) : option (gset Z) :=
  search (λ o, bool_decide (o ∈ dom (cfg_nodes cfg)))
    (λ o, elements (from_option successors ∅ (cfg_nodes cfg !! o)))
    (size (cfg_nodes cfg)) ∅ [entry_offset cfg].

(** [CFG.get_unreachable_nodes] *)
Definition get_unreachable_nodes (cfg : CFG) : option (gset Z) :=
  reachable ← get_reachable_nodes cfg;
  Some (dom (cfg_nodes cfg) ∖ reachable).

(** ** Call graph *)

Record CallGraph := {
  calls : gmap string (gset string);
  all_methods : gset string;
}.

(** [CallGraph.add_call] *)
Definition add_call (g : CallGraph) (caller callee : string) : CallGraph :=
  {| calls := <[caller := default ∅ (calls g !! caller) ∪ {[callee]}]> (calls g);
     all_methods := all_methods g |}.

(** [CallGraph.add_method] *)
Definition add_method (g : CallGraph) (name : string) : CallGraph :=
  {| calls := calls g; all_methods := all_methods g ∪ {[name]} |}.

(** Every callee recorded in the graph. *)
Definition callees (g : CallGraph) : gset string :=
  ⋃ (map_to_list (calls g)).*2.

(** [CallGraph.get_reachable_from]; only entry points and recorded callees
    can be added, each once. *)
Definition get_reachable_from (g : CallGraph) (entry_points : gset string)
  : option (gset string) :=
  search (λ _, true)
    (λ m, elements (default ∅ (calls g !! m)))
    (size (entry_points ∪ callees g)) ∅ (reverse (elements entry_points)).

(** ** The analyzer ([BytecodeAnalyzer]) *)

(** The ["code"] entry of a method. *)
Record code_json := {
  c_bytecode : list instr;          (* code.get("bytecode", []) *)
  c_exceptions : list handler_json; (* code.get("exceptions", []) *)
}.

(** One entry of the ["methods"] list of a class; [m_code] is [None] when
    the key is absent or its value falsy. *)
Record method_json := {
  m_name : option string;
  m_access : list string;
  m_code : option code_json;
}.

(** [method.get("name", "<unknown>")] *)
Definition get_name (m : method_json) : string := default "<unknown>" (m_name m).

(** [f"{classname}.{method_name}"] *)
Definition full_name (classname name : string) : string :=
  classname +:+ "." +:+ name.

(** The fields of the analyzer object; they outlive a call. *)
Record BytecodeAnalyzer := {
  cfgs : gmap string CFG;
  call_graph : CallGraph;
}.

(** The list of offsets [t] for which the edge loop of [build_cfg] calls
    [cfg.add_edge(offset, t)] at instruction [i], in call order. *)
Definition edge_targets (bytecode : list instr) (tbl : gmap Z Z) (i : nat)
    (inst : instr) : list Z :=
  let opr := i_opr inst in
  if opr_in opr ["if"; "ifz"] then
    resolved tbl (i_target inst) ++ option_list (next_offset bytecode i)
  else if bool_decide (opr = "goto") then resolved tbl (i_target inst)
  else if opr_in opr ["return"; "throw"] then []
  else if opr_in opr ["tableswitch"; "lookupswitch"] then
    resolved tbl (i_default inst) ++
    (i_targets inst ≫= λ case,
       match case with
       | CaseInt c => resolved tbl (Some c)
       | CaseDict t => resolved tbl t
       | CaseOther => []
       end)
  else option_list (next_offset bytecode i).

(** Body of the edge loop of [build_cfg]. *)
Definition edges_step (bytecode : list instr) (tbl : gmap Z Z) (cfg : CFG)
    (x : nat * instr) : CFG :=
  let '(i, inst) := x in
  let o := get_offset inst in
  if bool_decide (o < 0) || negb (bool_decide (o ∈ dom (cfg_nodes cfg)))
  then cfg
  else foldl (λ c t, add_edge c o t) cfg (edge_targets bytecode tbl i inst).

(** Body of the node loop of [build_cfg]. *)
Definition create_step (cfg : CFG) (inst : instr) : CFG :=
  let o := get_offset inst in
  if decide (0 ≤ o)
  then with_nodes cfg (<[o := new_node o inst]> (cfg_nodes cfg))
  else cfg.

(** [BytecodeAnalyzer.build_cfg], on [code.get("bytecode", [])]. *)
Definition build_cfg (name : string) (bytecode : list instr) : CFG :=
  let cfg := {| method_name := name; cfg_nodes := ∅; entry_offset := 0 |} in
  match bytecode with
  | [] => cfg
  | _ =>
      let index_to_offset := build_index_to_offset bytecode in
      let cfg := foldl create_step cfg bytecode in
      foldl (edges_step bytecode index_to_offset) cfg (enumerate bytecode)
  end.

(** [BytecodeAnalyzer.extract_calls] *)
Definition extract_calls (g : CallGraph) (caller : string)
    (bytecode : list instr) : CallGraph :=
  foldl (λ g inst,
           if bool_decide (i_opr inst = "invoke") then
             let callee_class := i_method_class inst in
             let callee_name := i_method_name inst in
             if bool_decide (callee_class ≠ "") && bool_decide (callee_name ≠ "")
             then add_call g caller (full_name callee_class callee_name)
             else g
           else g)
    g bytecode.

(** The entry-point test of [get_entry_points]. *)
Definition is_entry_point (m : method_json) : bool :=
  let name := get_name m in
  let access := m_access m in
  bool_decide (name = "main")
  || bool_decide ("public" ∈ access)
  || bool_decide ("protected" ∈ access)
  || bool_decide (name = "<clinit>")
  || (bool_decide (name = "<init>") && bool_decide ("public" ∈ access)).

(** [BytecodeAnalyzer.get_entry_points], on [cls.get("methods", [])]. *)
Definition get_entry_points (methods : list method_json) (classname : string)
  : gset string :=
  foldl (λ entry_points m,
           if is_entry_point m
           then entry_points ∪ {[full_name classname (get_name m)]}
           else entry_points)
    ∅ methods.

Record AnalysisResult := {
  r_cfgs : gmap string CFG;
  r_call_graph : CallGraph;
  entry_points : gset string;
  unreachable_methods : gset string;
  dead_instructions : gmap string (gset Z);
  total_instructions : nat;
}.

(** Body of the first loop of [analyze_class]. *)
Definition analyze_method (classname : string) (self : BytecodeAnalyzer)
    (m : method_json) : BytecodeAnalyzer :=
  let name := full_name classname (get_name m) in
  let g := add_method (call_graph self) name in
  match m_code m with
  | Some code =>
      {| cfgs := <[name := build_cfg name (c_bytecode code)]> (cfgs self);
         call_graph := extract_calls g name (c_bytecode code) |}
  | None => {| cfgs := cfgs self; call_graph := g |}
  end.

(** Body of the dead-instruction loop of [analyze_class]. *)
Definition dead_step (reachable_methods : gset string)
    (acc : option (gmap string (gset Z))) (x : string * CFG)
  : option (gmap string (gset Z)) :=
  dead ← acc;
  if decide (x.1 ∈ reachable_methods) then
    unreachable ← get_unreachable_nodes x.2;
    if decide (unreachable = ∅) then Some dead
    else Some (<[x.1 := unreachable]> dead)
  else Some dead.

(** [BytecodeAnalyzer.analyze_class], from the class found by
    [self.suite.findclass] on ([ValueError] is raised before anything else
    when the lookup fails): the analyzer after the call and the result. *)
Definition analyze_class (self : BytecodeAnalyzer) (methods : list method_json)
    (classname : string) : option (BytecodeAnalyzer * AnalysisResult) :=
  let self := foldl (analyze_method classname) self methods in
  let eps := get_entry_points methods classname in
  reachable_methods ← get_reachable_from (call_graph self) eps;
  let unreachable := all_methods (call_graph self) ∖ reachable_methods in
  dead ← foldl (dead_step reachable_methods) (Some ∅)
           (map_to_list (cfgs self));
  let total :=
    sum_list ((λ c, size (cfg_nodes c)) <$> (map_to_list (cfgs self)).*2) in
  Some (self,
        {| r_cfgs := cfgs self; r_call_graph := call_graph self;
           entry_points := eps; unreachable_methods := unreachable;
           dead_instructions := dead; total_instructions := total |}).

(** ** Accessors and summaries *)

(** [BasicBlock.__len__] *)
Definition block_len (b : BasicBlock) : nat := length (nodes b).

(** [AnalysisResult.get_dead_instruction_count] *)
Definition get_dead_instruction_count (r : AnalysisResult) : nat :=
  sum_list (size <$> (map_to_list (dead_instructions r)).*2).

#[global] Instance NodeType_eq_dec : EqDecision NodeType.
Proof. solve_decision. Defined.

(** [CFGNode.is_branch], [CFGNode.is_jump] and [CFGNode.is_terminator]:
    each reads the [node_type] of the node and nothing else. *)
Definition is_branch (node_type : NodeType) : bool :=
  bool_decide (node_type ∈ [BRANCH; SWITCH]).

Definition is_jump (node_type : NodeType) : bool :=
  bool_decide (node_type = JUMP).

Definition is_terminator (node_type : NodeType) : bool :=
  bool_decide (node_type ∈ [RETURN; THROW; EXIT]).

(** * Specification-side definitions

    Predicates and functions that the statements below are written
    with, and the concrete methods they are tried on. *)

Definition node_agree {A} (f : CFGNode → A) (c c' : gmap Z CFGNode) : Prop :=
  ∀ k, f <$> c !! k = f <$> c' !! k.

(** The node that [_build_nodes] stores for instruction [i]. *)
Definition built_node (bytecode : list instr)
    (handlers : list ExceptionHandler) (tbl : gmap Z Z) (leaders : gset Z)
    (i : nat) (ins : instr) : CFGNode :=
  {| offset := get_offset ins; instruction := ins;
     successors :=
       list_to_set (_compute_successors bytecode tbl i ins)
       ∪ list_to_set (handler_pc <$> covering handlers (get_offset ins));
     predecessors := ∅;
     is_leader := bool_decide (get_offset ins ∈ leaders);
     basic_block_id := None;
     exception_handlers := covering handlers (get_offset ins) |}.

(** The instruction that owns offset [o]: the last one of the list that
    carries it (a later instruction overwrites the entry of an earlier
    one). *)
Definition owner (l : list instr) (o : Z) (i : nat) (ins : instr) : Prop :=
  l !! i = Some ins ∧ get_offset ins = o ∧ 0 ≤ o ∧
  ∀ j ins', l !! j = Some ins' → get_offset ins' = o → (j ≤ i)%nat.

Definition index_table (bc : list instr) : gmap Z Z := (_parse_opcodes bc).1.1.
Definition pc_list (bc : list instr) : list Z := (_parse_opcodes bc).1.2.
Definition opcode_keys (bc : list instr) : gset Z := (_parse_opcodes bc).2.

Definition leaders_of (bc : list instr) (hs : list ExceptionHandler) : gset Z :=
  _find_leaders bc hs (index_table bc) (pc_list bc) (opcode_keys bc).

Definition nodes_of (bc : list instr) (hs : list ExceptionHandler)
  : gmap Z CFGNode :=
  _build_nodes bc hs (index_table bc) (leaders_of bc hs).

Definition blocks_of (bc : list instr) (hs : list ExceptionHandler)
  : gmap Z CFGNode * list BasicBlock :=
  _build_basic_blocks (leaders_of bc hs) (pc_list bc)
    (_compute_predecessors (nodes_of bc hs)).

(** The successor and predecessor sets stored under a key (empty when the
    key is absent). *)
Definition succs_of (c : gmap Z CFGNode) (a : Z) : gset Z :=
  from_option successors ∅ (c !! a).
Definition preds_of (c : gmap Z CFGNode) (b : Z) : gset Z :=
  from_option predecessors ∅ (c !! b).

Definition predecessors_loop (c : gmap Z CFGNode) (items : list (Z * CFGNode))
  : gmap Z CFGNode :=
  foldl (λ c '(o, node), foldl (add_predecessor o) c (elements (successors node)))
    c items.

(** The edges that the edge loop of [build_cfg] asks for: from the offset
    of an instruction to one of its [edge_targets]. *)
Definition requested (bc : list instr) (tbl : gmap Z Z)
    (items : list (nat * instr)) (a b : Z) : Prop :=
  ∃ i inst, (i, inst) ∈ items ∧ get_offset inst = a ∧ 0 ≤ a
            ∧ b ∈ edge_targets bc tbl i inst.

(** An offset that some instruction carries and that is not negative. *)
Definition is_offset_of (bc : list instr) (o : Z) : Prop :=
  0 ≤ o ∧ ∃ inst, inst ∈ bc ∧ get_offset inst = o.

(** A node dictionary after construction, by either builder. *)
Inductive constructed : gmap Z CFGNode → Prop :=
  | constructed_by_builder bc hs : constructed (build bc hs)
  | constructed_by_analyzer name bc : constructed (cfg_nodes (build_cfg name bc)).

(** [caller] invokes [callee], as recorded by [add_call]. *)
Definition call_edge (g : CallGraph) (caller callee : string) : Prop :=
  ∃ s, calls g !! caller = Some s ∧ callee ∈ s.

(** Reachable in the call graph from a set of entry points. *)
Definition reachable_method (g : CallGraph) (eps : gset string) (m : string)
  : Prop :=
  ∃ e, e ∈ eps ∧ rtc (call_edge g) e m.

(** A successor edge of a CFG that ends in a node. *)
Definition cfg_edge (c : CFG) (a b : Z) : Prop :=
  b ∈ succs_of (cfg_nodes c) a ∧ b ∈ dom (cfg_nodes c).

(** Reachable in a CFG from its entry offset. *)
Definition reachable_node (c : CFG) (x : Z) : Prop :=
  entry_offset c ∈ dom (cfg_nodes c) ∧ rtc (cfg_edge c) (entry_offset c) x.

(** The entry-point rule in the words of the specification. *)
Definition entry_condition (m : method_json) : Prop :=
  get_name m = "main"
  ∨ "public" ∈ m_access m
  ∨ "protected" ∈ m_access m
  ∨ get_name m = "<clinit>"
  ∨ (get_name m = "<init>" ∧ "public" ∈ m_access m).

(** A class with two overloads of [foo], one public and one private. *)
Definition overloaded_methods : list method_json :=
  [ {| m_name := Some "foo"; m_access := ["public"]; m_code := None |};
    {| m_name := Some "foo"; m_access := ["private"]; m_code := None |} ].

Definition private_foo : method_json :=
  {| m_name := Some "foo"; m_access := ["private"]; m_code := None |}.

(** Resolution in the words of the specification: the byte offset of the
    instruction at a list position, absent when the position is out of
    range or the instruction there has no valid offset. *)
Definition spec_resolve (bc : list instr) (index : Z) : option Z :=
  if decide (0 ≤ index) then
    ins ← bc !! Z.to_nat index;
    if decide (0 ≤ get_offset ins) then Some (get_offset ins) else None
  else None.

(** The offsets that make nodes: those that are not negative, in list
    order. *)
Definition valid_offsets (bc : list instr) : list Z :=
  filter (λ o, 0 ≤ o) (get_offset <$> bc).

(** Valid offsets ascend in list order (the data model: offsets are unique
    and ascending in program order). *)
Definition ascending (bc : list instr) : Prop :=
  ∀ i j a b, (i < j)%nat →
    bc !! i = Some a → bc !! j = Some b →
    0 ≤ get_offset a → 0 ≤ get_offset b → get_offset a < get_offset b.

(** Three instructions at offsets 0, 3 and 6, and a handler descriptor
    whose protected range ends after the last instruction. *)
Definition three_instrs : list instr :=
  [mk_instr 0 "load" None; mk_instr 3 "load" None; mk_instr 6 "return" None].

Definition past_the_end : handler_json :=
  {| j_start := Some 1; j_end := Some 3; j_handler := Some 5;
     j_catchType := None |}.

(** A descriptor all of whose indices are in the table of
    [three_instrs]. *)
Definition inside_range : handler_json :=
  {| j_start := Some 0; j_end := Some 2; j_handler := Some 2;
     j_catchType := None |}.

Definition opt_set (o : option Z) : gset Z := from_option singleton ∅ o.

(** The target index that a switch case carries, in either form. *)
Definition case_index (c : switch_case) : option Z :=
  match c with
  | CaseInt t => Some t
  | CaseDict t => t
  | CaseOther => None
  end.

(** The successor set in the words of the specification, by operation
    kind: the fall-through offset is the offset of the next instruction of
    the list, and an index resolves through [spec_resolve]. *)
Definition spec_successors (bc : list instr) (i : nat) (ins : instr) : gset Z :=
  let fallthrough := opt_set (bc !! S i ≫= i_offset) in
  let resolve idx := opt_set (idx ≫= spec_resolve bc) in
  match classify_opr (i_opr ins) with
  | BRANCH => fallthrough ∪ resolve (i_target ins)
  | JUMP => resolve (i_target ins)
  | SWITCH =>
      resolve (i_default ins) ∪ ⋃ ((λ c, resolve (case_index c)) <$> i_targets ins)
  | RETURN | THROW => ∅
  | _ => fallthrough
  end.

(** The input format: a [tableswitch] lists bare indices, a
    [lookupswitch] lists match/target pairs. *)
Definition switch_form (ins : instr) : Prop :=
  (i_opr ins = "tableswitch" → Forall (λ c, ∃ t, c = CaseInt t) (i_targets ins))
  ∧ (i_opr ins = "lookupswitch" →
     Forall (λ c, ∃ t, c = CaseDict t) (i_targets ins)).

(** The data model: every instruction carries an offset that is not
    negative, and offsets ascend in list order. *)
Definition well_formed (bc : list instr) : Prop :=
  (∀ ins, ins ∈ bc → 0 ≤ get_offset ins ∧ i_offset ins = Some (get_offset ins))
  ∧ ascending bc.

(** The operation strings with a case of their own. *)
Definition control_oprs : list string :=
  ["if"; "ifz"; "goto"; "return"; "throw"; "tableswitch"; "lookupswitch"].

(** A straight-line method with a conditional branch over one
    instruction. *)
Definition branch_method : list instr :=
  [mk_instr 0 "load" None; mk_instr 1 "ifz" (Some 3); mk_instr 4 "push" None;
   mk_instr 5 "return" None].

(** [idx] when it is in the table, nothing otherwise. *)
Definition keep_index (tbl : gmap Z Z) (idx : option Z) : option Z :=
  t ← idx; if tbl !! t is Some _ then Some t else None.

(** A switch case whose target index is not absent from the table. *)
Definition case_kept (tbl : gmap Z Z) (c : switch_case) : Prop :=
  match c with
  | CaseInt t => is_Some (tbl !! t)
  | CaseDict (Some t) => is_Some (tbl !! t)
  | _ => True
  end.

#[global] Instance case_kept_dec tbl c : Decision (case_kept tbl c).
Proof. destruct c as [t|[t|]|]; simpl; apply _. Defined.

(** The instruction without its target indices that are absent from the
    table. *)
Definition drop_unresolved (tbl : gmap Z Z) (ins : instr) : instr :=
  {| i_offset := i_offset ins; i_opr := i_opr ins;
     i_target := keep_index tbl (i_target ins);
     i_default := keep_index tbl (i_default ins);
     i_targets := filter (case_kept tbl) (i_targets ins);
     i_method_class := i_method_class ins;
     i_method_name := i_method_name ins |}.

(** The method without the target indices that its own table does not
    resolve. *)
Definition erase_unresolved (bc : list instr) : list instr :=
  drop_unresolved (build_index_to_offset bc) <$> bc.

(** Two node dictionaries with the same keys and the same edges. *)
Definition same_edges (c c' : gmap Z CFGNode) : Prop :=
  dom c = dom c'
  ∧ ∀ a, succs_of c a = succs_of c' a ∧ preds_of c a = preds_of c' a.

(** A [goto] whose target index is past the end of the method. *)
Definition wild_goto : list instr :=
  [mk_instr 0 "load" None; mk_instr 1 "goto" (Some 7); mk_instr 4 "return" None].

Definition strictly_ascending (l : list Z) : Prop :=
  ∀ i j a b, (i < j)%nat → l !! i = Some a → l !! j = Some b → a < b.

Definition block_agree {A} (f : BasicBlock → A) (bs bs' : list BasicBlock)
  : Prop :=
  ∀ j, f <$> bs !! j = f <$> bs' !! j.

Definition sorted_leaders (bc : list instr) (hs : list ExceptionHandler)
  : list Z := merge_sort Z.le (elements (leaders_of bc hs)).

(** The first offset of the method: the least valid offset,
    [self._pc_list[0]]. *)
Definition first_offset (bc : list instr) : option Z := head (pc_list bc).

(** The instruction ends a block: the instruction after it is made a
    leader. *)
Definition ends_block (tbl : gmap Z Z) (ins : instr) : Prop :=
  opr_in (i_opr ins) ["goto"; "return"; "throw"] = true
  ∨ (opr_in (i_opr ins) ["if"; "ifz"] = true
     ∧ _get_branch_targets tbl ins ≠ []).

(** Scenario D of the specification: a protected range [10, 20) with its
    handler at offset 30. *)
Definition scenario_D_code : list instr :=
  [mk_instr 10 "load" None; mk_instr 15 "load" None;
   mk_instr 20 "goto" (Some 4); mk_instr 30 "store" None;
   mk_instr 31 "return" None].

Definition scenario_D_handlers : list ExceptionHandler :=
  [ {| start_pc := 10; end_pc := 20; handler_pc := 30; catch_type := None |} ].

(** The second half of C4 as it is stated: a node of a block that is not
    its last node has no successor outside the block. *)
Definition interior_closed (bc : list instr) (hs : list ExceptionHandler)
  : Prop :=
  ∀ j b o n s,
    get_basic_blocks bc hs !! j = Some b → o ∈ nodes b →
    last (nodes b) ≠ Some o →
    build bc hs !! o = Some n → s ∈ successors n → s ∈ nodes b.

(** The node stored under a key (a node without edges when there is
    none), and the block at a position (an empty block when there is
    none). *)
Definition node_at (c : gmap Z CFGNode) (o : Z) : CFGNode :=
  default (new_node 0 (mk_instr 0 "" None)) (c !! o).

Definition block_at (bs : list BasicBlock) (j : nat) : BasicBlock :=
  default {| block_id := 0; block_start_pc := 0; block_end_pc := 0;
             nodes := []; successor_blocks := []; predecessor_blocks := [] |}
    (bs !! j).

Definition scenario_D_handler : ExceptionHandler :=
  {| start_pc := 10; end_pc := 20; handler_pc := 30; catch_type := None |}.

(** Block 0 of scenario D. *)
Definition scenario_D_block : BasicBlock :=
  block_at (get_basic_blocks scenario_D_code scenario_D_handlers) 0.

(** Scenario C: the instructions that a jump skips are unreachable. *)
Definition scenario_C_code : list instr :=
  [mk_instr 0 "load" None; mk_instr 1 "goto" (Some 4); mk_instr 4 "load" None;
   mk_instr 5 "store" None; mk_instr 6 "return" None].

(** A switch in the middle of a block: its targets leave the block, the
    second way in which C4 fails as stated. *)
Definition switch_method : list instr :=
  [ {| i_offset := Some 0; i_opr := "tableswitch"; i_target := None;
       i_default := Some 2; i_targets := [CaseInt 2];
       i_method_class := ""; i_method_name := "" |};
    mk_instr 1 "push" None; mk_instr 2 "return" None ].

(** ** The leader loop of [_build_basic_blocks], step by step *)

Section leader_loop_state.
Variables (sl pcs : list Z) (cfg0 : gmap Z CFGNode).

(** The nodes in the range of the leader at position [i]. *)
Definition range_nodes (i : nat) (l : Z) : list Z :=
  filter (in_block l (sl !! S i)) pcs.

(** The state after the first [k] leaders. *)
Definition loop_state (k : nat) : gmap Z CFGNode * list BasicBlock * nat :=
  foldl (block_step sl pcs) (cfg0, [], 0%nat) (take k (enumerate sl)).

Record loop_inv (k : nat) (st : gmap Z CFGNode * list BasicBlock * nat)
  : Prop := {
  inv_dom : dom st.1.1 = dom cfg0;
  inv_offset : ∀ o n, st.1.1 !! o = Some n → offset n = o;
  inv_bid : st.2 = length st.1.2;
  inv_blocks : ∀ j b, st.1.2 !! j = Some b →
    block_id b = j ∧ successor_blocks b = [] ∧ predecessor_blocks b = []
    ∧ head (nodes b) = Some (block_start_pc b)
    ∧ last (nodes b) = Some (block_end_pc b)
    ∧ ∃ i l, (i < k)%nat ∧ sl !! i = Some l ∧ nodes b = range_nodes i l;
  inv_ids : ∀ o n j, st.1.1 !! o = Some n →
    basic_block_id n = Some j ↔ ∃ b, st.1.2 !! j = Some b ∧ o ∈ nodes b;
  inv_cover : ∀ i l o, (i < k)%nat → sl !! i = Some l →
    o ∈ range_nodes i l → ∃ j b, st.1.2 !! j = Some b ∧ o ∈ nodes b;
  inv_mono : ∀ j j' b b' o o', (j < j')%nat →
    st.1.2 !! j = Some b → st.1.2 !! j' = Some b' →
    o ∈ nodes b → o' ∈ nodes b' → o < o';
}.

End leader_loop_state.

(** The call graph of scenario E. *)
Definition scenario_E_graph : CallGraph :=
  add_call
    (add_call
       (foldl add_method {| calls := ∅; all_methods := ∅ |}
          ["A.main"; "B.helper"; "C.util"; "D.unused"])
       "A.main" "B.helper")
    "B.helper" "C.util".

(** What the instruction at position [i] contributes to the leaders in
    the loop of [_find_leaders]: its branch targets, the offset after it
    when it is a conditional branch with a target that resolves, and the
    offset after it when it is a [goto], a [return] or a [throw]. *)
Definition makes_leader (bc : list instr) (i : nat) (ins : instr) (o : Z)
  : Prop :=
  0 ≤ get_offset ins
  ∧ (o ∈ _get_branch_targets (index_table bc) ins
     ∨ (i_opr ins ∈ ["if"; "ifz"]
        ∧ _get_branch_targets (index_table bc) ins ≠ []
        ∧ next_offset bc i = Some o)
     ∨ (i_opr ins ∈ ["goto"; "return"; "throw"] ∧ next_offset bc i = Some o)).

(** What a pass over the blocks does to one block: it keeps the id and
    the successor list, and adds to the predecessor list the ids in [P]. *)
Definition block_linked (P : nat → Prop) (b b' : BasicBlock) : Prop :=
  block_id b' = block_id b
  ∧ successor_blocks b' = successor_blocks b
  ∧ (NoDup (predecessor_blocks b) → NoDup (predecessor_blocks b'))
  ∧ ∀ x, x ∈ predecessor_blocks b' ↔ x ∈ predecessor_blocks b ∨ P x.

(** The instruction is a call that [extract_calls] records, to
    [callee]. *)
Definition records_call (inst : instr) (callee : string) : Prop :=
  i_opr inst = "invoke" ∧ i_method_class inst ≠ "" ∧ i_method_name inst ≠ ""
  ∧ callee = full_name (i_method_class inst) (i_method_name inst).

(** What [add_edge cfg a b] does to the node stored under [k]. *)
Definition edge_update (cfg : CFG) (a b k : Z) (n : CFGNode) : CFGNode :=
  if bool_decide (a ∈ dom (cfg_nodes cfg)) && bool_decide (b ∈ dom (cfg_nodes cfg))
  then
    let n := if decide (k = a) then add_successor b n else n in
    if decide (k = b) then add_pred a n else n
  else n.

(** The list positions that an instruction names: its target, its
    default and the targets of its cases. *)
Definition target_indices (ins : instr) : list Z :=
  option_list (i_target ins) ++ option_list (i_default ins)
  ++ omap case_index (i_targets ins).

(** C1 in the words of the specification, for the node dictionary [c] that
    a builder produces and the exception handlers [hs] of the method:
    every node in the protected range of a handler has the handler's
    offset among its successors and the handler in its handler list. *)
Definition exception_edges_hold (c : gmap Z CFGNode)
    (hs : list ExceptionHandler) : Prop :=
  ∀ o n h,
    c !! o = Some n → h ∈ hs →
    start_pc h ≤ offset n ∧ offset n < end_pc h →
    handler_pc h ∈ successors n ∧ h ∈ exception_handlers n.

(** The instruction passes control to the next one: it is no [goto],
    [return], [throw] or switch. *)
Definition falls_through (ins : instr) : Prop :=
  i_opr ins ∉ ["goto"; "return"; "throw"; "tableswitch"; "lookupswitch"].

(** The target indices of an instruction, by its kind: the target of a
    branch or jump, the default and the case targets of a switch. *)
Definition jump_indices (ins : instr) : list Z :=
  if opr_in (i_opr ins) ["if"; "ifz"; "goto"] then option_list (i_target ins)
  else if opr_in (i_opr ins) ["tableswitch"; "lookupswitch"] then
    option_list (i_default ins) ++ omap case_index (i_targets ins)
  else [].

(** The index of a case of a [tableswitch] (a bare index) and of a
    [lookupswitch] (the target of a match/target pair). *)
Definition table_index (c : switch_case) : option Z :=
  match c with CaseInt t => Some t | _ => None end.

Definition lookup_index (c : switch_case) : option Z :=
  match c with CaseDict t => t | _ => None end.

(** The target indices that [CFGBuilder] reads: as [jump_indices], with
    the cases of each switch in the form of that switch only. *)
Definition builder_indices (ins : instr) : list Z :=
  if opr_in (i_opr ins) ["if"; "ifz"; "goto"] then option_list (i_target ins)
  else if bool_decide (i_opr ins = "tableswitch") then
    option_list (i_default ins) ++ omap table_index (i_targets ins)
  else if bool_decide (i_opr ins = "lookupswitch") then
    option_list (i_default ins) ++ omap lookup_index (i_targets ins)
  else [].

(** * Proofs *)

(** ** Loops *)

(** A loop invariant: it holds at entry and every iteration keeps it. *)
Lemma foldl_ind {A B} (P : B → Prop) (f : B → A → B) (l : list A) (b : B) :
  P b → (∀ b x, x ∈ l → P b → P (f b x)) → P (foldl f b l).
Proof.
  revert b. induction l as [|a l IH]; intros b Hb Hstep; simpl; [done|].
  apply IH.
  - apply Hstep; [left | done].
  - intros b' x Hx. apply Hstep. by right.
Qed.

Lemma elem_of_enumerate {A} (l : list A) (i : nat) (x : A) :
  (i, x) ∈ enumerate l ↔ l !! i = Some x.
Proof.
  unfold enumerate. rewrite elem_of_lookup_imap. split.
  - intros (j & y & [= -> ->] & H). done.
  - intros H. eauto.
Qed.

Lemma enumerate_app {A} (l1 l2 : list A) :
  enumerate (l1 ++ l2)
  = enumerate l1 ++ imap (λ i, pair (length l1 + i)%nat) l2.
Proof. unfold enumerate. by rewrite imap_app. Qed.

Lemma length_enumerate {A} (l : list A) : length (enumerate l) = length l.
Proof. unfold enumerate. by rewrite length_imap. Qed.

Lemma lookup_enumerate {A} (l : list A) (i : nat) :
  enumerate l !! i = pair i <$> l !! i.
Proof. unfold enumerate. by rewrite list_lookup_imap. Qed.

(** ** Fields of a node that a pass leaves alone *)

#[global] Instance node_agree_refl {A} (f : CFGNode → A) : Reflexive (node_agree f).
Proof. by intros c k. Qed.

#[global] Instance node_agree_trans {A} (f : CFGNode → A) : Transitive (node_agree f).
Proof. intros c1 c2 c3 H1 H2 k. by rewrite H1. Qed.

Lemma node_agree_insert {A} (f : CFGNode → A) c k n n' :
  c !! k = Some n → f n' = f n → node_agree f c (<[k := n']> c).
Proof.
  intros Hk Hf j. destruct (decide (k = j)) as [->|Hne].
  - by rewrite lookup_insert_eq, Hk; simpl; rewrite Hf.
  - by rewrite lookup_insert_ne.
Qed.

Lemma node_agree_alter {A} (f : CFGNode → A) (g : CFGNode → CFGNode) c k :
  (∀ n, f (g n) = f n) → node_agree f c (alter g k c).
Proof.
  intros Hf j. destruct (decide (k = j)) as [->|Hne].
  - rewrite lookup_alter_eq. destruct (c !! j); simpl; by rewrite ?Hf.
  - by rewrite lookup_alter_ne.
Qed.

Lemma node_agree_foldl {A B} (f : CFGNode → A)
    (step : gmap Z CFGNode → B → gmap Z CFGNode) (l : list B) c :
  (∀ c x, node_agree f c (step c x)) → node_agree f c (foldl step c l).
Proof.
  intros Hstep. apply (foldl_ind (node_agree f c)); [done|].
  intros b x _ Hb. etrans; [exact Hb | apply Hstep].
Qed.

Lemma node_agree_dom {A} (f : CFGNode → A) c c' :
  node_agree f c c' → dom c = dom c'.
Proof.
  intros H. apply set_eq. intros k. rewrite !elem_of_dom.
  specialize (H k). destruct (c !! k), (c' !! k); naive_solver.
Qed.

Lemma node_agree_lookup {A} (f : CFGNode → A) c c' k n' :
  node_agree f c c' → c' !! k = Some n' →
  ∃ n, c !! k = Some n ∧ f n = f n'.
Proof.
  intros H Hk. specialize (H k). rewrite Hk in H.
  destruct (c !! k) as [n|]; simplify_eq/=. eauto.
Qed.

Lemma foldl_enumerate_snoc {A B} (step : B → nat * A → B) (acc : B)
    (l : list A) (x : A) :
  foldl step acc (enumerate (l ++ [x]))
  = step (foldl step acc (enumerate l)) (length l, x).
Proof.
  rewrite enumerate_app, foldl_app. simpl. by rewrite Nat.add_0_r.
Qed.

(** ** [_build_nodes] *)

Lemma add_handler_targets (n : CFGNode) (hs : list ExceptionHandler) :
  foldl (λ n h, with_successors n (successors n ∪ {[handler_pc h]})) n hs
  = with_successors n (successors n ∪ list_to_set (handler_pc <$> hs)).
Proof.
  revert n. induction hs as [|h hs IH]; intros n; simpl.
  - destruct n; unfold with_successors; simpl. f_equal.
    by rewrite (right_id_L ∅ (∪)).
  - rewrite IH. unfold with_successors; simpl. f_equal.
    by rewrite (assoc_L (∪)).
Qed.

Lemma nodes_step_eq bytecode handlers tbl leaders cfg i ins :
  nodes_step bytecode handlers tbl leaders cfg (i, ins)
  = if decide (get_offset ins < 0) then cfg
    else <[get_offset ins := built_node bytecode handlers tbl leaders i ins]> cfg.
Proof.
  unfold nodes_step. case_decide; [done|].
  by rewrite add_handler_targets.
Qed.

Lemma owner_snoc_new l x o :
  get_offset x = o → 0 ≤ o → owner (l ++ [x]) o (length l) x.
Proof.
  intros Ho Hpos. split_and!; [| done | done |].
  - by rewrite lookup_app_r, Nat.sub_diag by lia.
  - intros j ins' Hj _. apply lookup_lt_Some in Hj.
    rewrite length_app in Hj. simpl in Hj. lia.
Qed.

Lemma owner_snoc_old l x o i ins :
  get_offset x ≠ o → owner (l ++ [x]) o i ins ↔ owner l o i ins.
Proof.
  intros Hne. split.
  - intros (Hi & Ho & Hpos & Hlast).
    assert (i < length l)%nat as Hlt.
    { pose proof (lookup_lt_Some _ _ _ Hi) as Hlen.
      rewrite length_app in Hlen. simpl in Hlen.
      destruct (decide (i = length l)) as [->|]; [|lia].
      rewrite lookup_app_r, Nat.sub_diag in Hi by lia. naive_solver. }
    split_and!; [by rewrite lookup_app_l in Hi | done | done |].
    intros j ins' Hj. apply Hlast. by apply lookup_app_l_Some.
  - intros (Hi & Ho & Hpos & Hlast).
    split_and!; [by apply lookup_app_l_Some | done | done |].
    intros j ins' Hj Ho'. apply lookup_app_Some in Hj as [Hj|[_ Hj]].
    + by eapply Hlast.
    + apply list_lookup_singleton_Some in Hj as [_ ->]. done.
Qed.

Lemma owner_unique l o i ins i' ins' :
  owner l o i ins → owner l o i' ins' → i = i' ∧ ins = ins'.
Proof.
  intros (Hi & Ho & _ & Hl) (Hi' & Ho' & _ & Hl').
  assert (i = i') as -> by (specialize (Hl _ _ Hi' Ho'); specialize (Hl' _ _ Hi Ho); lia).
  naive_solver.
Qed.

(** The loop of [_build_nodes] over a prefix [l] of the instructions. *)
Lemma build_nodes_prefix bytecode handlers tbl leaders l o n :
  foldl (nodes_step bytecode handlers tbl leaders) ∅ (enumerate l) !! o = Some n
  ↔ ∃ i ins, owner l o i ins ∧ n = built_node bytecode handlers tbl leaders i ins.
Proof.
  revert n. induction l as [|x l IH] using rev_ind; intros n.
  - simpl. rewrite lookup_empty. split; [done|].
    intros (i & ins & (Hi & _) & _). by rewrite lookup_nil in Hi.
  - rewrite foldl_enumerate_snoc, nodes_step_eq. case_decide as Hneg.
    + rewrite IH. assert (get_offset x ≠ o ∨ o < 0) as [Hne|Hlt] by lia.
      * split; intros (i & ins & Ho & ->); exists i, ins;
          (split; [by apply (owner_snoc_old l x o i ins)|done]).
      * split; intros (i & ins & (_ & _ & ? & _) & _); lia.
    + destruct (decide (get_offset x = o)) as [Heq|Hne].
      * rewrite Heq, lookup_insert_eq. split.
        -- intros [= <-]. exists (length l), x. split; [|done].
           apply owner_snoc_new; [done | lia].
        -- intros (i & ins & Ho & ->).
           destruct (owner_unique _ _ _ _ _ _ Ho
                       (owner_snoc_new l x o Heq ltac:(lia))) as [-> ->].
           done.
      * rewrite lookup_insert_ne by done. rewrite IH.
        split; intros (i & ins & Ho & ->); exists i, ins;
          (split; [by apply (owner_snoc_old l x o i ins)|done]).
Qed.

Lemma build_nodes_lookup bytecode handlers tbl leaders o n :
  _build_nodes bytecode handlers tbl leaders !! o = Some n
  ↔ ∃ i ins, owner bytecode o i ins
             ∧ n = built_node bytecode handlers tbl leaders i ins.
Proof. apply build_nodes_prefix. Qed.

(** ** What the later passes keep *)

Lemma add_predecessor_agree {A} (f : CFGNode → A) o cfg s :
  (∀ n p, f (with_predecessors n p) = f n) →
  node_agree f cfg (add_predecessor o cfg s).
Proof.
  intros Hf. unfold add_predecessor.
  destruct (cfg !! s) as [n|] eqn:Hs; [|done].
  by eapply node_agree_insert.
Qed.

Lemma compute_predecessors_agree {A} (f : CFGNode → A) cfg :
  (∀ n p, f (with_predecessors n p) = f n) →
  node_agree f cfg (_compute_predecessors cfg).
Proof.
  intros Hf. unfold _compute_predecessors.
  apply node_agree_foldl. intros c [o node].
  apply node_agree_foldl. intros c' s. by apply add_predecessor_agree.
Qed.

Lemma block_step_agree {A} (f : CFGNode → A) sl pcs cfg blocks bid x :
  (∀ b n, f (with_block_id b n) = f n) →
  node_agree f cfg (block_step sl pcs (cfg, blocks, bid) x).1.1.
Proof.
  intros Hf. destruct x as [i leader]. unfold block_step.
  match goal with
  | |- context [foldl ?g cfg ?l] =>
      assert (node_agree f cfg (foldl g cfg l)) as Hag
  end.
  { apply node_agree_foldl. intros c pc. by apply node_agree_alter. }
  by destruct (filter _ pcs).
Qed.

Lemma build_basic_blocks_agree {A} (f : CFGNode → A) leaders pcs cfg :
  (∀ b n, f (with_block_id b n) = f n) →
  node_agree f cfg (_build_basic_blocks leaders pcs cfg).1.
Proof.
  intros Hf. unfold _build_basic_blocks.
  match goal with
  | |- context [foldl ?g ?s ?l] =>
      assert (node_agree f cfg (foldl g s l).1.1) as Hag
  end.
  { apply (foldl_ind (λ st, node_agree f cfg st.1.1)); [done|].
    intros [[c bs] bid] x _ Hc. etrans; [exact Hc|].
    by apply block_step_agree. }
  by destruct (foldl _ _ _) as [[c bs] bid].
Qed.

(** ** The fields of the builder after [build] *)

Lemma build_state_cons bc hs :
  bc ≠ [] →
  build_state bc hs
  = {| bytecode := bc; b_exception_handlers := hs;
       _opcodes := opcode_keys bc; _pc_list := pc_list bc;
       _leaders := leaders_of bc hs; _cfg := (blocks_of bc hs).1;
       _basic_blocks := (blocks_of bc hs).2;
       _index_to_offset := index_table bc |}.
Proof.
  intros Hne. unfold build_state, blocks_of, nodes_of, leaders_of,
    index_table, pc_list, opcode_keys.
  destruct bc as [|x bc]; [done|].
  destruct (_parse_opcodes (x :: bc)) as [[tbl pcs] ops]. simpl.
  by destruct (_build_basic_blocks _ _ _).
Qed.

Lemma build_nil hs : build [] hs = ∅.
Proof. done. Qed.

Lemma get_basic_blocks_nil hs : get_basic_blocks [] hs = [].
Proof. done. Qed.

Lemma build_cons bc hs : bc ≠ [] → build bc hs = (blocks_of bc hs).1.
Proof. intros H. unfold build. by rewrite build_state_cons. Qed.

Lemma get_basic_blocks_cons bc hs :
  bc ≠ [] → get_basic_blocks bc hs = (blocks_of bc hs).2.
Proof. intros H. unfold get_basic_blocks. by rewrite build_state_cons. Qed.

(** Every field but the predecessor set and the block id is as
    [_build_nodes] left it. *)
Lemma build_agree {A} (f : CFGNode → A) bc hs :
  bc ≠ [] →
  (∀ n p, f (with_predecessors n p) = f n) →
  (∀ b n, f (with_block_id b n) = f n) →
  node_agree f (nodes_of bc hs) (build bc hs).
Proof.
  intros Hne Hp Hb. rewrite build_cons by done. unfold blocks_of.
  etrans; [by apply compute_predecessors_agree|].
  by apply build_basic_blocks_agree.
Qed.

Lemma build_lookup bc hs o n :
  build bc hs !! o = Some n →
  ∃ i ins, owner bc o i ins ∧
    offset n = o ∧ instruction n = ins ∧
    successors n =
      list_to_set (_compute_successors bc (index_table bc) i ins)
      ∪ list_to_set (handler_pc <$> covering hs o) ∧
    exception_handlers n = covering hs o.
Proof.
  intros Hn. destruct (nil_or_length_pos bc) as [->|Hne].
  { by rewrite build_nil, lookup_empty in Hn. }
  assert (bc ≠ []) as Hne' by (by intros ->).
  pose proof (build_agree
    (λ n, (offset n, instruction n, successors n, exception_handlers n))
    bc hs Hne' (λ _ _, eq_refl) (λ _ _, eq_refl)) as Hag.
  destruct (node_agree_lookup _ _ _ _ _ Hag Hn) as (n0 & Hn0 & Heq).
  apply build_nodes_lookup in Hn0 as (i & ins & Hown & ->).
  exists i, ins. split; [done|].
  destruct Hown as (_ & Ho & _). simpl in Heq. rewrite Ho in Heq.
  by simplify_eq.
Qed.

(** ** Edge symmetry *)

Lemma succs_of_agree c c' a :
  node_agree successors c c' → succs_of c a = succs_of c' a.
Proof.
  intros Hag. unfold succs_of. specialize (Hag a).
  destruct (c !! a), (c' !! a); by simplify_eq/=.
Qed.

Lemma preds_of_agree c c' a :
  node_agree predecessors c c' → preds_of c a = preds_of c' a.
Proof.
  intros Hag. unfold preds_of. specialize (Hag a).
  destruct (c !! a), (c' !! a); by simplify_eq/=.
Qed.

Lemma add_predecessor_dom o c s : dom (add_predecessor o c s) = dom c.
Proof.
  unfold add_predecessor. destruct (c !! s) as [n|] eqn:Hs; [|done].
  rewrite dom_insert_L. apply elem_of_dom_2 in Hs. set_solver.
Qed.

Lemma add_predecessor_preds o c s b a :
  a ∈ preds_of (add_predecessor o c s) b
  ↔ a ∈ preds_of c b ∨ (a = o ∧ b = s ∧ b ∈ dom c).
Proof.
  unfold add_predecessor, preds_of.
  destruct (c !! s) as [n|] eqn:Hs.
  - destruct (decide (s = b)) as [->|Hne].
    + rewrite lookup_insert_eq, Hs. simpl. rewrite elem_of_union, elem_of_singleton.
      apply elem_of_dom_2 in Hs. naive_solver.
    + rewrite lookup_insert_ne by done. naive_solver.
  - split; [by left|]. intros [?|(_ & -> & Hd)]; [done|].
    apply elem_of_dom in Hd as [? Hd]. congruence.
Qed.

Lemma add_predecessors_dom o c l :
  dom (foldl (add_predecessor o) c l) = dom c.
Proof.
  revert c. induction l as [|s l IH]; intros c; simpl; [done|].
  by rewrite IH, add_predecessor_dom.
Qed.

Lemma add_predecessors_preds o c l b a :
  a ∈ preds_of (foldl (add_predecessor o) c l) b
  ↔ a ∈ preds_of c b ∨ (a = o ∧ b ∈ l ∧ b ∈ dom c).
Proof.
  revert c. induction l as [|s l IH]; intros c; simpl.
  - split; [by left|]. intros [?|(_ & Hb & _)]; [done|]. by apply elem_of_nil in Hb.
  - rewrite IH, add_predecessor_preds, add_predecessor_dom, elem_of_cons.
    naive_solver.
Qed.

Lemma predecessors_loop_dom c items : dom (predecessors_loop c items) = dom c.
Proof.
  revert c. induction items as [|[o n] items IH]; intros c; simpl; [done|].
  unfold predecessors_loop in *. simpl. by rewrite IH, add_predecessors_dom.
Qed.

Lemma predecessors_loop_preds c items b a :
  a ∈ preds_of (predecessors_loop c items) b
  ↔ a ∈ preds_of c b
    ∨ (b ∈ dom c ∧ ∃ na, (a, na) ∈ items ∧ b ∈ successors na).
Proof.
  revert c. induction items as [|[o n] items IH]; intros c.
  - simpl. split; [by left|]. intros [?|(_ & na & Hna & _)]; [done|].
    by apply elem_of_nil in Hna.
  - unfold predecessors_loop in *. simpl.
    rewrite IH, add_predecessors_preds, add_predecessors_dom.
    setoid_rewrite elem_of_cons. setoid_rewrite elem_of_elements.
    split.
    + intros [[?|(-> & ? & ?)]|(? & na & ? & ?)]; [by left|right..].
      * split; [done|]. exists n. by split; [left|].
      * split; [done|]. exists na. by split; [right|].
    + intros [?|(? & na & [[= -> ->]|?] & ?)]; [by left; left|..].
      * by left; right.
      * right. split; [done|]. by exists na.
Qed.

(** After [_compute_predecessors] on nodes without predecessors, the
    predecessors of a node are the nodes that list it as a successor. *)
Lemma compute_predecessors_preds c a b :
  (∀ k, preds_of c k = ∅) →
  b ∈ dom c →
  a ∈ preds_of (_compute_predecessors c) b ↔ a ∈ dom c ∧ b ∈ succs_of c a.
Proof.
  intros Hempty Hb.
  change (_compute_predecessors c) with (predecessors_loop c (map_to_list c)).
  rewrite predecessors_loop_preds, Hempty. unfold succs_of. split.
  - intros [Hin|(_ & na & Hna & Hs)]; [by apply not_elem_of_empty in Hin|].
    apply elem_of_map_to_list in Hna. rewrite Hna. split; [|done].
    by apply elem_of_dom_2 in Hna.
  - intros [Ha Hs]. right. split; [done|].
    apply elem_of_dom in Ha as [na Hna]. rewrite Hna in Hs.
    exists na. by rewrite elem_of_map_to_list.
Qed.

Lemma nodes_of_preds_empty bc hs k : preds_of (nodes_of bc hs) k = ∅.
Proof.
  unfold preds_of. destruct (nodes_of bc hs !! k) as [n|] eqn:Hk; [|done].
  apply build_nodes_lookup in Hk as (i & ins & _ & ->). done.
Qed.

(** Edge symmetry of the dictionary built by [CFGBuilder]. *)
Lemma builder_symmetric bc hs a b :
  a ∈ dom (build bc hs) → b ∈ dom (build bc hs) →
  b ∈ succs_of (build bc hs) a ↔ a ∈ preds_of (build bc hs) b.
Proof.
  destruct (nil_or_length_pos bc) as [->|Hne].
  { rewrite build_nil, dom_empty_L. by intros ?%not_elem_of_empty. }
  assert (bc ≠ []) as Hne' by (by intros ->).
  pose proof (build_agree successors bc hs Hne' (λ _ _, eq_refl)
                (λ _ _, eq_refl)) as Hs.
  rewrite <- (node_agree_dom _ _ _ Hs), <- (succs_of_agree _ _ _ Hs).
  rewrite build_cons by done. unfold blocks_of.
  rewrite <- (preds_of_agree _ _ b
    (build_basic_blocks_agree predecessors _ _ _ (λ _ _, eq_refl))).
  intros Ha Hb.
  rewrite compute_predecessors_preds by (done || apply nodes_of_preds_empty).
  naive_solver.
Qed.

(** *** [CFG.add_edge] and the loops of [build_cfg] *)

Lemma succs_of_alter_pred f t c a :
  succs_of (alter (add_pred f) t c) a = succs_of c a.
Proof.
  unfold succs_of. destruct (decide (t = a)) as [->|Hne].
  - rewrite lookup_alter_eq. by destruct (c !! a).
  - by rewrite lookup_alter_ne.
Qed.

Lemma preds_of_alter_succ t f c b :
  preds_of (alter (add_successor t) f c) b = preds_of c b.
Proof.
  unfold preds_of. destruct (decide (f = b)) as [->|Hne].
  - rewrite lookup_alter_eq. by destruct (c !! b).
  - by rewrite lookup_alter_ne.
Qed.

Lemma succs_of_alter_succ t f c a x :
  x ∈ succs_of (alter (add_successor t) f c) a
  ↔ x ∈ succs_of c a ∨ (a = f ∧ x = t ∧ f ∈ dom c).
Proof.
  unfold succs_of. destruct (decide (f = a)) as [->|Hne].
  - rewrite lookup_alter_eq, elem_of_dom.
    destruct (c !! a) as [n|]; simpl.
    + rewrite elem_of_union, elem_of_singleton. naive_solver.
    + split; [by left|]. intros [?|(_ & _ & [? ?])]; done.
  - rewrite lookup_alter_ne by done. naive_solver.
Qed.

Lemma preds_of_alter_pred f t c b x :
  x ∈ preds_of (alter (add_pred f) t c) b
  ↔ x ∈ preds_of c b ∨ (b = t ∧ x = f ∧ t ∈ dom c).
Proof.
  unfold preds_of. destruct (decide (t = b)) as [->|Hne].
  - rewrite lookup_alter_eq, elem_of_dom.
    destruct (c !! b) as [n|]; simpl.
    + rewrite elem_of_union, elem_of_singleton. naive_solver.
    + split; [by left|]. intros [?|(_ & _ & [? ?])]; done.
  - rewrite lookup_alter_ne by done. naive_solver.
Qed.

Lemma add_edge_dom cfg f t : dom (cfg_nodes (add_edge cfg f t)) = dom (cfg_nodes cfg).
Proof.
  unfold add_edge. case_match; [|done]. simpl. by rewrite !dom_alter_L.
Qed.

Lemma add_edge_succs cfg f t a x :
  x ∈ succs_of (cfg_nodes (add_edge cfg f t)) a
  ↔ x ∈ succs_of (cfg_nodes cfg) a
    ∨ (a = f ∧ x = t ∧ f ∈ dom (cfg_nodes cfg) ∧ t ∈ dom (cfg_nodes cfg)).
Proof.
  unfold add_edge.
  destruct (bool_decide (f ∈ _) && bool_decide (t ∈ _)) eqn:Hc.
  - apply andb_true_iff in Hc as [Hf%bool_decide_eq_true Ht%bool_decide_eq_true].
    simpl. rewrite succs_of_alter_pred, succs_of_alter_succ. naive_solver.
  - apply andb_false_iff in Hc. rewrite !bool_decide_eq_false in Hc. naive_solver.
Qed.

Lemma add_edge_preds cfg f t b x :
  x ∈ preds_of (cfg_nodes (add_edge cfg f t)) b
  ↔ x ∈ preds_of (cfg_nodes cfg) b
    ∨ (b = t ∧ x = f ∧ f ∈ dom (cfg_nodes cfg) ∧ t ∈ dom (cfg_nodes cfg)).
Proof.
  unfold add_edge.
  destruct (bool_decide (f ∈ _) && bool_decide (t ∈ _)) eqn:Hc.
  - apply andb_true_iff in Hc as [Hf%bool_decide_eq_true Ht%bool_decide_eq_true].
    simpl. rewrite preds_of_alter_pred, preds_of_alter_succ, dom_alter_L.
    naive_solver.
  - apply andb_false_iff in Hc. rewrite !bool_decide_eq_false in Hc. naive_solver.
Qed.

Lemma add_edges_dom cfg o l :
  dom (cfg_nodes (foldl (λ c t, add_edge c o t) cfg l)) = dom (cfg_nodes cfg).
Proof.
  revert cfg. induction l as [|t l IH]; intros cfg; simpl; [done|].
  by rewrite IH, add_edge_dom.
Qed.

Lemma add_edges_succs cfg o l a x :
  x ∈ succs_of (cfg_nodes (foldl (λ c t, add_edge c o t) cfg l)) a
  ↔ x ∈ succs_of (cfg_nodes cfg) a
    ∨ (a = o ∧ x ∈ l ∧ o ∈ dom (cfg_nodes cfg) ∧ x ∈ dom (cfg_nodes cfg)).
Proof.
  revert cfg. induction l as [|t l IH]; intros cfg; simpl.
  - split; [by left|]. intros [?|(_ & Hx & _)]; [done|]. by apply elem_of_nil in Hx.
  - rewrite IH, add_edge_succs, add_edge_dom, elem_of_cons. naive_solver.
Qed.

Lemma add_edges_preds cfg o l b x :
  x ∈ preds_of (cfg_nodes (foldl (λ c t, add_edge c o t) cfg l)) b
  ↔ x ∈ preds_of (cfg_nodes cfg) b
    ∨ (x = o ∧ b ∈ l ∧ o ∈ dom (cfg_nodes cfg) ∧ b ∈ dom (cfg_nodes cfg)).
Proof.
  revert cfg. induction l as [|t l IH]; intros cfg; simpl.
  - split; [by left|]. intros [?|(_ & Hx & _)]; [done|]. by apply elem_of_nil in Hx.
  - rewrite IH, add_edge_preds, add_edge_dom, elem_of_cons. naive_solver.
Qed.

Lemma requested_nil bc tbl a b : ¬ requested bc tbl [] a b.
Proof. intros (i & inst & Hin & _). by apply elem_of_nil in Hin. Qed.

Lemma requested_cons bc tbl i inst items a b :
  requested bc tbl ((i, inst) :: items) a b
  ↔ (get_offset inst = a ∧ 0 ≤ a ∧ b ∈ edge_targets bc tbl i inst)
    ∨ requested bc tbl items a b.
Proof.
  unfold requested. setoid_rewrite elem_of_cons. split.
  - intros (j & inst' & [[= -> ->]|Hin] & Hr); [by left|right; eauto].
  - intros [Hr|(j & inst' & Hin & Hr)]; [exists i, inst|exists j, inst']; eauto.
Qed.

Lemma edges_step_dom bc tbl cfg x :
  dom (cfg_nodes (edges_step bc tbl cfg x)) = dom (cfg_nodes cfg).
Proof.
  destruct x as [i inst]. unfold edges_step. case_match; [done|].
  apply add_edges_dom.
Qed.

Lemma edges_step_succs bc tbl cfg i inst a x :
  x ∈ succs_of (cfg_nodes (edges_step bc tbl cfg (i, inst))) a
  ↔ x ∈ succs_of (cfg_nodes cfg) a
    ∨ (a ∈ dom (cfg_nodes cfg) ∧ x ∈ dom (cfg_nodes cfg)
       ∧ get_offset inst = a ∧ 0 ≤ a ∧ x ∈ edge_targets bc tbl i inst).
Proof.
  unfold edges_step.
  destruct (bool_decide (get_offset inst < 0) || _) eqn:Hc.
  - apply orb_true_iff in Hc as [Hc%bool_decide_eq_true|Hc%negb_true_iff%bool_decide_eq_false].
    + split; [by left|]. intros [?|(_ & _ & <- & ? & _)]; [done|lia].
    + split; [by left|]. intros [?|(? & _ & <- & _)]; done.
  - apply orb_false_iff in Hc as [Hc%bool_decide_eq_false Hd%negb_false_iff%bool_decide_eq_true].
    rewrite add_edges_succs. split.
    + intros [?|(-> & ? & ? & ?)]; [by left|right]. split_and!; [done..|lia|done].
    + intros [?|(? & ? & <- & ? & ?)]; [by left|by right].
Qed.

Lemma edges_step_preds bc tbl cfg i inst b x :
  x ∈ preds_of (cfg_nodes (edges_step bc tbl cfg (i, inst))) b
  ↔ x ∈ preds_of (cfg_nodes cfg) b
    ∨ (x ∈ dom (cfg_nodes cfg) ∧ b ∈ dom (cfg_nodes cfg)
       ∧ get_offset inst = x ∧ 0 ≤ x ∧ b ∈ edge_targets bc tbl i inst).
Proof.
  unfold edges_step.
  destruct (bool_decide (get_offset inst < 0) || _) eqn:Hc.
  - apply orb_true_iff in Hc as [Hc%bool_decide_eq_true|Hc%negb_true_iff%bool_decide_eq_false].
    + split; [by left|]. intros [?|(_ & _ & <- & ? & _)]; [done|lia].
    + split; [by left|]. intros [?|(? & _ & <- & _)]; done.
  - apply orb_false_iff in Hc as [Hc%bool_decide_eq_false Hd%negb_false_iff%bool_decide_eq_true].
    rewrite add_edges_preds. split.
    + intros [?|(-> & ? & ? & ?)]; [by left|right]. split_and!; [done..|lia|done].
    + intros [?|(? & ? & <- & ? & ?)]; [by left|by right].
Qed.

Lemma edges_loop_dom bc tbl cfg items :
  dom (cfg_nodes (foldl (edges_step bc tbl) cfg items)) = dom (cfg_nodes cfg).
Proof.
  revert cfg. induction items as [|x items IH]; intros cfg; simpl; [done|].
  by rewrite IH, edges_step_dom.
Qed.

Lemma edges_loop_succs bc tbl cfg items a x :
  x ∈ succs_of (cfg_nodes (foldl (edges_step bc tbl) cfg items)) a
  ↔ x ∈ succs_of (cfg_nodes cfg) a
    ∨ (a ∈ dom (cfg_nodes cfg) ∧ x ∈ dom (cfg_nodes cfg)
       ∧ requested bc tbl items a x).
Proof.
  revert cfg. induction items as [|[i inst] items IH]; intros cfg; cbn [foldl].
  - pose proof (requested_nil bc tbl a x). naive_solver.
  - rewrite IH, edges_step_succs, edges_step_dom, requested_cons. naive_solver.
Qed.

Lemma edges_loop_preds bc tbl cfg items b x :
  x ∈ preds_of (cfg_nodes (foldl (edges_step bc tbl) cfg items)) b
  ↔ x ∈ preds_of (cfg_nodes cfg) b
    ∨ (x ∈ dom (cfg_nodes cfg) ∧ b ∈ dom (cfg_nodes cfg)
       ∧ requested bc tbl items x b).
Proof.
  revert cfg. induction items as [|[i inst] items IH]; intros cfg; cbn [foldl].
  - pose proof (requested_nil bc tbl x b). naive_solver.
  - rewrite IH, edges_step_preds, edges_step_dom, requested_cons. naive_solver.
Qed.

(** *** The nodes and edges of [build_cfg] *)

Lemma create_loop_lookup cfg bc o n :
  cfg_nodes (foldl create_step cfg bc) !! o = Some n →
  cfg_nodes cfg !! o = Some n
  ∨ ∃ inst, inst ∈ bc ∧ get_offset inst = o ∧ n = new_node o inst.
Proof.
  revert cfg. induction bc as [|x bc IH]; intros cfg; cbn [foldl]; [by left|].
  intros [Hn|(inst & Hin & Ho & ->)]%IH.
  - unfold create_step in Hn. case_decide; [|by left]. simpl in Hn.
    destruct (decide (get_offset x = o)) as [<-|Hne].
    + rewrite lookup_insert_eq in Hn. simplify_eq. right. exists x.
      split; [left|done].
    + rewrite lookup_insert_ne in Hn by done. by left.
  - right. exists inst. split; [by right|done].
Qed.

Lemma create_loop_dom cfg bc o :
  o ∈ dom (cfg_nodes (foldl create_step cfg bc))
  ↔ o ∈ dom (cfg_nodes cfg) ∨ is_offset_of bc o.
Proof.
  unfold is_offset_of.
  revert cfg. induction bc as [|x bc IH]; intros cfg; cbn [foldl].
  - split; [by left|]. intros [?|(_ & inst & Hin & _)]; [done|].
    by apply elem_of_nil in Hin.
  - rewrite IH. setoid_rewrite elem_of_cons.
    unfold create_step. case_decide as Hpos; simpl.
    + rewrite dom_insert_L, elem_of_union, elem_of_singleton. split.
      * intros [[->|?]|(? & inst & ? & ?)]; [right|by left|right]; eauto 6.
      * intros [?|(? & inst & [->|?] & ?)]; [left; by right|left; by left|right].
        eauto.
    + split.
      * intros [?|(? & inst & ? & ?)]; [by left|right]; eauto 6.
      * intros [?|(? & inst & [->|?] & ?)]; [by left|lia|right]. eauto.
Qed.

Lemma build_cfg_dom name bc o :
  o ∈ dom (cfg_nodes (build_cfg name bc)) ↔ is_offset_of bc o.
Proof.
  unfold build_cfg. destruct bc as [|x bc'].
  - simpl. rewrite dom_empty_L. split; [by intros ?%not_elem_of_empty|].
    intros (_ & inst & Hin & _). by apply elem_of_nil in Hin.
  - rewrite edges_loop_dom, create_loop_dom. simpl.
    rewrite dom_empty_L. split; [intros [?%not_elem_of_empty|?]; done|by right].
Qed.

Lemma created_no_edges name bc k :
  succs_of (cfg_nodes (foldl create_step
     {| method_name := name; cfg_nodes := ∅; entry_offset := 0 |} bc)) k = ∅
  ∧ preds_of (cfg_nodes (foldl create_step
     {| method_name := name; cfg_nodes := ∅; entry_offset := 0 |} bc)) k = ∅.
Proof.
  unfold succs_of, preds_of.
  destruct (cfg_nodes _ !! k) as [n|] eqn:Hk; [|done].
  apply create_loop_lookup in Hk as [Hk|(inst & _ & _ & ->)]; [|done].
  simpl in Hk. by rewrite lookup_empty in Hk.
Qed.

(** The successor sets built by [build_cfg]: exactly the requested edges
    whose two ends are nodes. *)
Lemma build_cfg_succs name bc a x :
  x ∈ succs_of (cfg_nodes (build_cfg name bc)) a
  ↔ is_offset_of bc a ∧ is_offset_of bc x
    ∧ requested bc (build_index_to_offset bc) (enumerate bc) a x.
Proof.
  rewrite <- !(build_cfg_dom name).
  unfold build_cfg. destruct bc as [|i0 bc'].
  - simpl. unfold succs_of. rewrite lookup_empty. simpl.
    split; [by intros ?%not_elem_of_empty|].
    rewrite dom_empty_L. by intros [?%not_elem_of_empty _].
  - rewrite edges_loop_succs, edges_loop_dom.
    rewrite (proj1 (created_no_edges name _ a)).
    split; [intros [?%not_elem_of_empty|?]; done|by right].
Qed.

Lemma build_cfg_preds name bc b x :
  x ∈ preds_of (cfg_nodes (build_cfg name bc)) b
  ↔ is_offset_of bc x ∧ is_offset_of bc b
    ∧ requested bc (build_index_to_offset bc) (enumerate bc) x b.
Proof.
  rewrite <- !(build_cfg_dom name).
  unfold build_cfg. destruct bc as [|i0 bc'].
  - simpl. unfold preds_of. rewrite lookup_empty. simpl.
    split; [by intros ?%not_elem_of_empty|].
    rewrite dom_empty_L. by intros [?%not_elem_of_empty _].
  - rewrite edges_loop_preds, edges_loop_dom.
    rewrite (proj2 (created_no_edges name _ b)).
    split; [intros [?%not_elem_of_empty|?]; done|by right].
Qed.

(** *** C6 *)

(** C6. In a CFG after construction (by [CFGBuilder.build] or by
    [BytecodeAnalyzer.build_cfg]), for two offsets [a] and [b] that are
    both node keys, [b] is a successor of [a] if and only if [a] is a
    predecessor of [b]. *)
Theorem edge_symmetry (c : gmap Z CFGNode) (a b : Z) (na nb : CFGNode) :
  constructed c →
  c !! a = Some na → c !! b = Some nb →
  b ∈ successors na ↔ a ∈ predecessors nb.
Proof.
  intros Hc Ha Hb.
  assert (b ∈ succs_of c a ↔ a ∈ preds_of c b) as Hsym.
  { destruct Hc as [bc hs|name bc].
    - apply builder_symmetric; by eapply elem_of_dom_2.
    - by rewrite build_cfg_succs, build_cfg_preds. }
  unfold succs_of, preds_of in Hsym. by rewrite Ha, Hb in Hsym.
Qed.

(** ** Worklist search computes reachability *)

Section worklist_correct.
Context {K : Type} `{Countable K}.
Variable valid : K → bool.
Variable succs : K → list K.

Lemma search_nil fuel reachable :
  search valid succs fuel reachable [] = Some reachable.
Proof. by destruct fuel. Qed.

Lemma search_cons fuel reachable x rest :
  search valid succs fuel reachable (x :: rest)
  = if bool_decide (x ∈ reachable) || negb (valid x)
    then search valid succs fuel reachable rest
    else match fuel with
         | O => None
         | S fuel' =>
             search valid succs fuel' (reachable ∪ {[x]})
               (push_new (reachable ∪ {[x]}) rest (succs x))
         end.
Proof. by destruct fuel. Qed.

Lemma elem_of_push_new (reachable : gset K) (worklist l : list K) (w : K) :
  w ∈ push_new reachable worklist l
  ↔ w ∈ worklist ∨ (w ∈ l ∧ w ∉ reachable).
Proof.
  unfold push_new. revert worklist.
  induction l as [|s l IH]; intros worklist; simpl.
  - split; [by left|]. intros [?|[Hw _]]; [done|]. by apply elem_of_nil in Hw.
  - rewrite IH. case_decide; rewrite ?elem_of_cons; naive_solver.
Qed.

(** The loop stops: every addition takes a node out of the finite set
    [U] of candidates. *)
Lemma search_terminates (U : gset K) fuel reachable worklist :
  (∀ w, w ∈ worklist → valid w = true → w ∈ U) →
  (∀ y z, z ∈ succs y → valid z = true → z ∈ U) →
  (size (U ∖ reachable) ≤ fuel)%nat →
  is_Some (search valid succs fuel reachable worklist).
Proof.
  intros Hwl Hsucc. revert reachable worklist Hwl.
  induction fuel as [|fuel IHf]; intros reachable worklist;
    induction worklist as [|x rest IHw]; intros Hwl Hsize;
    rewrite ?search_nil, ?search_cons; try done.
  - destruct (bool_decide (x ∈ reachable) || negb (valid x)) eqn:Hc.
    + apply IHw; [|done]. intros w Hw. apply Hwl. by right.
    + apply orb_false_iff in Hc as [Hx%bool_decide_eq_false Hv%negb_false_iff].
      assert (x ∈ U ∖ reachable) as Hin.
      { apply elem_of_difference. split; [|done]. apply Hwl; [left|done]. }
      assert (size (U ∖ reachable) ≠ 0%nat) as Hnz.
      { intros Hz%size_empty_inv. by apply Hz in Hin. }
      lia.
  - destruct (bool_decide (x ∈ reachable) || negb (valid x)) eqn:Hc.
    + apply IHw; [|done]. intros w Hw. apply Hwl. by right.
    + apply orb_false_iff in Hc as [Hx%bool_decide_eq_false Hv%negb_false_iff].
      apply IHf.
      * intros w [Hw|[Hw _]]%elem_of_push_new Hvw.
        -- apply Hwl; [by right|done].
        -- by eapply Hsucc.
      * assert (U ∖ (reachable ∪ {[x]}) ⊂ U ∖ reachable) as Hsub.
        { split; [set_solver|]. intros Hss.
          assert (x ∈ U ∖ reachable) as Hin.
          { apply elem_of_difference. split; [|done]. apply Hwl; [left|done]. }
          apply Hss in Hin. set_solver. }
        apply subset_size in Hsub. lia.
Qed.

(** What the loop returns was reachable from the worklist or already
    there. *)
Lemma search_sound fuel reachable worklist r :
  search valid succs fuel reachable worklist = Some r →
  ∀ x, x ∈ r → x ∈ reachable ∨ reach valid succs worklist x.
Proof.
  revert reachable worklist.
  induction fuel as [|fuel IHf]; intros reachable worklist;
    induction worklist as [|y rest IHw];
    rewrite ?search_nil, ?search_cons; intros Hs x Hx.
  - left. by simplify_eq.
  - destruct (bool_decide (y ∈ reachable) || negb (valid y)) eqn:Hc; [|done].
    destruct (IHw Hs x Hx) as [?|(e & He & Hv & Hr)]; [by left|right].
    exists e. split; [by right|done].
  - left. by simplify_eq.
  - destruct (bool_decide (y ∈ reachable) || negb (valid y)) eqn:Hc.
    + destruct (IHw Hs x Hx) as [?|(e & He & Hv & Hr)]; [by left|right].
      exists e. split; [by right|done].
    + apply orb_false_iff in Hc as [Hy%bool_decide_eq_false Hv%negb_false_iff].
      destruct (IHf _ _ Hs x Hx) as [[?| ->%elem_of_singleton]%elem_of_union
                                    |(e & He & Hve & Hr)].
      * by left.
      * right. exists y. split_and!; [left|done|done].
      * right. apply elem_of_push_new in He as [He|[He _]].
        -- exists e. split; [by right|done].
        -- exists y. split_and!; [left|done|].
           eapply rtc_l; [|exact Hr]. by split.
Qed.

(** What the loop returns contains the worklist and is closed under the
    edges. *)
Lemma search_complete fuel reachable worklist r :
  search valid succs fuel reachable worklist = Some r →
  (∀ y z, y ∈ reachable → edge valid succs y z → z ∈ reachable ∨ z ∈ worklist) →
  reachable ⊆ r
  ∧ (∀ w, w ∈ worklist → valid w = true → w ∈ r)
  ∧ (∀ y z, y ∈ r → edge valid succs y z → z ∈ r).
Proof.
  assert (∀ (reachable : gset K) (y : K) (rest : list K),
    (bool_decide (y ∈ reachable) || negb (valid y)) = true →
    (∀ y' z, y' ∈ reachable → edge valid succs y' z → z ∈ reachable ∨ z ∈ y :: rest) →
    (∀ y' z, y' ∈ reachable → edge valid succs y' z → z ∈ reachable ∨ z ∈ rest))
    as Hskip_inv.
  { intros rs y rest Hc Hinv y' z Hy' Hyz.
    destruct (Hinv y' z Hy' Hyz) as [?|[->|?]%elem_of_cons];
      [by left| |by right].
    apply orb_true_iff in Hc as [?%bool_decide_eq_true|Hn%negb_true_iff];
      [by left|]. destruct Hyz as [_ Hvz]. congruence. }
  assert (∀ (reachable : gset K) (y : K) (rest : list K),
    (bool_decide (y ∈ reachable) || negb (valid y)) = true →
    reachable ⊆ r → (∀ w, w ∈ rest → valid w = true → w ∈ r) →
    (∀ w, w ∈ y :: rest → valid w = true → w ∈ r)) as Hskip_wl.
  { intros rs y rest Hc Hsub Hwl w [->|?]%elem_of_cons Hv;
      [|by apply Hwl].
    apply orb_true_iff in Hc as [?%bool_decide_eq_true|Hn%negb_true_iff];
      [by apply Hsub|congruence]. }
  revert reachable worklist.
  induction fuel as [|fuel IHf]; intros reachable worklist;
    induction worklist as [|y rest IHw];
    rewrite ?search_nil, ?search_cons; intros Hs Hinv.
  - simplify_eq. split_and!; [done|by intros w ?%elem_of_nil|].
    intros y z Hy Hyz. destruct (Hinv y z Hy Hyz) as [?|?%elem_of_nil]; done.
  - destruct (bool_decide (y ∈ reachable) || negb (valid y)) eqn:Hc; [|done].
    destruct (IHw Hs (Hskip_inv _ _ _ Hc Hinv)) as (Hsub & Hwl & Hcl).
    split_and!; [done|by eapply Hskip_wl|done].
  - simplify_eq. split_and!; [done|by intros w ?%elem_of_nil|].
    intros y z Hy Hyz. destruct (Hinv y z Hy Hyz) as [?|?%elem_of_nil]; done.
  - destruct (bool_decide (y ∈ reachable) || negb (valid y)) eqn:Hc.
    + destruct (IHw Hs (Hskip_inv _ _ _ Hc Hinv)) as (Hsub & Hwl & Hcl).
      split_and!; [done|by eapply Hskip_wl|done].
    + apply orb_false_iff in Hc as [Hy%bool_decide_eq_false Hv%negb_false_iff].
      destruct (IHf _ _ Hs) as (Hsub & Hwl & Hcl).
      { intros y' z [Hy'| ->%elem_of_singleton]%elem_of_union Hyz.
        - destruct (Hinv y' z Hy' Hyz) as [?|[->|?]%elem_of_cons].
          + left. set_solver.
          + left. set_solver.
          + right. apply elem_of_push_new. by left.
        - destruct (decide (z ∈ reachable ∪ {[y]})); [by left|right].
          apply elem_of_push_new. right. by destruct Hyz. }
      split_and!; [set_solver| |done].
      intros w [->|Hw]%elem_of_cons Hvw; [set_solver|].
      apply Hwl; [|done]. apply elem_of_push_new. by left.
Qed.

(** From an empty [reachable], the search returns the set of nodes
    reachable from the start nodes. *)
Theorem search_reach (U : gset K) fuel init :
  (∀ w, w ∈ init → valid w = true → w ∈ U) →
  (∀ y z, z ∈ succs y → valid z = true → z ∈ U) →
  (size U ≤ fuel)%nat →
  ∃ r, search valid succs fuel ∅ init = Some r ∧ ∀ x, x ∈ r ↔ reach valid succs init x.
Proof.
  intros Hinit Hsucc Hsize.
  destruct (search_terminates U fuel ∅ init Hinit Hsucc) as [r Hr].
  { by rewrite difference_empty_L. }
  exists r. split; [done|]. intros x. split.
  - intros Hx.
    destruct (search_sound _ _ _ _ Hr x Hx) as [?%not_elem_of_empty|?]; done.
  - intros (e & He & Hv & Hrtc).
    destruct (search_complete _ _ _ _ Hr) as (_ & Hwl & Hcl).
    { by intros y z ?%not_elem_of_empty. }
    assert (e ∈ r) as Her by (by apply Hwl).
    clear He Hv. induction Hrtc as [e|e e' x Hee' _ IH]; [done|].
    apply IH. by eapply Hcl.
Qed.
End worklist_correct.

(** ** Reachability in the call graph and in a CFG *)

Lemma rtc_iff {A} (R1 R2 : relation A) x y :
  (∀ a b, R1 a b ↔ R2 a b) → rtc R1 x y ↔ rtc R2 x y.
Proof.
  intros Hiff. split; apply rtc_subrel; intros a b; by apply Hiff.
Qed.

Lemma get_reachable_from_spec g eps :
  ∃ r, get_reachable_from g eps = Some r
       ∧ ∀ m, m ∈ r ↔ reachable_method g eps m.
Proof.
  unfold get_reachable_from.
  destruct (search_reach (λ _ : string, true)
              (λ m, elements (default ∅ (calls g !! m)))
              (eps ∪ callees g) (size (eps ∪ callees g))
              (reverse (elements eps))) as (r & Hr & Hspec).
  - intros w Hw%elem_of_reverse%elem_of_elements _. set_solver.
  - intros y z Hz%elem_of_elements _. apply elem_of_union_r.
    unfold callees. apply elem_of_union_list.
    destruct (calls g !! y) as [s|] eqn:Hy; [|by apply not_elem_of_empty in Hz].
    exists s. split; [|done].
    apply list_elem_of_fmap. exists (y, s). split; [done|].
    by apply elem_of_map_to_list.
  - done.
  - exists r. split; [done|]. intros m. rewrite Hspec.
    unfold reach, reachable_method.
    assert (∀ a b, edge (λ _ : string, true)
                     (λ m, elements (default ∅ (calls g !! m))) a b
                   ↔ call_edge g a b) as Hedge.
    { intros a b. unfold edge, call_edge. rewrite elem_of_elements.
      destruct (calls g !! a) as [s|]; simpl.
      - split; [intros [? _]; eauto|]. by intros (s' & [= <-] & ?).
      - split; [by intros [?%not_elem_of_empty _]|]. by intros (s' & ? & _). }
    setoid_rewrite (rtc_iff _ _ _ _ Hedge).
    setoid_rewrite elem_of_reverse. setoid_rewrite elem_of_elements.
    naive_solver.
Qed.

Lemma get_reachable_nodes_spec c :
  ∃ r, get_reachable_nodes c = Some r ∧ ∀ x, x ∈ r ↔ reachable_node c x.
Proof.
  unfold get_reachable_nodes.
  destruct (search_reach (λ o, bool_decide (o ∈ dom (cfg_nodes c)))
              (λ o, elements (from_option successors ∅ (cfg_nodes c !! o)))
              (dom (cfg_nodes c)) (size (cfg_nodes c))
              [entry_offset c]) as (r & Hr & Hspec).
  - by intros w _ ?%bool_decide_eq_true.
  - by intros y z _ ?%bool_decide_eq_true.
  - by rewrite size_dom.
  - exists r. split; [done|]. intros x. rewrite Hspec.
    unfold reach, reachable_node.
    assert (∀ a b, edge (λ o, bool_decide (o ∈ dom (cfg_nodes c)))
                     (λ o, elements (from_option successors ∅ (cfg_nodes c !! o)))
                     a b
                   ↔ cfg_edge c a b) as Hedge.
    { intros a b. unfold edge, cfg_edge, succs_of.
      by rewrite elem_of_elements, bool_decide_eq_true. }
    setoid_rewrite (rtc_iff _ _ _ _ Hedge).
    setoid_rewrite list_elem_of_singleton. setoid_rewrite bool_decide_eq_true.
    naive_solver.
Qed.

Lemma get_unreachable_nodes_spec c :
  ∃ u, get_unreachable_nodes c = Some u
       ∧ ∀ x, x ∈ u ↔ x ∈ dom (cfg_nodes c) ∧ ¬ reachable_node c x.
Proof.
  unfold get_unreachable_nodes.
  destruct (get_reachable_nodes_spec c) as (r & -> & Hr). simpl.
  eexists. split; [done|]. intros x. by rewrite elem_of_difference, Hr.
Qed.

(** ** [analyze_class] *)

Lemma extract_calls_all_methods g caller bc :
  all_methods (extract_calls g caller bc) = all_methods g.
Proof.
  unfold extract_calls.
  apply (foldl_ind (λ g', all_methods g' = all_methods g)); [done|].
  intros g' inst _ Hg'. repeat case_match; done.
Qed.

Lemma analyze_method_all_methods cn self m :
  all_methods (call_graph (analyze_method cn self m))
  = all_methods (call_graph self) ∪ {[full_name cn (get_name m)]}.
Proof.
  unfold analyze_method. destruct (m_code m); simpl; [|done].
  by rewrite extract_calls_all_methods.
Qed.

Lemma analyze_methods_all_methods cn self methods x :
  x ∈ all_methods (call_graph (foldl (analyze_method cn) self methods))
  ↔ x ∈ all_methods (call_graph self)
    ∨ ∃ m, m ∈ methods ∧ x = full_name cn (get_name m).
Proof.
  revert self. induction methods as [|m methods IH]; intros self; cbn [foldl].
  - split; [by left|]. intros [?|(m & Hm & _)]; [done|]. by apply elem_of_nil in Hm.
  - rewrite IH, analyze_method_all_methods, elem_of_union, elem_of_singleton.
    setoid_rewrite elem_of_cons. naive_solver.
Qed.

(** The dead-instruction loop over the items of [self.cfgs]. *)
Lemma dead_loop_spec (reachable : gset string) (items : list (string * CFG)) :
  NoDup items.*1 →
  ∃ dead, foldl (dead_step reachable) (Some ∅) items = Some dead
    ∧ ∀ m s, dead !! m = Some s
        ↔ m ∈ reachable
          ∧ ∃ c, (m, c) ∈ items ∧ get_unreachable_nodes c = Some s ∧ s ≠ ∅.
Proof.
  induction items as [|[name c] items IH] using rev_ind; intros Hnd.
  - exists ∅. split; [done|]. intros m s. rewrite lookup_empty.
    split; [done|]. intros (_ & c & Hc & _). by apply elem_of_nil in Hc.
  - rewrite fmap_app in Hnd. apply NoDup_app in Hnd as (Hnd & Hfresh & _).
    destruct (IH Hnd) as (dead & Hdead & Hspec).
    assert (∀ c', (name, c') ∉ items) as Hname.
    { intros c' Hin. apply (Hfresh name); [|left].
      apply list_elem_of_fmap. by exists (name, c'). }
    rewrite foldl_app, Hdead. cbn [foldl]. unfold dead_step at 1. simpl.
    destruct (get_unreachable_nodes_spec c) as (u & Hu & _).
    setoid_rewrite elem_of_app. setoid_rewrite list_elem_of_singleton.
    case_decide as Hr; [rewrite Hu; simpl; case_decide as He|].
    + exists dead. split; [done|]. intros m s. rewrite Hspec. split.
      * intros (? & c' & ? & ?). eauto 6.
      * intros (? & c' & [?|[= -> ->]] & ? & ?); [eauto|congruence].
    + exists (<[name := u]> dead). split; [done|]. intros m s.
      destruct (decide (name = m)) as [->|Hne].
      * rewrite lookup_insert_eq. split.
        -- intros [= <-]. eauto 7.
        -- intros (_ & c' & [Hin|[= ->]] & ? & _); [by apply Hname in Hin|].
           congruence.
      * rewrite lookup_insert_ne by done. rewrite Hspec. split.
        -- intros (? & c' & ? & ?). eauto 6.
        -- intros (? & c' & [?|[= -> ->]] & ? & ?); [eauto|done].
    + exists dead. split; [done|]. intros m s. rewrite Hspec. split.
      * intros (? & c' & ? & ?). eauto 6.
      * intros (? & c' & [?|[= -> ->]] & ? & ?); [eauto|done].
Qed.

(** [analyze_class] returns, and its result is made of the analyzer after
    the method loop, the entry points, the search result and the dead
    instruction map. *)
Lemma analyze_class_returns self methods cn :
  let self' := foldl (analyze_method cn) self methods in
  let eps := get_entry_points methods cn in
  ∃ reachable dead total,
    get_reachable_from (call_graph self') eps = Some reachable
    ∧ foldl (dead_step reachable) (Some ∅) (map_to_list (cfgs self')) = Some dead
    ∧ analyze_class self methods cn
      = Some (self',
              {| r_cfgs := cfgs self'; r_call_graph := call_graph self';
                 entry_points := eps;
                 unreachable_methods := all_methods (call_graph self') ∖ reachable;
                 dead_instructions := dead; total_instructions := total |}).
Proof.
  intros self' eps.
  destruct (get_reachable_from_spec (call_graph self') eps) as (r & Hr & _).
  destruct (dead_loop_spec r (map_to_list (cfgs self'))) as (dead & Hd & _).
  { apply NoDup_fst_map_to_list. }
  exists r, dead. eexists. split_and!; [done..|].
  unfold analyze_class. fold self'. fold eps. rewrite Hr. simpl.
  rewrite Hd. simpl. done.
Qed.

(** *** C8 *)

(** C8. [analyze_class] returns, and in its result [unreachable_methods]
    is [all_methods] minus the methods reachable in the call graph from the
    entry points; every declared method of the class is in [all_methods],
    called or not. *)
Theorem unreachable_methods_complement (self : BytecodeAnalyzer)
    (methods : list method_json) (cn : string) :
  ∃ self' res,
    analyze_class self methods cn = Some (self', res)
    ∧ (∀ m, m ∈ unreachable_methods res
            ↔ m ∈ all_methods (r_call_graph res)
              ∧ ¬ reachable_method (r_call_graph res) (entry_points res) m)
    ∧ (∀ m, m ∈ methods →
            full_name cn (get_name m) ∈ all_methods (r_call_graph res)).
Proof.
  destruct (analyze_class_returns self methods cn)
    as (r & dead & total & Hr & _ & ->).
  eexists _, _. split; [done|]. simpl. split.
  - intros m. rewrite elem_of_difference.
    destruct (get_reachable_from_spec
                (call_graph (foldl (analyze_method cn) self methods))
                (get_entry_points methods cn)) as (r' & Hr' & Hspec).
    rewrite Hr in Hr'. simplify_eq. by rewrite Hspec.
  - intros m Hm. apply analyze_methods_all_methods. right. eauto.
Qed.

(** *** C10 *)

(** C10. In the result of [analyze_class], [dead_instructions] maps a
    method to a set exactly when the method is reachable in the call graph,
    has a CFG, and the set is the non-empty set of unreachable nodes of
    that CFG; so every key is a reachable method with a CFG, every mapped
    set is non-empty, and a reachable method all of whose nodes are
    reachable is absent from the map. *)
Theorem dead_instructions_keys (self : BytecodeAnalyzer)
    (methods : list method_json) (cn : string) :
  ∃ self' res,
    analyze_class self methods cn = Some (self', res)
    ∧ (∀ m s, dead_instructions res !! m = Some s
              ↔ reachable_method (r_call_graph res) (entry_points res) m
                ∧ ∃ c, r_cfgs res !! m = Some c
                       ∧ get_unreachable_nodes c = Some s ∧ s ≠ ∅)
    ∧ (∀ m c, r_cfgs res !! m = Some c →
              (∀ x, x ∈ dom (cfg_nodes c) → reachable_node c x) →
              dead_instructions res !! m = None).
Proof.
  destruct (analyze_class_returns self methods cn)
    as (r & dead & total & Hr & Hd & ->).
  eexists _, _. split; [done|]. simpl.
  set (self' := foldl (analyze_method cn) self methods) in *.
  destruct (get_reachable_from_spec (call_graph self')
              (get_entry_points methods cn)) as (r' & Hr' & Hspec).
  rewrite Hr in Hr'. simplify_eq.
  destruct (dead_loop_spec r' (map_to_list (cfgs self'))) as (dead' & Hd' & Hdead).
  { apply NoDup_fst_map_to_list. }
  rewrite Hd in Hd'. simplify_eq.
  assert (∀ m s, dead' !! m = Some s
            ↔ reachable_method (call_graph self') (get_entry_points methods cn) m
              ∧ ∃ c, cfgs self' !! m = Some c
                     ∧ get_unreachable_nodes c = Some s ∧ s ≠ ∅) as Hiff.
  { intros m s. rewrite Hdead, Hspec.
    by setoid_rewrite elem_of_map_to_list. }
  split; [done|].
  intros m c Hc Hall. destruct (dead' !! m) as [s|] eqn:Hm; [|done].
  apply Hiff in Hm as (_ & c' & Hc' & Hu & Hne). simplify_eq.
  destruct (get_unreachable_nodes_spec c) as (u & Hu' & Hspec').
  rewrite Hu in Hu'. simplify_eq. exfalso. apply Hne.
  apply set_eq. intros x. rewrite Hspec'.
  split; [|by intros ?%not_elem_of_empty].
  intros [Hx Hn]. exfalso. by apply Hn, Hall.
Qed.

(** ** Entry points *)

Lemma is_entry_point_spec m : is_entry_point m = true ↔ entry_condition m.
Proof.
  unfold is_entry_point, entry_condition.
  rewrite !orb_true_iff, andb_true_iff, !bool_decide_eq_true. tauto.
Qed.

Lemma full_name_inj cn n1 n2 : full_name cn n1 = full_name cn n2 → n1 = n2.
Proof.
  unfold full_name. intros Heq.
  apply (inj (String.app cn)) in Heq. by apply (inj (String.app ".")) in Heq.
Qed.

Lemma get_entry_points_spec methods cn x :
  x ∈ get_entry_points methods cn
  ↔ ∃ m, m ∈ methods ∧ entry_condition m ∧ x = full_name cn (get_name m).
Proof.
  unfold get_entry_points.
  induction methods as [|m methods IH] using rev_ind.
  - simpl. split; [by intros ?%not_elem_of_empty|].
    intros (m & Hm & _). by apply elem_of_nil in Hm.
  - rewrite foldl_app. cbn [foldl]. setoid_rewrite elem_of_app.
    setoid_rewrite list_elem_of_singleton.
    destruct (is_entry_point m) eqn:He.
    + apply is_entry_point_spec in He.
      rewrite elem_of_union, elem_of_singleton, IH. naive_solver.
    + assert (¬ entry_condition m) as Hn.
      { rewrite <- is_entry_point_spec. congruence. }
      rewrite IH. naive_solver.
Qed.

(** *** C7 *)

(** C7, as stated, fails for an overloaded name: the private overload of a
    public method is a declared method whose identifier is in the
    entry-point set although it meets none of the conditions. *)
Lemma entry_points_overload_counterexample :
  private_foo ∈ overloaded_methods
  ∧ ¬ (full_name "C" (get_name private_foo)
         ∈ get_entry_points overloaded_methods "C"
       ↔ entry_condition private_foo).
Proof.
  split; [right; left|].
  intros [Hin _].
  assert (entry_condition private_foo) as Hc.
  { apply Hin. apply get_entry_points_spec.
    eexists. split; [left|]. split; [|done]. right. left. left. }
  unfold entry_condition, private_foo in Hc. simpl in Hc.
  destruct Hc as [?|[Hp|[Hp|[?|[? _]]]]]; try done;
    apply list_elem_of_singleton in Hp; done.
Qed.

(** C7, amended.  Methods are identified by class and name only: the
    identifier of a declared method is in the entry-point set if and only
    if some declared method of that name (the method itself or an
    overload) is named [main], or is public or protected, or is [<clinit>],
    or is a public [<init>]; when no other declared method shares its name
    this is the condition on the method itself. *)
Theorem entry_point_iff (methods : list method_json) (cn : string)
    (m : method_json) :
  m ∈ methods →
  (full_name cn (get_name m) ∈ get_entry_points methods cn
   ↔ ∃ m', m' ∈ methods ∧ get_name m' = get_name m ∧ entry_condition m')
  ∧ ((∀ m', m' ∈ methods → get_name m' = get_name m → m' = m) →
     (full_name cn (get_name m) ∈ get_entry_points methods cn
      ↔ entry_condition m)).
Proof.
  intros Hm.
  assert (full_name cn (get_name m) ∈ get_entry_points methods cn
          ↔ ∃ m', m' ∈ methods ∧ get_name m' = get_name m ∧ entry_condition m')
    as Hiff.
  { rewrite get_entry_points_spec. split.
    - intros (m' & Hm' & Hc & Heq%full_name_inj). eauto.
    - intros (m' & Hm' & Hn & Hc). exists m'. by rewrite Hn. }
  split; [done|]. intros Huniq. rewrite Hiff. split.
  - intros (m' & Hm' & Hn & Hc). by rewrite <- (Huniq m' Hm' Hn).
  - intros Hc. eauto.
Qed.

(** ** The index-to-offset table *)

Lemma spec_resolve_snoc_old l x k :
  k ≠ Z.of_nat (length l) → spec_resolve (l ++ [x]) k = spec_resolve l k.
Proof.
  intros Hk. unfold spec_resolve. case_decide as Hpos; [|done].
  destruct (decide (Z.to_nat k < length l)%nat) as [Hlt|Hge].
  - by rewrite lookup_app_l.
  - rewrite (lookup_ge_None_2 l) by lia.
    rewrite lookup_ge_None_2; [done|]. rewrite length_app. simpl. lia.
Qed.

Lemma spec_resolve_snoc_new l x :
  spec_resolve (l ++ [x]) (Z.of_nat (length l))
  = if decide (0 ≤ get_offset x) then Some (get_offset x) else None.
Proof.
  unfold spec_resolve. rewrite decide_True by lia.
  rewrite Nat2Z.id, lookup_app_r, Nat.sub_diag by lia. done.
Qed.

Lemma spec_resolve_old_None l : spec_resolve l (Z.of_nat (length l)) = None.
Proof.
  unfold spec_resolve. rewrite decide_True by lia.
  by rewrite Nat2Z.id, lookup_ge_None_2.
Qed.

Lemma build_index_to_offset_lookup bc k :
  build_index_to_offset bc !! k = spec_resolve bc k.
Proof.
  unfold build_index_to_offset. revert k.
  induction bc as [|x l IH] using rev_ind; intros k.
  - simpl. rewrite lookup_empty. unfold spec_resolve.
    case_decide; [|done]. by rewrite lookup_nil.
  - rewrite foldl_enumerate_snoc.
    destruct (decide (k = Z.of_nat (length l))) as [->|Hne].
    + rewrite spec_resolve_snoc_new. case_decide.
      * by rewrite lookup_insert_eq.
      * by rewrite IH, spec_resolve_old_None.
    + rewrite spec_resolve_snoc_old by done. case_decide.
      * by rewrite lookup_insert_ne.
      * done.
Qed.

Lemma valid_offsets_snoc l x :
  valid_offsets (l ++ [x])
  = valid_offsets l ++ (if decide (0 ≤ get_offset x) then [get_offset x] else []).
Proof.
  unfold valid_offsets. by rewrite fmap_app, filter_app.
Qed.

Lemma parse_loop_eq bc :
  foldl parse_step (∅, [], ∅) (enumerate bc)
  = (build_index_to_offset bc, valid_offsets bc, list_to_set (valid_offsets bc)).
Proof.
  unfold build_index_to_offset.
  induction bc as [|x l IH] using rev_ind; [done|].
  rewrite !foldl_enumerate_snoc, IH, valid_offsets_snoc.
  unfold parse_step. repeat case_decide; try lia.
  - by rewrite app_nil_r.
  - f_equal. rewrite list_to_set_app_L. simpl. set_solver.
Qed.

Lemma index_table_eq bc : index_table bc = build_index_to_offset bc.
Proof. unfold index_table, _parse_opcodes. by rewrite parse_loop_eq. Qed.

Lemma pc_list_eq bc : pc_list bc = merge_sort Z.le (valid_offsets bc).
Proof. unfold pc_list, _parse_opcodes. by rewrite parse_loop_eq. Qed.

Lemma opcode_keys_eq bc : opcode_keys bc = list_to_set (valid_offsets bc).
Proof. unfold opcode_keys, _parse_opcodes. by rewrite parse_loop_eq. Qed.

Lemma elem_of_valid_offsets bc o :
  o ∈ valid_offsets bc ↔ is_offset_of bc o.
Proof.
  unfold valid_offsets, is_offset_of.
  rewrite list_elem_of_filter, list_elem_of_fmap. naive_solver.
Qed.

Lemma spec_resolve_Some bc k o :
  spec_resolve bc k = Some o
  ↔ ∃ ins, 0 ≤ k ∧ bc !! Z.to_nat k = Some ins ∧ get_offset ins = o ∧ 0 ≤ o.
Proof.
  unfold spec_resolve. case_decide as Hk; [|naive_solver].
  destruct (bc !! Z.to_nat k) as [ins|]; simpl; [|naive_solver].
  case_decide; naive_solver.
Qed.

Lemma spec_resolve_is_offset bc k o :
  spec_resolve bc k = Some o → is_offset_of bc o.
Proof.
  intros (ins & _ & Hins & Ho & Hpos)%spec_resolve_Some.
  split; [done|]. exists ins. split; [|done]. by eapply list_elem_of_lookup_2.
Qed.

(** ** C5: resolved exception handlers *)

(** C5, as stated, fails: an index that is not in the table is kept as it
    is, so a range that ends past the last instruction resolves to
    [start_pc = end_pc = 3], and a handler index that is not in the table
    gives a [handler_pc] that is no instruction's offset. *)
Lemma from_json_counterexample :
  let h := from_json past_the_end (Some (build_index_to_offset three_instrs)) in
  ¬ (start_pc h < end_pc h)
  ∧ ¬ (∃ inst, inst ∈ three_instrs ∧ get_offset inst = handler_pc h).
Proof.
  assert (from_json past_the_end (Some (build_index_to_offset three_instrs))
          = {| start_pc := 3; end_pc := 3; handler_pc := 5; catch_type := None |})
    as ->.
  { unfold from_json. rewrite decide_False.
    - unfold get_or_self. rewrite !build_index_to_offset_lookup. done.
    - intros Heq. pose proof (build_index_to_offset_lookup three_instrs 0) as Hl.
      rewrite Heq, lookup_empty in Hl. done. }
  simpl. split; [lia|].
  intros (inst & Hin & Ho). unfold three_instrs in Hin.
  repeat (apply elem_of_cons in Hin as [->|Hin]; [done|]).
  by apply elem_of_nil in Hin.
Qed.

(** Offsets that are sorted as a list ascend in the sense above; the
    premise can be decided by evaluation. *)
Lemma ascending_of_sorted bc :
  StronglySorted Z.lt (valid_offsets bc) → ascending bc.
Proof.
  induction bc as [|x bc IH]; intros Hs i j a b Hij Hi Hj Ha Hb.
  - by rewrite lookup_nil in Hi.
  - destruct j as [|j]; [lia|]. simpl in Hj.
    assert (StronglySorted Z.lt (valid_offsets bc)) as Hs'.
    { unfold valid_offsets in *. rewrite fmap_cons, filter_cons in Hs.
      case_decide; [by apply StronglySorted_cons in Hs as [_ ?]|done]. }
    destruct i as [|i]; simpl in Hi.
    + simplify_eq. unfold valid_offsets in Hs.
      rewrite fmap_cons, filter_cons_True in Hs by done.
      apply StronglySorted_cons in Hs as [Hall _].
      rewrite Forall_forall in Hall. apply Hall.
      apply elem_of_valid_offsets. split; [done|].
      exists b. split; [by eapply list_elem_of_lookup_2|done].
    + apply (IH Hs' i j); [lia|done..].
Qed.

(** C5, amended.  When the start, end and handler indices of the
    descriptor are all in the index-to-offset table, the start index is
    below the end index and the valid offsets of the method ascend,
    [start_pc < end_pc] and [handler_pc] is the offset of an instruction
    of the method.  (An index that is not in the table is kept unresolved,
    and no ordering is checked.) *)
Theorem from_json_resolved (bc : list instr) (d : handler_json) :
  is_Some (build_index_to_offset bc !! default 0 (j_start d)) →
  is_Some (build_index_to_offset bc !! default 0 (j_end d)) →
  is_Some (build_index_to_offset bc !! default 0 (j_handler d)) →
  default 0 (j_start d) < default 0 (j_end d) →
  ascending bc →
  start_pc (from_json d (Some (build_index_to_offset bc)))
    < end_pc (from_json d (Some (build_index_to_offset bc)))
  ∧ ∃ inst, inst ∈ bc
      ∧ get_offset inst
        = handler_pc (from_json d (Some (build_index_to_offset bc))).
Proof.
  intros [os Hs] [oe He] [oh Hh] Hlt Hasc. unfold from_json.
  rewrite decide_False by (intros Heq; by rewrite Heq in Hs).
  simpl. unfold get_or_self. rewrite Hs, He, Hh. simpl.
  rewrite build_index_to_offset_lookup in Hs, He, Hh.
  split.
  - apply spec_resolve_Some in Hs as (a & ? & Ha & <- & ?).
    apply spec_resolve_Some in He as (b & ? & Hb & <- & ?).
    eapply (Hasc (Z.to_nat (default 0 (j_start d)))
                 (Z.to_nat (default 0 (j_end d)))); [lia|done..].
  - by apply spec_resolve_is_offset in Hh as [_ ?].
Qed.

(** [from_json_resolved] at a descriptor inside [three_instrs]. *)
Lemma from_json_resolved_witness :
  start_pc (from_json inside_range (Some (build_index_to_offset three_instrs)))
    < end_pc (from_json inside_range (Some (build_index_to_offset three_instrs)))
  ∧ ∃ inst, inst ∈ three_instrs
      ∧ get_offset inst
        = handler_pc
            (from_json inside_range (Some (build_index_to_offset three_instrs))).
Proof.
  apply (from_json_resolved three_instrs inside_range).
  - vm_compute. eexists. reflexivity.
  - vm_compute. eexists. reflexivity.
  - vm_compute. eexists. reflexivity.
  - reflexivity.
  - apply ascending_of_sorted. apply (bool_decide_unpack _).
    vm_compute. exact I.
Defined.

(** ** C2: successors by operation kind *)

Lemma elem_of_opt_set o x : x ∈ opt_set o ↔ o = Some x.
Proof.
  unfold opt_set. destruct o as [y|]; simpl.
  - rewrite elem_of_singleton. naive_solver.
  - split; [by intros ?%not_elem_of_empty|done].
Qed.

Lemma elem_of_option_list {A} (o : option A) (x : A) :
  x ∈ option_list o ↔ o = Some x.
Proof.
  destruct o as [y|]; simpl.
  - rewrite list_elem_of_singleton. naive_solver.
  - split; [by intros ?%elem_of_nil|done].
Qed.

Lemma elem_of_resolved bc idx x :
  x ∈ resolved (build_index_to_offset bc) idx
  ↔ x ∈ opt_set (idx ≫= spec_resolve bc).
Proof.
  rewrite elem_of_opt_set. unfold resolved, _resolve_target.
  destruct idx as [t|]; simpl; [|by split; [intros ?%elem_of_nil|]].
  rewrite build_index_to_offset_lookup.
  destruct (spec_resolve bc t) as [o|]; simpl.
  - rewrite list_elem_of_singleton. naive_solver.
  - by split; [intros ?%elem_of_nil|].
Qed.

Lemma elem_of_dict_fromkeys l x : x ∈ dict_fromkeys l ↔ x ∈ l.
Proof.
  induction l as [|y l IH]; simpl; [done|].
  rewrite !elem_of_cons, list_elem_of_filter, IH.
  destruct (decide (x = y)); naive_solver.
Qed.


Lemma elem_of_cases_any bc (cs : list switch_case) x :
  x ∈ (cs ≫= λ case,
         match case with
         | CaseInt c => resolved (build_index_to_offset bc) (Some c)
         | CaseDict t => resolved (build_index_to_offset bc) t
         | CaseOther => []
         end)
  ↔ x ∈ ⋃ ((λ c, opt_set (case_index c ≫= spec_resolve bc)) <$> cs).
Proof.
  rewrite list_elem_of_bind, elem_of_union_list.
  setoid_rewrite list_elem_of_fmap. split.
  - intros (c & Hx & Hc). eexists. split; [by exists c|].
    destruct c as [t|t|]; cbn [case_index].
    + by apply (elem_of_resolved bc (Some t)).
    + by apply elem_of_resolved.
    + by apply elem_of_nil in Hx.
  - intros (X & (c & -> & Hc) & Hx). exists c. split; [|done].
    destruct c as [t|t|]; cbn [case_index] in Hx.
    + by apply (elem_of_resolved bc (Some t)).
    + by apply elem_of_resolved.
    + by apply not_elem_of_empty in Hx.
Qed.

Lemma elem_of_cases_table bc (cs : list switch_case) x :
  Forall (λ c, ∃ t, c = CaseInt t) cs →
  x ∈ (cs ≫= λ case,
         match case with
         | CaseInt c => resolved (build_index_to_offset bc) (Some c)
         | _ => []
         end)
  ↔ x ∈ ⋃ ((λ c, opt_set (case_index c ≫= spec_resolve bc)) <$> cs).
Proof.
  intros Hform. rewrite <- elem_of_cases_any.
  rewrite !list_elem_of_bind. split; intros (c & Hx & Hc); exists c;
    (split; [|done]);
    destruct (proj1 (Forall_forall _ _) Hform c Hc) as [t ->]; done.
Qed.

Lemma elem_of_cases_lookup bc (cs : list switch_case) x :
  Forall (λ c, ∃ t, c = CaseDict t) cs →
  x ∈ (cs ≫= λ case,
         match case with
         | CaseDict t => resolved (build_index_to_offset bc) t
         | _ => []
         end)
  ↔ x ∈ ⋃ ((λ c, opt_set (case_index c ≫= spec_resolve bc)) <$> cs).
Proof.
  intros Hform. rewrite <- elem_of_cases_any.
  rewrite !list_elem_of_bind. split; intros (c & Hx & Hc); exists c;
    (split; [|done]);
    destruct (proj1 (Forall_forall _ _) Hform c Hc) as [t ->]; done.
Qed.

Lemma opr_in_false opr l : opr ∉ l → opr_in opr l = false.
Proof. intros Hn. unfold opr_in. by apply bool_decide_eq_false. Qed.

Lemma spec_successors_other bc i ins :
  i_opr ins ∉ control_oprs →
  spec_successors bc i ins = opt_set (bc !! S i ≫= i_offset).
Proof.
  intros Hnot. unfold spec_successors, classify_opr. simpl.
  repeat case_decide; try done; exfalso; apply Hnot;
    match goal with H : i_opr ins = _ |- _ => rewrite H end;
    unfold control_oprs; set_solver.
Qed.

Lemma opr_not_control opr s : opr ∉ control_oprs → s ∈ control_oprs → opr ≠ s.
Proof. by intros Hnot Hs ->. Qed.

(** Evaluate the tests on a literal operation string. *)
Ltac eval_opr :=
  repeat match goal with
  | |- context [opr_in ?s ?l] =>
      let b := eval vm_compute in (opr_in s l) in
      change (opr_in s l) with b
  | |- context [bool_decide (@eq string ?s ?t)] =>
      let b := eval vm_compute in (bool_decide (s = t)) in
      change (bool_decide (s = t)) with b
  | |- context [classify_opr ?s] =>
      let b := eval vm_compute in (classify_opr s) in
      change (classify_opr s) with b
  end; cbv iota.

(** Split on the operation string: one goal per control string, with an
    equation [Heq] for it, and one for all the others. *)
Ltac control_cases ins Heq Hnot :=
  let Hin := fresh "Hin" in
  destruct (decide (i_opr ins ∈ control_oprs)) as [Hin|Hnot];
  [ unfold control_oprs in Hin;
    repeat (apply elem_of_cons in Hin as [Heq|Hin]; [|]);
    [..|by apply elem_of_nil in Hin]
  | ].

Lemma elem_of_compute_successors bc i ins x :
  switch_form ins →
  x ∈ _compute_successors bc (build_index_to_offset bc) i ins
  ↔ x ∈ spec_successors bc i ins.
Proof.
  intros [Htable Hlookup].
  control_cases ins Heq Hnot.
  1-7: unfold _compute_successors, _get_branch_targets, next_offset,
         spec_successors;
    rewrite !Heq; eval_opr;
    rewrite ?elem_of_dict_fromkeys, ?elem_of_app, ?elem_of_union,
      ?elem_of_option_list, ?elem_of_resolved, ?elem_of_opt_set;
    try tauto;
    try (split; [by intros ?%elem_of_nil|by intros ?%not_elem_of_empty]).
  - by rewrite elem_of_cases_table by auto.
  - by rewrite elem_of_cases_lookup by auto.
  - rewrite spec_successors_other by done.
    unfold _compute_successors, next_offset.
    pose proof (λ s, opr_not_control (i_opr ins) s Hnot) as Hne.
    rewrite !opr_in_false, bool_decide_eq_false_2;
      [by rewrite elem_of_option_list, elem_of_opt_set|..];
      try (apply Hne; unfold control_oprs; set_solver);
      intros Hin; apply Hnot; unfold control_oprs; set_solver.
Qed.

Lemma elem_of_edge_targets bc i ins x :
  x ∈ edge_targets bc (build_index_to_offset bc) i ins
  ↔ x ∈ spec_successors bc i ins.
Proof.
  control_cases ins Heq Hnot.
  1-7: unfold edge_targets, next_offset, spec_successors;
    rewrite !Heq; eval_opr;
    rewrite ?elem_of_app, ?elem_of_union, ?elem_of_cases_any,
      ?elem_of_option_list, ?elem_of_resolved, ?elem_of_opt_set;
    try tauto;
    try (split; [by intros ?%elem_of_nil|by intros ?%not_elem_of_empty]).
  - rewrite spec_successors_other by done.
    unfold edge_targets, next_offset.
    pose proof (λ s, opr_not_control (i_opr ins) s Hnot) as Hne.
    rewrite !opr_in_false, bool_decide_eq_false_2;
      [by rewrite elem_of_option_list, elem_of_opt_set|..];
      try (apply Hne; unfold control_oprs; set_solver);
      intros Hin; apply Hnot; unfold control_oprs; set_solver.
Qed.

Lemma spec_successors_sources bc i ins x :
  x ∈ spec_successors bc i ins →
  bc !! S i ≫= i_offset = Some x ∨ ∃ k, spec_resolve bc k = Some x.
Proof.
  assert (∀ idx, x ∈ opt_set (idx ≫= spec_resolve bc) →
                 ∃ k, spec_resolve bc k = Some x) as Hres.
  { intros [k|] Hx%elem_of_opt_set; simplify_eq/=. eauto. }
  unfold spec_successors.
  destruct (classify_opr (i_opr ins));
    rewrite ?elem_of_union, ?elem_of_opt_set; try (by left);
    try (by intros ?%not_elem_of_empty).
  - intros [?|?%elem_of_opt_set%Hres]; [by left|by right].
  - intros ?%elem_of_opt_set%Hres. by right.
  - intros [?%elem_of_opt_set%Hres|Hx]; [by right|].
    apply elem_of_union_list in Hx as (X & (c & -> & _)%list_elem_of_fmap & Hx).
    right. by eapply Hres.
Qed.

Lemma well_formed_unique bc i j a b :
  well_formed bc → bc !! i = Some a → bc !! j = Some b →
  get_offset a = get_offset b → i = j.
Proof.
  intros [Hvalid Hasc] Ha Hb Heq.
  pose proof (proj1 (Hvalid a (list_elem_of_lookup_2 _ _ _ Ha))) as Hpa.
  pose proof (proj1 (Hvalid b (list_elem_of_lookup_2 _ _ _ Hb))) as Hpb.
  destruct (Nat.lt_trichotomy i j) as [Hlt|[?|Hlt]]; [|done|].
  - pose proof (Hasc i j a b Hlt Ha Hb Hpa Hpb). lia.
  - pose proof (Hasc j i b a Hlt Hb Ha Hpb Hpa). lia.
Qed.


(** ** C9: unresolvable target indices *)

Lemma resolved_keep tbl idx : resolved tbl (keep_index tbl idx) = resolved tbl idx.
Proof.
  unfold resolved, keep_index, _resolve_target.
  destruct idx as [t|]; simpl; [|done].
  destruct (tbl !! t) eqn:Ht; simpl; by rewrite ?Ht.
Qed.

Lemma bind_filter_kept {B} tbl (f : switch_case → list B) cs :
  (∀ c, ¬ case_kept tbl c → f c = []) →
  filter (case_kept tbl) cs ≫= f = cs ≫= f.
Proof.
  intros Hf. induction cs as [|c cs IH]; [done|].
  rewrite filter_cons. case_decide as Hc; rewrite !bind_cons.
  - by rewrite IH.
  - by rewrite IH, (Hf c Hc).
Qed.

Lemma not_kept_unresolved tbl t : ¬ is_Some (tbl !! t) → resolved tbl (Some t) = [].
Proof.
  unfold resolved, _resolve_target. destruct (tbl !! t); [|done].
  intros []. eauto.
Qed.

Lemma next_offset_drop tbl bc i :
  next_offset (drop_unresolved tbl <$> bc) i = next_offset bc i.
Proof.
  unfold next_offset. rewrite list_lookup_fmap. by destruct (bc !! S i).
Qed.

Lemma get_branch_targets_drop tbl ins :
  _get_branch_targets tbl (drop_unresolved tbl ins) = _get_branch_targets tbl ins.
Proof.
  unfold _get_branch_targets. simpl. rewrite !resolved_keep.
  rewrite !bind_filter_kept; [done|..].
  - intros [t|[t|]|] Hc; simpl in *; try done. by apply not_kept_unresolved.
  - intros [t|[t|]|] Hc; simpl in *; try done. by apply not_kept_unresolved.
Qed.

Lemma compute_successors_drop tbl bc i ins :
  _compute_successors (drop_unresolved tbl <$> bc) tbl i (drop_unresolved tbl ins)
  = _compute_successors bc tbl i ins.
Proof.
  unfold _compute_successors.
  rewrite get_branch_targets_drop, next_offset_drop. simpl.
  by rewrite resolved_keep.
Qed.

Lemma edge_targets_drop tbl bc i ins :
  edge_targets (drop_unresolved tbl <$> bc) tbl i (drop_unresolved tbl ins)
  = edge_targets bc tbl i ins.
Proof.
  unfold edge_targets. rewrite next_offset_drop. simpl. rewrite !resolved_keep.
  rewrite bind_filter_kept; [done|].
  intros [t|[t|]|] Hc; simpl in *; try done; by apply not_kept_unresolved.
Qed.

Lemma build_index_to_offset_drop tbl bc :
  build_index_to_offset (drop_unresolved tbl <$> bc) = build_index_to_offset bc.
Proof.
  apply map_eq. intros k. rewrite !build_index_to_offset_lookup.
  unfold spec_resolve. case_decide; [|done].
  rewrite list_lookup_fmap. by destruct (bc !! Z.to_nat k).
Qed.

Lemma is_offset_of_drop tbl bc o :
  is_offset_of (drop_unresolved tbl <$> bc) o ↔ is_offset_of bc o.
Proof.
  unfold is_offset_of. setoid_rewrite list_elem_of_fmap. split.
  - intros (? & ins' & (ins & -> & ?) & ?). eauto.
  - intros (? & ins & ? & ?). split; [done|].
    exists (drop_unresolved tbl ins). eauto.
Qed.

Lemma requested_drop tbl bc a x :
  requested (drop_unresolved tbl <$> bc) tbl
    (enumerate (drop_unresolved tbl <$> bc)) a x
  ↔ requested bc tbl (enumerate bc) a x.
Proof.
  unfold requested. setoid_rewrite elem_of_enumerate.
  setoid_rewrite list_lookup_fmap. split.
  - intros (i & ins' & Hi & Ho & Hpos & Hx).
    destruct (bc !! i) as [ins|] eqn:Hins; simplify_eq/=.
    exists i, ins. by rewrite edge_targets_drop in Hx.
  - intros (i & ins & Hi & Ho & Hpos & Hx).
    exists i, (drop_unresolved tbl ins). rewrite Hi, edge_targets_drop. done.
Qed.

Lemma owner_drop tbl bc o i ins' :
  owner (drop_unresolved tbl <$> bc) o i ins'
  ↔ ∃ ins, owner bc o i ins ∧ ins' = drop_unresolved tbl ins.
Proof.
  unfold owner. setoid_rewrite list_lookup_fmap. split.
  - intros (Hi & Ho & Hpos & Hlast).
    destruct (bc !! i) as [ins|] eqn:Hins; simplify_eq/=.
    exists ins. split_and!; try done.
    intros j insj Hj Hoj. apply (Hlast j (drop_unresolved tbl insj)); [|done].
    by rewrite Hj.
  - intros (ins & (Hi & Ho & Hpos & Hlast) & ->).
    rewrite Hi. split_and!; try done.
    intros j insj Hj Hoj. destruct (bc !! j) as [ins0|] eqn:Hins0; simplify_eq/=.
    by eapply Hlast.
Qed.

Lemma build_nodes_drop_succs tbl bc hs L L' a :
  succs_of (_build_nodes (drop_unresolved tbl <$> bc) hs tbl L') a
  = succs_of (_build_nodes bc hs tbl L) a.
Proof.
  unfold succs_of.
  destruct (_build_nodes bc hs tbl L !! a) as [n|] eqn:Hn.
  - apply build_nodes_lookup in Hn as (i & ins & Hown & ->).
    assert (_build_nodes (drop_unresolved tbl <$> bc) hs tbl L' !! a
            = Some (built_node (drop_unresolved tbl <$> bc) hs tbl L' i
                      (drop_unresolved tbl ins))) as ->.
    { apply build_nodes_lookup. exists i, (drop_unresolved tbl ins).
      split; [|done]. apply owner_drop. eauto. }
    simpl. by rewrite compute_successors_drop.
  - destruct (_build_nodes (drop_unresolved tbl <$> bc) hs tbl L' !! a)
      as [n'|] eqn:Hn'; [|done].
    apply build_nodes_lookup in Hn' as (i & ins' & Hown & ->).
    apply owner_drop in Hown as (ins & Hown & ->).
    assert (is_Some (_build_nodes bc hs tbl L !! a)) as [? ?]; [|congruence].
    eexists. apply build_nodes_lookup. eauto.
Qed.

Lemma build_nodes_dom bc hs tbl L o :
  o ∈ dom (_build_nodes bc hs tbl L) ↔ is_offset_of bc o.
Proof.
  rewrite elem_of_dom. split.
  - intros [n (i & ins & (Hi & Ho & Hpos & _) & _)%build_nodes_lookup].
    split; [done|]. exists ins. split; [by eapply list_elem_of_lookup_2|done].
  - intros [Hpos (ins & Hin & Ho)].
    (* the last instruction that carries the offset *)
    assert (∃ i ins, owner bc o i ins) as (i & ins' & Hown).
    { clear -Hpos Hin Ho. induction bc as [|x l IH] using rev_ind.
      - by apply elem_of_nil in Hin.
      - destruct (decide (get_offset x = o)) as [Hx|Hx].
        + exists (length l), x. by apply owner_snoc_new.
        + apply elem_of_app in Hin as [Hin|Hin%list_elem_of_singleton];
            [|by subst].
          destruct (IH Hin) as (i & ins' & Hown). exists i, ins'.
          by apply owner_snoc_old. }
    eexists. apply build_nodes_lookup. eauto.
Qed.

Lemma build_dom bc hs o : o ∈ dom (build bc hs) ↔ is_offset_of bc o.
Proof.
  destruct (nil_or_length_pos bc) as [->|Hne].
  { rewrite build_nil, dom_empty_L. split; [by intros ?%not_elem_of_empty|].
    intros (_ & ins & Hin & _). by apply elem_of_nil in Hin. }
  assert (bc ≠ []) as Hne' by (by intros ->).
  rewrite <- (node_agree_dom _ _ _
    (build_agree successors bc hs Hne' (λ _ _, eq_refl) (λ _ _, eq_refl))).
  apply build_nodes_dom.
Qed.

Lemma build_succs bc hs a :
  succs_of (build bc hs) a = succs_of (nodes_of bc hs) a.
Proof.
  destruct (nil_or_length_pos bc) as [->|Hne]; [done|].
  assert (bc ≠ []) as Hne' by (by intros ->).
  symmetry. apply succs_of_agree.
  by apply build_agree.
Qed.

Lemma build_preds bc hs a b :
  a ∈ preds_of (build bc hs) b
  ↔ a ∈ dom (build bc hs) ∧ b ∈ dom (build bc hs)
    ∧ b ∈ succs_of (build bc hs) a.
Proof.
  destruct (decide (b ∈ dom (build bc hs))) as [Hb|Hb].
  - destruct (decide (a ∈ dom (build bc hs))) as [Ha|Ha].
    + rewrite <- builder_symmetric by done. naive_solver.
    + split; [|naive_solver]. intros Hp. exfalso. apply Ha.
      destruct (nil_or_length_pos bc) as [->|Hne].
      { by rewrite build_nil, dom_empty_L in Hb. }
      assert (bc ≠ []) as Hne' by (by intros ->).
      revert Hp Hb. rewrite !build_dom, build_cons by done. unfold blocks_of.
      rewrite <- (preds_of_agree _ _ b
        (build_basic_blocks_agree predecessors _ _ _ (λ _ _, eq_refl))).
      intros Hp Hb.
      apply compute_predecessors_preds in Hp as [Hd _].
      * by apply build_nodes_dom in Hd.
      * apply nodes_of_preds_empty.
      * by apply build_nodes_dom.
  - split; [|naive_solver]. unfold preds_of.
    apply not_elem_of_dom in Hb. rewrite Hb. by intros ?%not_elem_of_empty.
Qed.

(** Erasing the target indices that are absent from the index-to-offset
    table changes nothing: the calls to [add_edge] of [build_cfg] and the
    list of [_compute_successors] are those of the instruction without
    these indices, and either builder builds the same nodes and edges for
    the method in which these indices have been removed. *)
Lemma unresolved_targets_erased (name : string) (bc : list instr)
    (hs : list ExceptionHandler) :
  (∀ i ins,
     edge_targets (erase_unresolved bc) (build_index_to_offset bc) i
       (drop_unresolved (build_index_to_offset bc) ins)
     = edge_targets bc (build_index_to_offset bc) i ins
     ∧ _compute_successors (erase_unresolved bc) (build_index_to_offset bc) i
         (drop_unresolved (build_index_to_offset bc) ins)
       = _compute_successors bc (build_index_to_offset bc) i ins)
  ∧ same_edges (cfg_nodes (build_cfg name bc))
      (cfg_nodes (build_cfg name (erase_unresolved bc)))
  ∧ same_edges (build bc hs) (build (erase_unresolved bc) hs).
Proof.
  unfold erase_unresolved.
  set (tbl := build_index_to_offset bc).
  assert (build_index_to_offset (drop_unresolved tbl <$> bc) = tbl) as Htbl
    by apply build_index_to_offset_drop.
  split_and!.
  - intros i ins. split; [apply edge_targets_drop|apply compute_successors_drop].
  - split; [|intros a; split].
    + apply set_eq. intros o. by rewrite !build_cfg_dom, is_offset_of_drop.
    + apply set_eq. intros x. rewrite !build_cfg_succs, Htbl.
      by rewrite !is_offset_of_drop, requested_drop.
    + apply set_eq. intros x. rewrite !build_cfg_preds, Htbl.
      by rewrite !is_offset_of_drop, requested_drop.
  - assert (dom (build bc hs) = dom (build (drop_unresolved tbl <$> bc) hs))
      as Hdom.
    { apply set_eq. intros o. by rewrite !build_dom, is_offset_of_drop. }
    assert (∀ a, succs_of (build bc hs) a
                 = succs_of (build (drop_unresolved tbl <$> bc) hs) a) as Hsucc.
    { intros a. rewrite !build_succs. unfold nodes_of.
      rewrite !index_table_eq, Htbl.
      symmetry. apply build_nodes_drop_succs. }
    split; [done|]. intros a. split; [done|].
    apply set_eq. intros x. by rewrite !build_preds, Hdom, Hsucc.
Qed.

(** ** Basic blocks *)

(** *** Sorted leaders and their ranges *)

Lemma StronglySorted_lookup_le (l : list Z) i j a b :
  StronglySorted Z.le l → (i < j)%nat →
  l !! i = Some a → l !! j = Some b → a ≤ b.
Proof.
  intros Hs. revert i j. induction Hs as [|x l Hs IH Hall]; intros i j Hij Hi Hj.
  - by rewrite lookup_nil in Hi.
  - destruct j as [|j]; [lia|]. destruct i as [|i]; simpl in *.
    + simplify_eq. rewrite Forall_forall in Hall.
      apply Hall. by eapply list_elem_of_lookup_2.
    + apply (IH i j); [lia|done..].
Qed.

Lemma sorted_strictly_ascending (l : list Z) :
  NoDup l → strictly_ascending (merge_sort Z.le l).
Proof.
  intros Hnd i j a b Hij Hi Hj.
  assert (a ≤ b).
  { eapply (StronglySorted_lookup_le _ i j); [|done..].
    apply StronglySorted_merge_sort; apply _. }
  assert (a ≠ b); [|lia].
  intros ->. rewrite <- (merge_sort_Permutation Z.le) in Hnd.
  pose proof (NoDup_lookup _ _ _ _ Hnd Hi Hj). lia.
Qed.

Lemma ranges_ordered sl i i' l l' o o' :
  strictly_ascending sl → (i < i')%nat →
  sl !! i = Some l → sl !! i' = Some l' →
  in_block l (sl !! S i) o → in_block l' (sl !! S i') o' → o < o'.
Proof.
  intros Hasc Hii Hi Hi' [_ Hup] [Hlow _].
  destruct (sl !! S i) as [n|] eqn:Hn; simpl in Hup.
  - destruct (decide (S i = i')) as [<-|Hne].
    + simplify_eq. lia.
    + pose proof (Hasc (S i) i' n l' ltac:(lia) Hn Hi'). lia.
  - apply lookup_ge_None in Hn. apply lookup_lt_Some in Hi'. lia.
Qed.

Lemma ranges_disjoint sl i i' l l' o :
  strictly_ascending sl →
  sl !! i = Some l → sl !! i' = Some l' →
  in_block l (sl !! S i) o → in_block l' (sl !! S i') o → i = i'.
Proof.
  intros Hasc Hi Hi' Hb Hb'.
  destruct (Nat.lt_trichotomy i i') as [Hlt|[?|Hlt]]; [exfalso|done|exfalso].
  - pose proof (ranges_ordered sl i i' l l' o o Hasc Hlt Hi Hi' Hb Hb'). lia.
  - pose proof (ranges_ordered sl i' i l' l o o Hasc Hlt Hi' Hi Hb' Hb). lia.
Qed.

Lemma range_cover sl l0 o :
  head sl = Some l0 → l0 ≤ o →
  ∃ i l, sl !! i = Some l ∧ in_block l (sl !! S i) o.
Proof.
  revert l0. induction sl as [|x sl IH]; intros l0 Hhd Hle; [done|].
  simpl in Hhd. simplify_eq.
  destruct sl as [|y sl'].
  - exists 0%nat, l0. by split.
  - destruct (decide (o < y)) as [Hlt|Hge].
    + exists 0%nat, l0. by split.
    + destruct (IH y eq_refl ltac:(lia)) as (i & l & Hi & Hb).
      exists (S i), l. by split.
Qed.

(** *** The leader loop *)

Lemma assign_block_lookup bid (cfg : gmap Z CFGNode) (l : list Z) o :
  foldl (λ c pc, alter (with_block_id bid) pc c) cfg l !! o
  = if decide (o ∈ l) then with_block_id bid <$> cfg !! o else cfg !! o.
Proof.
  revert cfg. induction l as [|x l IH]; intros cfg; cbn [foldl].
  - destruct (decide (o ∈ [])) as [Hin|]; [by apply elem_of_nil in Hin|done].
  - rewrite IH.
    destruct (decide (o ∈ l)) as [Hl|Hl];
      destruct (decide (o ∈ x :: l)) as [Hxl|Hxl];
      destruct (decide (x = o)) as [->|Hne];
      rewrite ?lookup_alter_eq, ?lookup_alter_ne by done; try done.
    + by destruct (cfg !! o).
    + exfalso. apply Hxl. by right.
    + exfalso. apply Hxl. by right.
    + apply elem_of_cons in Hxl as [?|?]; done.
    + exfalso. apply Hxl. left.
Qed.

Lemma filter_ext_in {A} (P Q : A → Prop) `{!∀ x, Decision (P x)}
    `{!∀ x, Decision (Q x)} (l : list A) :
  (∀ x, x ∈ l → P x ↔ Q x) → filter P l = filter Q l.
Proof.
  induction l as [|a l IH]; intros Hiff; [done|].
  rewrite !filter_cons, IH by (intros x Hx; apply Hiff; by right).
  destruct (decide (P a)) as [Hp|Hp], (decide (Q a)) as [Hq|Hq]; try done.
  - exfalso. apply Hq, Hiff; [left|done].
  - exfalso. apply Hp, Hiff; [left|done].
Qed.

Section leader_loop.
Variables (sl pcs : list Z) (cfg0 : gmap Z CFGNode).
Hypothesis Hasc : strictly_ascending sl.
Hypothesis Hpcs : ∀ o, o ∈ pcs → o ∈ dom cfg0.
Hypothesis Hbid0 : ∀ o n, cfg0 !! o = Some n → basic_block_id n = None.
Hypothesis Hoff : ∀ o n, cfg0 !! o = Some n → offset n = o.

Lemma loop_inv_0 : loop_inv sl pcs cfg0 0 (cfg0, [], 0%nat).
Proof.
  split; simpl; try done.
  - intros o n j Hn. rewrite (Hbid0 o n Hn). split; [done|].
    by intros (b & ? & _).
  - intros; lia.
Qed.

Lemma elem_of_range_nodes i l o :
  o ∈ range_nodes sl pcs i l ↔ in_block l (sl !! S i) o ∧ o ∈ pcs.
Proof. unfold range_nodes. by rewrite list_elem_of_filter. Qed.

Lemma block_step_eq cfg blocks bid k l :
  dom cfg = dom cfg0 →
  block_step sl pcs (cfg, blocks, bid) (k, l)
  = let cfg' := foldl (λ c pc, alter (with_block_id bid) pc c) cfg
                  (range_nodes sl pcs k l) in
    match range_nodes sl pcs k l with
    | [] => (cfg', blocks, bid)
    | first :: _ =>
        (cfg',
         blocks ++ [ {| block_id := bid;
                        block_start_pc := node_offset cfg' first;
                        block_end_pc :=
                          from_option (node_offset cfg') 0
                            (last (range_nodes sl pcs k l));
                        nodes := range_nodes sl pcs k l;
                        successor_blocks := [];
                        predecessor_blocks := [] |} ],
         S bid)
    end.
Proof.
  intros Hdom. unfold block_step.
  assert (filter (λ pc, in_block l (sl !! S k) pc ∧ is_Some (cfg !! pc)) pcs
          = range_nodes sl pcs k l) as ->; [|done].
  apply filter_ext_in. intros o Ho. split; [by intros [? _]|].
  intros Hb. split; [done|]. apply elem_of_dom. rewrite Hdom. by apply Hpcs.
Qed.

Lemma loop_inv_step k l st :
  loop_inv sl pcs cfg0 k st → sl !! k = Some l →
  loop_inv sl pcs cfg0 (S k) (block_step sl pcs st (k, l)).
Proof.
  destruct st as [[cfg blocks] bid].
  intros [Hdom Hoffs Hbid Hblocks Hids Hcover Hmono] Hk.
  simpl in Hdom, Hoffs, Hbid, Hblocks, Hids, Hcover, Hmono.
  rewrite block_step_eq by done. cbv zeta.
  remember (range_nodes sl pcs k l) as B eqn:HB.
  remember (foldl (λ c pc, alter (with_block_id bid) pc c) cfg B) as cfg'
    eqn:Hdef.
  assert (∀ o, cfg' !! o
            = if decide (o ∈ B) then with_block_id bid <$> cfg !! o
              else cfg !! o) as Hcfg'
    by (intros o; subst cfg'; apply assign_block_lookup).
  clear Hdef.
  assert (dom cfg' = dom cfg0) as Hdom'.
  { rewrite <- Hdom. apply set_eq. intros o. rewrite !elem_of_dom, Hcfg'.
    case_decide; [by rewrite fmap_is_Some|done]. }
  assert (∀ o n, cfg' !! o = Some n → offset n = o) as Hoffs'.
  { intros o n. rewrite Hcfg'. case_decide; [|by apply Hoffs].
    destruct (cfg !! o) as [n0|] eqn:Hn0; intros; simplify_eq/=.
    by apply (Hoffs o n0). }
  (* an old block shares no node with the new range *)
  assert (∀ j b o, blocks !! j = Some b → o ∈ nodes b → o ∉ B) as Hold.
  { intros j b o Hb Ho HB0.
    destruct (Hblocks j b Hb) as (_ & _ & _ & _ & _ & i & li & Hi & Hli & Hnodes).
    rewrite Hnodes in Ho.
    apply elem_of_range_nodes in Ho as [Ho _].
    rewrite HB in HB0. apply elem_of_range_nodes in HB0 as [HB0 _].
    pose proof (ranges_disjoint sl i k li l o Hasc Hli Hk Ho HB0). lia. }
  assert (∀ o, o ∈ B → o ∈ dom cfg) as HBdom.
  { intros o Ho. rewrite HB in Ho.
    apply elem_of_range_nodes in Ho as [_ Ho]. rewrite Hdom. by apply Hpcs. }
  destruct B as [|first rest].
  - (* no node in the range: no block *)
    split; simpl; try done.
    + intros j b Hb.
      destruct (Hblocks j b Hb) as (? & ? & ? & ? & ? & i & li & ? & ? & ?).
      split_and!; try done. exists i, li. split_and!; [lia|done..].
    + intros o n j. rewrite Hcfg'. rewrite decide_False by (by intros ?%elem_of_nil).
      apply Hids.
    + intros i li o Hi Hli Ho.
      destruct (decide (i = k)) as [->|Hne].
      * simplify_eq. rewrite <- HB in Ho. by apply elem_of_nil in Ho.
      * apply (Hcover i li o); [lia|done..].
  - (* a new block, numbered [bid] *)
    assert (node_offset cfg' first = first) as Hfirst.
    { unfold node_offset. destruct (cfg' !! first) as [n|] eqn:Hn.
      - simpl. by apply Hoffs'.
      - apply not_elem_of_dom in Hn. exfalso. apply Hn. rewrite Hdom', <- Hdom.
        apply HBdom. left. }
    assert (∃ lst, last (first :: rest) = Some lst
                   ∧ node_offset cfg' lst = lst) as (lst & Hlast & Hlst).
    { destruct (last (first :: rest)) as [lst|] eqn:Hl;
        [|by apply last_None in Hl].
      exists lst. split; [done|].
      unfold node_offset. destruct (cfg' !! lst) as [n|] eqn:Hn.
      - simpl. by apply Hoffs'.
      - apply not_elem_of_dom in Hn. exfalso. apply Hn. rewrite Hdom', <- Hdom.
        apply HBdom. by apply last_Some_elem_of. }
    split; simpl; try done.
    + rewrite length_app. simpl. lia.
    + intros j b Hb. apply lookup_app_Some in Hb as [Hb|[Hj Hb]].
      * destruct (Hblocks j b Hb) as (? & ? & ? & ? & ? & i & li & ? & ? & ?).
        split_and!; try done. exists i, li. split_and!; [lia|done..].
      * apply list_lookup_singleton_Some in Hb as [Hj' <-]. simpl.
        split_and!; [lia|done|done|by rewrite Hfirst|by rewrite Hlast; simpl; rewrite Hlst|].
        exists k, l. split_and!; [lia|done|done].
    + intros o n j. rewrite Hcfg'. case_decide as Ho.
      * destruct (cfg !! o) as [n0|] eqn:Hn0; [|done]. intros [= <-]. simpl.
        split.
        -- intros [= <-]. eexists. split.
           { rewrite lookup_app_r by lia. by rewrite Hbid, Nat.sub_diag. }
           exact Ho.
        -- intros (b & Hb & Hob). apply lookup_app_Some in Hb as [Hb|[Hj Hb]].
           ++ exfalso. by eapply Hold.
           ++ apply list_lookup_singleton_Some in Hb as [Hj' _]. f_equal. lia.
      * intros Hn. rewrite (Hids o n j Hn). split.
        -- intros (b & Hb & Hob). exists b. split; [|done].
           by apply lookup_app_l_Some.
        -- intros (b & Hb & Hob). apply lookup_app_Some in Hb as [Hb|[Hj Hb]].
           ++ eauto.
           ++ apply list_lookup_singleton_Some in Hb as [_ <-]. done.
    + intros i li o Hi Hli Ho.
      destruct (decide (i = k)) as [->|Hne].
      * simplify_eq. exists (length blocks). eexists. split.
        -- rewrite lookup_app_r by lia. by rewrite Nat.sub_diag.
        -- simpl. by rewrite HB.
      * destruct (Hcover i li o) as (j & b & Hb & Hob); [lia|done..|].
        exists j, b. split; [by apply lookup_app_l_Some|done].
    + intros j j' b b' o o' Hjj Hb Hb' Ho Ho'.
      apply lookup_app_Some in Hb' as [Hb'|[Hj' Hb']].
      * apply lookup_lt_Some in Hb' as Hlt.
        rewrite lookup_app_l in Hb by lia. by apply (Hmono j j' b b' o o').
      * apply list_lookup_singleton_Some in Hb' as [Hj'' <-]. simpl in Ho'.
        rewrite lookup_app_l in Hb by lia.
        destruct (Hblocks j b Hb)
          as (_ & _ & _ & _ & _ & i & li & Hi & Hli & Hnodes).
        rewrite Hnodes in Ho. apply elem_of_range_nodes in Ho as [Ho _].
        rewrite HB in Ho'. apply elem_of_range_nodes in Ho' as [Ho' _].
        by eapply (ranges_ordered sl i k li l).
Qed.

Lemma loop_state_S k l :
  sl !! k = Some l →
  loop_state sl pcs cfg0 (S k) = block_step sl pcs (loop_state sl pcs cfg0 k) (k, l).
Proof.
  intros Hk. unfold loop_state.
  rewrite (take_S_r _ _ (k, l)) by (by rewrite lookup_enumerate, Hk).
  by rewrite foldl_app.
Qed.

Lemma loop_inv_state k : (k ≤ length sl)%nat → loop_inv sl pcs cfg0 k (loop_state sl pcs cfg0 k).
Proof.
  induction k as [|k IH]; intros Hk; [apply loop_inv_0|].
  destruct (lookup_lt_is_Some_2 sl k ltac:(lia)) as [l Hl].
  rewrite (loop_state_S k l Hl). apply loop_inv_step; [|done].
  apply IH. lia.
Qed.

Lemma loop_state_final :
  loop_state sl pcs cfg0 (length sl)
  = foldl (block_step sl pcs) (cfg0, [], 0%nat) (enumerate sl).
Proof.
  unfold loop_state. by rewrite take_ge by (by rewrite length_enumerate).
Qed.
End leader_loop.

(** *** The two linking passes *)

#[global] Instance block_agree_refl {A} (f : BasicBlock → A) :
  Reflexive (block_agree f).
Proof. by intros bs j. Qed.

#[global] Instance block_agree_trans {A} (f : BasicBlock → A) :
  Transitive (block_agree f).
Proof. intros b1 b2 b3 H1 H2 j. by rewrite H1. Qed.

Lemma block_agree_fmap {A} (f : BasicBlock → A) (g : BasicBlock → BasicBlock) bs :
  (∀ b, f (g b) = f b) → block_agree f bs (g <$> bs).
Proof.
  intros Hg j. rewrite list_lookup_fmap. destruct (bs !! j); simpl; by rewrite ?Hg.
Qed.

Lemma block_agree_lookup {A} (f : BasicBlock → A) bs bs' j b' :
  block_agree f bs bs' → bs' !! j = Some b' →
  ∃ b, bs !! j = Some b ∧ f b = f b'.
Proof.
  intros Hag Hb'. specialize (Hag j). rewrite Hb' in Hag.
  destruct (bs !! j) as [b|]; simplify_eq/=. eauto.
Qed.

Lemma link_successors_agree {A} (f : BasicBlock → A) cfg bs :
  (∀ b l, f (with_successor_blocks b l) = f b) →
  block_agree f bs (link_successors cfg <$> bs).
Proof.
  intros Hf. apply block_agree_fmap. intros b. unfold link_successors.
  by destruct (last (nodes b)).
Qed.

Lemma link_predecessors_agree {A} (f : BasicBlock → A) bs :
  (∀ b l, f (with_predecessor_blocks b l) = f b) →
  block_agree f bs (link_predecessors bs).
Proof.
  intros Hf. unfold link_predecessors.
  apply (foldl_ind (block_agree f bs)); [done|].
  intros bs1 b _ Hbs1.
  apply (foldl_ind (block_agree f bs)); [done|].
  intros bs2 succ_id _ Hbs2. etrans; [exact Hbs2|].
  apply block_agree_fmap. intros other. unfold add_block_predecessor.
  repeat case_decide; by rewrite ?Hf.
Qed.

Lemma succ_block_loop_spec cfg acc l k :
  k ∈ foldl (succ_block_step cfg) acc l
  ↔ k ∈ acc ∨ ∃ s ns, s ∈ l ∧ cfg !! s = Some ns ∧ basic_block_id ns = Some k.
Proof.
  revert acc. induction l as [|s l IH]; intros acc; cbn [foldl].
  - split; [by left|]. intros [?|(s & ns & Hs & _)]; [done|].
    by apply elem_of_nil in Hs.
  - rewrite IH. setoid_rewrite elem_of_cons. unfold succ_block_step.
    destruct (cfg !! s) as [n|] eqn:Hn; [destruct (basic_block_id n) as [b|] eqn:Hb|].
    + case_decide as Hin; rewrite ?elem_of_app, ?list_elem_of_singleton; split.
      * intros [?|(s' & ns & ? & ? & ?)]; [by left|right; eauto 6].
      * intros [?|(s' & ns & [->|?] & ? & ?)]; [by left|simplify_eq; by left|].
        right; eauto.
      * intros [[?| ->]|(s' & ns & ? & ? & ?)]; [by left|right..]; eauto 7.
      * intros [?|(s' & ns & [->|?] & ? & ?)];
          [by left; left|simplify_eq; by left; right|].
        right; eauto.
    + split.
      * intros [?|(s' & ns & ? & ? & ?)]; [by left|right; eauto 6].
      * intros [?|(s' & ns & [->|?] & ? & ?)]; [by left|simplify_eq|].
        right; eauto.
    + split.
      * intros [?|(s' & ns & ? & ? & ?)]; [by left|right; eauto 6].
      * intros [?|(s' & ns & [->|?] & ? & ?)]; [by left|simplify_eq|].
        right; eauto.
Qed.

Lemma succ_block_loop_NoDup cfg acc l :
  NoDup acc → NoDup (foldl (succ_block_step cfg) acc l).
Proof.
  revert acc. induction l as [|s l IH]; intros acc Hnd; cbn [foldl]; [done|].
  apply IH. unfold succ_block_step. repeat case_match; try done.
  apply NoDup_app. split_and!; [done| |apply NoDup_singleton].
  intros x Hx ->%list_elem_of_singleton. done.
Qed.

(** *** Leaders *)

Lemma leaders_step_mono bc tbl L x : L ⊆ leaders_step bc tbl L x.
Proof.
  destruct x as [i ins]. unfold leaders_step.
  repeat case_match; set_solver.
Qed.

Lemma leaders_loop_mono bc tbl L items :
  L ⊆ foldl (leaders_step bc tbl) L items.
Proof.
  apply (foldl_ind (λ L', L ⊆ L')); [done|].
  intros L' x _ HL'. etrans; [exact HL'|apply leaders_step_mono].
Qed.

Lemma handler_leaders_mono bc tbl ops (L : gset Z)
    (hs : list ExceptionHandler) :
  L ⊆ foldl (λ (leaders : gset Z) h,
               if handler_is_instruction bc tbl ops h
               then leaders ∪ {[handler_pc h]} else leaders) L hs.
Proof.
  apply (foldl_ind (λ L', L ⊆ L')); [done|].
  intros L' x _ HL'. case_match; set_solver.
Qed.

Lemma find_leaders_first bc hs tbl pcs ops first :
  head pcs = Some first → first ∈ _find_leaders bc hs tbl pcs ops.
Proof.
  intros Hhd. unfold _find_leaders. destruct pcs as [|x pcs']; simplify_eq/=.
  apply handler_leaders_mono, leaders_loop_mono. set_solver.
Qed.

(** *** The blocks after [build] *)

Lemma nodes_of_fresh bc hs o n :
  _compute_predecessors (nodes_of bc hs) !! o = Some n →
  basic_block_id n = None ∧ offset n = o.
Proof.
  intros Hn.
  destruct (node_agree_lookup _ _ _ _ _
              (compute_predecessors_agree (λ n, (basic_block_id n, offset n))
                 (nodes_of bc hs) (λ _ _, eq_refl)) Hn)
    as (n0 & Hn0 & Heq).
  apply build_nodes_lookup in Hn0 as (i & ins & (_ & Ho & _) & ->).
  simpl in Heq. by simplify_eq.
Qed.

Lemma elem_of_pc_list bc o : o ∈ pc_list bc ↔ is_offset_of bc o.
Proof.
  rewrite pc_list_eq, (merge_sort_Permutation Z.le). apply elem_of_valid_offsets.
Qed.

Lemma pc_list_dom bc hs o :
  o ∈ pc_list bc ↔ o ∈ dom (_compute_predecessors (nodes_of bc hs)).
Proof.
  rewrite elem_of_pc_list.
  rewrite <- (node_agree_dom _ _ _
    (compute_predecessors_agree offset (nodes_of bc hs) (λ _ _, eq_refl))).
  symmetry. apply build_nodes_dom.
Qed.

(** The state of the leader loop at its end: the node dictionary that
    [build] returns and the blocks before they are linked. *)
Lemma blocks_of_inv bc hs :
  bc ≠ [] →
  ∃ raw,
    loop_inv (sorted_leaders bc hs) (pc_list bc)
      (_compute_predecessors (nodes_of bc hs))
      (length (sorted_leaders bc hs)) (build bc hs, raw, length raw)
    ∧ get_basic_blocks bc hs
      = link_predecessors (link_successors (build bc hs) <$> raw).
Proof.
  intros Hne. rewrite build_cons, get_basic_blocks_cons by done.
  unfold blocks_of, _build_basic_blocks. fold (sorted_leaders bc hs).
  pose proof (loop_inv_state (sorted_leaders bc hs) (pc_list bc)
    (_compute_predecessors (nodes_of bc hs))
    (sorted_strictly_ascending _ (NoDup_elements _))
    (λ o, proj1 (pc_list_dom bc hs o))
    (λ o n Hn, proj1 (nodes_of_fresh bc hs o n Hn))
    (λ o n Hn, proj2 (nodes_of_fresh bc hs o n Hn))
    (length (sorted_leaders bc hs)) ltac:(lia)) as Hinv.
  rewrite loop_state_final in Hinv.
  destruct (foldl _ _ _) as [[cfg raw] bid].
  pose proof (inv_bid _ _ _ _ _ Hinv) as Hbid. simpl in Hbid. subst bid.
  exists raw. done.
Qed.

Lemma first_offset_least bc first o :
  first_offset bc = Some first → o ∈ pc_list bc → first ≤ o.
Proof.
  unfold first_offset. rewrite pc_list_eq.
  pose proof (StronglySorted_merge_sort Z.le (valid_offsets bc)) as Hs.
  destruct (merge_sort Z.le (valid_offsets bc)) as [|x l]; [done|].
  intros [= ->] [->|Ho]%elem_of_cons; [lia|].
  apply StronglySorted_cons in Hs as [Hall _].
  rewrite Forall_forall in Hall. by apply Hall.
Qed.

Lemma sorted_leaders_head bc hs first :
  first_offset bc = Some first →
  ∃ l0, head (sorted_leaders bc hs) = Some l0 ∧ l0 ≤ first.
Proof.
  intros Hfirst. unfold sorted_leaders.
  assert (first ∈ merge_sort Z.le (elements (leaders_of bc hs))) as Hin.
  { rewrite (merge_sort_Permutation Z.le), elem_of_elements.
    by apply find_leaders_first. }
  pose proof (StronglySorted_merge_sort Z.le (elements (leaders_of bc hs))) as Hs.
  destruct (merge_sort Z.le (elements (leaders_of bc hs))) as [|x l].
  - by apply elem_of_nil in Hin.
  - exists x. split; [done|].
    apply elem_of_cons in Hin as [->|Hin]; [lia|].
    apply StronglySorted_cons in Hs as [Hall _].
    rewrite Forall_forall in Hall. by apply Hall.
Qed.

(** The blocks that [get_basic_blocks] returns, read off the loop
    invariant. *)
Lemma final_block bc hs j b :
  bc ≠ [] → get_basic_blocks bc hs !! j = Some b →
  block_id b = j
  ∧ head (nodes b) = Some (block_start_pc b)
  ∧ last (nodes b) = Some (block_end_pc b)
  ∧ ∃ i l, sorted_leaders bc hs !! i = Some l
           ∧ nodes b = range_nodes (sorted_leaders bc hs) (pc_list bc) i l.
Proof.
  intros Hne Hb. destruct (blocks_of_inv bc hs Hne) as (raw & Hinv & Heq).
  rewrite Heq in Hb.
  set (f := λ b, (block_id b, nodes b, block_start_pc b, block_end_pc b)).
  destruct (block_agree_lookup f _ _ _ _
    (link_predecessors_agree f _ (λ _ _, eq_refl)) Hb) as (b1 & Hb1 & Heq1).
  destruct (block_agree_lookup f _ _ _ _
    (link_successors_agree f (build bc hs) raw (λ _ _, eq_refl)) Hb1)
    as (b0 & Hb0 & Heq0).
  unfold f in Heq0, Heq1. rewrite <- Heq0 in Heq1.
  injection Heq1 as <- <- <- <-.
  destruct (inv_blocks _ _ _ _ _ Hinv j b0 Hb0)
    as (Hid & _ & _ & Hhd & Hlst & i & l & _ & Hl & Hnodes).
  split_and!; try done. eauto.
Qed.

Lemma final_block_of_raw bc hs raw j b0 :
  get_basic_blocks bc hs
    = link_predecessors (link_successors (build bc hs) <$> raw) →
  raw !! j = Some b0 →
  ∃ b, get_basic_blocks bc hs !! j = Some b ∧ nodes b = nodes b0.
Proof.
  intros Heq Hb0.
  pose proof (link_successors_agree nodes (build bc hs) raw (λ _ _, eq_refl) j)
    as H1.
  pose proof (link_predecessors_agree nodes
    (link_successors (build bc hs) <$> raw) (λ _ _, eq_refl) j) as H2.
  rewrite <- Heq in H2. rewrite Hb0 in H1. rewrite <- H1 in H2.
  destruct (get_basic_blocks bc hs !! j) as [b|]; simplify_eq/=. eauto.
Qed.

Lemma raw_block_of_final bc hs raw j b :
  get_basic_blocks bc hs
    = link_predecessors (link_successors (build bc hs) <$> raw) →
  get_basic_blocks bc hs !! j = Some b →
  ∃ b0, raw !! j = Some b0 ∧ nodes b = nodes b0.
Proof.
  intros Heq Hb.
  pose proof (link_successors_agree nodes (build bc hs) raw (λ _ _, eq_refl) j)
    as H1.
  pose proof (link_predecessors_agree nodes
    (link_successors (build bc hs) <$> raw) (λ _ _, eq_refl) j) as H2.
  rewrite <- Heq, Hb in H2. rewrite <- H1 in H2.
  destruct (raw !! j) as [b0|]; simplify_eq/=. eauto.
Qed.

(** The block id of a node is the position of the block that lists it. *)
Lemma node_block_id bc hs o n j :
  build bc hs !! o = Some n →
  basic_block_id n = Some j
  ↔ ∃ b, get_basic_blocks bc hs !! j = Some b ∧ o ∈ nodes b.
Proof.
  intros Hn. destruct (nil_or_length_pos bc) as [->|Hne].
  { by rewrite build_nil, lookup_empty in Hn. }
  assert (bc ≠ []) as Hne' by (by intros ->).
  destruct (blocks_of_inv bc hs Hne') as (raw & Hinv & Heq).
  rewrite (inv_ids _ _ _ _ _ Hinv o n j Hn). simpl. split.
  - intros (b0 & Hb0 & Ho).
    destruct (final_block_of_raw bc hs raw j b0 Heq Hb0) as (b & Hb & Hnodes).
    exists b. by rewrite Hnodes.
  - intros (b & Hb & Ho).
    destruct (raw_block_of_final bc hs raw j b Heq Hb) as (b0 & Hb0 & Hnodes).
    exists b0. by rewrite <- Hnodes.
Qed.

Lemma final_blocks_ordered bc hs j j' b b' o o' :
  (j < j')%nat →
  get_basic_blocks bc hs !! j = Some b → get_basic_blocks bc hs !! j' = Some b' →
  o ∈ nodes b → o' ∈ nodes b' → o < o'.
Proof.
  intros Hjj Hb Hb' Ho Ho'. destruct (nil_or_length_pos bc) as [->|Hne].
  { by rewrite get_basic_blocks_nil, lookup_nil in Hb. }
  assert (bc ≠ []) as Hne' by (by intros ->).
  destruct (blocks_of_inv bc hs Hne') as (raw & Hinv & Heq).
  destruct (raw_block_of_final bc hs raw j b Heq Hb) as (b0 & Hb0 & Hn).
  destruct (raw_block_of_final bc hs raw j' b' Heq Hb') as (b0' & Hb0' & Hn').
  rewrite Hn in Ho. rewrite Hn' in Ho'.
  by apply (inv_mono _ _ _ _ _ Hinv j j' b0 b0' o o').
Qed.

Lemma node_in_block bc hs o :
  o ∈ dom (build bc hs) →
  ∃ j b, get_basic_blocks bc hs !! j = Some b ∧ o ∈ nodes b.
Proof.
  intros Ho. destruct (nil_or_length_pos bc) as [->|Hne].
  { by rewrite build_nil, dom_empty_L in Ho. }
  assert (bc ≠ []) as Hne' by (by intros ->).
  destruct (blocks_of_inv bc hs Hne') as (raw & Hinv & Heq).
  apply build_dom, elem_of_pc_list in Ho.
  destruct (first_offset bc) as [first|] eqn:Hfirst.
  2:{ unfold first_offset in Hfirst. apply head_None in Hfirst.
      rewrite Hfirst in Ho. by apply elem_of_nil in Ho. }
  destruct (sorted_leaders_head bc hs first Hfirst) as (l0 & Hl0 & Hle).
  pose proof (first_offset_least bc first o Hfirst Ho) as Hfo.
  destruct (range_cover (sorted_leaders bc hs) l0 o Hl0 ltac:(lia))
    as (i & l & Hi & Hb).
  destruct (inv_cover _ _ _ _ _ Hinv i l o) as (j & b0 & Hb0 & Hob0).
  { by eapply lookup_lt_Some. }
  { done. }
  { by apply elem_of_range_nodes. }
  destruct (final_block_of_raw bc hs raw j b0 Heq Hb0) as (b & Hbj & Hn).
  exists j, b. by rewrite Hn.
Qed.

Lemma block_nodes_are_nodes bc hs j b o :
  get_basic_blocks bc hs !! j = Some b → o ∈ nodes b → o ∈ dom (build bc hs).
Proof.
  intros Hb Ho. destruct (nil_or_length_pos bc) as [->|Hne].
  { by rewrite get_basic_blocks_nil, lookup_nil in Hb. }
  assert (bc ≠ []) as Hne' by (by intros ->).
  destruct (final_block bc hs j b Hne' Hb) as (_ & _ & _ & i & l & _ & Hn).
  rewrite Hn in Ho. apply elem_of_range_nodes in Ho as [_ Ho].
  by apply build_dom, elem_of_pc_list.
Qed.

(** *** Well-formed methods *)

Lemma strictly_ascending_sorted (l : list Z) :
  strictly_ascending l → StronglySorted Z.le l.
Proof.
  induction l as [|x l IH]; intros Hasc; [constructor|].
  constructor.
  - apply IH. intros i j a b Hij Hi Hj. by apply (Hasc (S i) (S j)); [lia|..].
  - apply Forall_forall. intros y [j Hj]%list_elem_of_lookup_1.
    pose proof (Hasc 0%nat (S j) x y ltac:(lia) eq_refl Hj). lia.
Qed.

Lemma well_formed_valid_offsets bc :
  well_formed bc → valid_offsets bc = get_offset <$> bc.
Proof.
  intros [Hvalid _]. unfold valid_offsets.
  induction bc as [|x bc IH]; [done|].
  rewrite fmap_cons, filter_cons_True.
  - f_equal. apply IH. intros ins Hin. apply Hvalid. by right.
  - apply Hvalid. left.
Qed.

Lemma well_formed_ascending bc :
  well_formed bc → strictly_ascending (get_offset <$> bc).
Proof.
  intros [Hvalid Hasc] i j a b Hij Hi Hj.
  rewrite list_lookup_fmap in Hi, Hj.
  destruct (bc !! i) as [x|] eqn:Hx, (bc !! j) as [y|] eqn:Hy; simplify_eq/=.
  apply (Hasc i j x y Hij Hx Hy).
  - by apply Hvalid, list_elem_of_lookup_2 with i.
  - by apply Hvalid, list_elem_of_lookup_2 with j.
Qed.

Lemma well_formed_pc_list bc :
  well_formed bc → pc_list bc = get_offset <$> bc.
Proof.
  intros Hwf. rewrite pc_list_eq, well_formed_valid_offsets by done.
  apply (StronglySorted_unique Z.le).
  - apply StronglySorted_merge_sort; apply _.
  - by apply strictly_ascending_sorted, well_formed_ascending.
  - apply merge_sort_Permutation.
Qed.

Lemma first_offset_well_formed bc :
  well_formed bc → first_offset bc = get_offset <$> head bc.
Proof.
  intros Hwf. unfold first_offset. rewrite well_formed_pc_list by done.
  by destruct bc.
Qed.

(** *** C3 *)

(** C3. After [build], the basic blocks partition the nodes: an offset is
    a node key exactly when some block lists it, two blocks at different
    positions share no node, and when the method has a node, the block at
    position 0 has id 0 and starts at the first offset of the method (the
    least valid offset, which in a well-formed method is the offset of the
    first instruction). *)
Theorem blocks_partition (bc : list instr) (hs : list ExceptionHandler) :
  (∀ o, o ∈ dom (build bc hs)
        ↔ ∃ b, b ∈ get_basic_blocks bc hs ∧ o ∈ nodes b)
  ∧ (∀ i j bi bj o,
       get_basic_blocks bc hs !! i = Some bi →
       get_basic_blocks bc hs !! j = Some bj →
       o ∈ nodes bi → o ∈ nodes bj → i = j)
  ∧ (∀ first, first_offset bc = Some first →
       ∃ b0, get_basic_blocks bc hs !! 0%nat = Some b0
             ∧ block_id b0 = 0%nat ∧ block_start_pc b0 = first)
  ∧ (well_formed bc → first_offset bc = get_offset <$> head bc).
Proof.
  split_and!; [| | |apply first_offset_well_formed].
  - intros o. split.
    + intros (j & b & Hb & Ho)%node_in_block. exists b.
      split; [by eapply list_elem_of_lookup_2|done].
    + intros (b & [j Hb]%list_elem_of_lookup_1 & Ho).
      by eapply block_nodes_are_nodes.
  - intros i j bi bj o Hi Hj Hoi Hoj.
    pose proof (block_nodes_are_nodes bc hs i bi o Hi Hoi) as [n Hn]%elem_of_dom.
    assert (basic_block_id n = Some i) as Hidi
      by (apply (node_block_id bc hs o n i Hn); eauto).
    assert (basic_block_id n = Some j) as Hidj
      by (apply (node_block_id bc hs o n j Hn); eauto).
    congruence.
  - intros first Hfirst.
    assert (first ∈ pc_list bc) as Hin.
    { unfold first_offset in Hfirst. by apply head_Some_elem_of. }
    assert (bc ≠ []) as Hne.
    { intros ->. by apply elem_of_pc_list in Hin as (_ & ins & ?%elem_of_nil & _). }
    destruct (node_in_block bc hs first) as (j & b & Hb & Hob).
    { by apply build_dom, elem_of_pc_list. }
    destruct (lookup_lt_is_Some_2 (get_basic_blocks bc hs) 0) as [b0 Hb0].
    { apply lookup_lt_Some in Hb. lia. }
    exists b0. split; [done|].
    destruct (final_block bc hs 0 b0 Hne Hb0) as (Hid & Hhd & _ & i & l & Hl & Hn).
    split; [done|].
    assert (j = 0%nat) as ->.
    { destruct (decide (j = 0%nat)) as [|Hj]; [done|exfalso].
      assert (block_start_pc b0 ∈ nodes b0) as Hs by (by apply head_Some_elem_of).
      pose proof (final_blocks_ordered bc hs 0 j b0 b (block_start_pc b0) first
                    ltac:(lia) Hb0 Hb Hs Hob) as Hlt.
      pose proof (block_nodes_are_nodes bc hs 0 b0 _ Hb0 Hs) as Hd.
      apply build_dom, elem_of_pc_list in Hd.
      pose proof (first_offset_least bc first _ Hfirst Hd). lia. }
    simplify_eq. rewrite Hn in Hob, Hhd.
    unfold first_offset in Hfirst.
    destruct (pc_list bc) as [|x pcs] eqn:Hpcs; simplify_eq/=.
    apply elem_of_range_nodes in Hob as [Hblk _].
    unfold range_nodes in Hhd. rewrite filter_cons_True in Hhd by done.
    simpl in Hhd. by simplify_eq.
Qed.

(** ** Block-level edges *)

Lemma strictly_ascending_filter (P : Z → Prop) `{!∀ x, Decision (P x)}
    (l : list Z) :
  strictly_ascending l → strictly_ascending (filter P l).
Proof.
  induction l as [|x l IH]; intros Hasc; [done|].
  assert (strictly_ascending l) as Hl.
  { intros i j a b Hij Hi Hj. by apply (Hasc (S i) (S j)); [lia|..]. }
  rewrite filter_cons. case_decide; [|by apply IH].
  intros i j a b Hij Hi Hj. destruct j as [|j]; [lia|].
  destruct i as [|i]; simpl in *.
  - simplify_eq.
    apply list_elem_of_lookup_2, list_elem_of_filter in Hj as [_ Hb].
    apply list_elem_of_lookup_1 in Hb as [k Hk].
    by apply (Hasc 0%nat (S k)); [lia|..].
  - apply (IH Hl i j); [lia|done..].
Qed.

Lemma strictly_ascending_index (l : list Z) i j a b :
  strictly_ascending l → l !! i = Some a → l !! j = Some b → a < b → (i < j)%nat.
Proof.
  intros Hasc Hi Hj Hab.
  destruct (Nat.lt_trichotomy i j) as [?|[->|Hlt]]; [done|simplify_eq; lia|].
  pose proof (Hasc j i b a Hlt Hj Hi). lia.
Qed.

(** In an ascending list, an element of a range that is not the last of
    the range is followed, in the list, by an element of the range. *)
Lemma interior_next (pcs : list Z) l nxt i o :
  strictly_ascending pcs →
  pcs !! i = Some o →
  o ∈ filter (in_block l nxt) pcs →
  last (filter (in_block l nxt) pcs) ≠ Some o →
  ∃ o', pcs !! S i = Some o' ∧ o < o' ∧ o' ∈ filter (in_block l nxt) pcs.
Proof.
  intros Hasc Hi Ho Hlast.
  destruct (last (filter (in_block l nxt) pcs)) as [lst|] eqn:Hl.
  2:{ apply last_None in Hl. rewrite Hl in Ho. by apply elem_of_nil in Ho. }
  assert (o < lst) as Hlt.
  { apply last_Some in Hl as [l' Hl'].
    pose proof (strictly_ascending_filter (in_block l nxt) pcs Hasc) as Hf.
    rewrite Hl' in Ho, Hf.
    apply elem_of_app in Ho as [Ho|Ho%list_elem_of_singleton]; [|congruence].
    apply list_elem_of_lookup_1 in Ho as [a Ha].
    apply (Hf a (length l') o lst).
    - by eapply lookup_lt_Some.
    - by apply lookup_app_l_Some.
    - by rewrite lookup_app_r, Nat.sub_diag by lia. }
  assert (lst ∈ filter (in_block l nxt) pcs) as Hlst
    by (by apply last_Some_elem_of).
  apply list_elem_of_filter in Hlst as [[_ Hup] [k Hk]%list_elem_of_lookup_1].
  apply list_elem_of_filter in Ho as [[Hlow _] _].
  pose proof (strictly_ascending_index pcs i k o lst Hasc Hi Hk Hlt) as Hik.
  destruct (lookup_lt_is_Some_2 pcs (S i)) as [o' Ho'].
  { apply lookup_lt_Some in Hk. lia. }
  pose proof (Hasc i (S i) o o' ltac:(lia) Hi Ho').
  assert (o' ≤ lst).
  { destruct (decide (S i = k)) as [<-|Hne]; [simplify_eq; lia|].
    pose proof (Hasc (S i) k o' lst ltac:(lia) Ho' Hk). lia. }
  exists o'. split_and!; [done|lia|].
  apply list_elem_of_filter. split; [|by eapply list_elem_of_lookup_2].
  split; [lia|]. destruct nxt as [n|]; simpl in *; [lia|done].
Qed.

(** The only leader in the range of a leader is that leader. *)
Lemma leader_in_range sl i l x :
  strictly_ascending sl → sl !! i = Some l → x ∈ sl →
  in_block l (sl !! S i) x → x = l.
Proof.
  intros Hasc Hi [k Hk]%list_elem_of_lookup_1 [Hlow Hup].
  destruct (Nat.lt_trichotomy k i) as [Hlt|[->|Hlt]].
  - pose proof (Hasc k i x l Hlt Hk Hi). lia.
  - congruence.
  - destruct (sl !! S i) as [n|] eqn:Hn; simpl in Hup.
    + destruct (decide (S i = k)) as [<-|Hne]; [simplify_eq; lia|].
      pose proof (Hasc (S i) k n x ltac:(lia) Hn Hk). lia.
    + apply lookup_ge_None in Hn. apply lookup_lt_Some in Hk. lia.
Qed.

(** *** Leaders after control transfers *)

Lemma leaders_step_next bc tbl L i ins n :
  0 ≤ get_offset ins → next_offset bc i = Some n → ends_block tbl ins →
  n ∈ leaders_step bc tbl L (i, ins).
Proof.
  intros Hpos Hn Hends. unfold leaders_step.
  rewrite decide_False by lia. rewrite Hn.
  destruct Hends as [Hg|[Hif Ht]].
  - rewrite Hg. set_solver.
  - rewrite Hif. destruct (_get_branch_targets tbl ins); [done|].
    case_match; set_solver.
Qed.

Lemma leaders_loop_next bc tbl L items i ins n :
  (i, ins) ∈ items →
  0 ≤ get_offset ins → next_offset bc i = Some n → ends_block tbl ins →
  n ∈ foldl (leaders_step bc tbl) L items.
Proof.
  intros Hin Hpos Hn Hends. revert L.
  induction items as [|x items IH]; intros L; [by apply elem_of_nil in Hin|].
  cbn [foldl]. apply elem_of_cons in Hin as [<-|Hin].
  - by apply leaders_loop_mono, leaders_step_next.
  - by apply IH.
Qed.

Lemma find_leaders_next bc hs i ins n :
  bc !! i = Some ins →
  0 ≤ get_offset ins → next_offset bc i = Some n →
  ends_block (index_table bc) ins →
  n ∈ leaders_of bc hs.
Proof.
  intros Hi Hpos Hn Hends. unfold leaders_of, _find_leaders.
  destruct (pc_list bc) as [|first pcs] eqn:Hpcs.
  - assert (get_offset ins ∈ pc_list bc) as Hin.
    { apply elem_of_pc_list. split; [done|]. exists ins.
      split; [by eapply list_elem_of_lookup_2|done]. }
    rewrite Hpcs in Hin. by apply elem_of_nil in Hin.
  - apply handler_leaders_mono.
    apply (leaders_loop_next _ _ _ _ i ins); [|done..].
    by apply elem_of_enumerate.
Qed.

(** *** The successor blocks of a block *)

Lemma final_successor_blocks_NoDup bc hs j b :
  get_basic_blocks bc hs !! j = Some b → NoDup (successor_blocks b).
Proof.
  intros Hb. destruct (nil_or_length_pos bc) as [->|Hne].
  { by rewrite get_basic_blocks_nil, lookup_nil in Hb. }
  assert (bc ≠ []) as Hne' by (by intros ->).
  destruct (blocks_of_inv bc hs Hne') as (raw & Hinv & Heq).
  rewrite Heq in Hb.
  destruct (block_agree_lookup successor_blocks _ _ _ _
    (link_predecessors_agree successor_blocks _ (λ _ _, eq_refl)) Hb)
    as (b1 & Hb1 & Heq1).
  rewrite <- Heq1. rewrite list_lookup_fmap in Hb1.
  destruct (raw !! j) as [b0|] eqn:Hb0; simplify_eq/=.
  destruct (inv_blocks _ _ _ _ _ Hinv j b0 Hb0) as (_ & Hsb & _).
  unfold link_successors. destruct (last (nodes b0)); simpl.
  - apply succ_block_loop_NoDup. rewrite Hsb. constructor.
  - rewrite Hsb. constructor.
Qed.

Lemma final_successor_blocks bc hs j b k :
  get_basic_blocks bc hs !! j = Some b →
  k ∈ successor_blocks b
  ↔ ∃ lst nl s ns,
      last (nodes b) = Some lst ∧ build bc hs !! lst = Some nl
      ∧ s ∈ successors nl
      ∧ build bc hs !! s = Some ns ∧ basic_block_id ns = Some k.
Proof.
  intros Hb. destruct (nil_or_length_pos bc) as [->|Hne].
  { by rewrite get_basic_blocks_nil, lookup_nil in Hb. }
  assert (bc ≠ []) as Hne' by (by intros ->).
  destruct (blocks_of_inv bc hs Hne') as (raw & Hinv & Heq).
  rewrite Heq in Hb.
  set (f := λ b, (nodes b, successor_blocks b)).
  destruct (block_agree_lookup f _ _ _ _
    (link_predecessors_agree f _ (λ _ _, eq_refl)) Hb) as (b1 & Hb1 & Heq1).
  unfold f in Heq1. injection Heq1 as Hn1 Hs1. rewrite <- Hn1, <- Hs1.
  rewrite list_lookup_fmap in Hb1.
  destruct (raw !! j) as [b0|] eqn:Hb0; simplify_eq/=.
  destruct (inv_blocks _ _ _ _ _ Hinv j b0 Hb0)
    as (_ & Hsb & _ & _ & Hlst & i & l & _ & Hl & Hnodes).
  assert (build bc hs !! block_end_pc b0
          = Some (default (new_node 0 (mk_instr 0 "" None))
                    (build bc hs !! block_end_pc b0))) as Hnl.
  { destruct (build bc hs !! block_end_pc b0) as [nl|] eqn:Hnl; [done|exfalso].
    apply not_elem_of_dom in Hnl. apply Hnl, build_dom, elem_of_pc_list.
    apply last_Some_elem_of in Hlst. rewrite Hnodes in Hlst.
    by apply elem_of_range_nodes in Hlst as [_ ?]. }
  unfold link_successors. rewrite Hlst. simpl. rewrite Hlst.
  rewrite succ_block_loop_spec, Hsb. setoid_rewrite elem_of_elements.
  rewrite Hnl. simpl. split.
  - intros [?%elem_of_nil|(s & ns & Hs & Hns & Hid)]; [done|]. eauto 10.
  - intros (lst & nl & s & ns & [= <-] & Hnl' & Hs & Hns & Hid).
    rewrite Hnl in Hnl'. simplify_eq. right. eauto.
Qed.

Lemma opr_in_true opr l : opr ∈ l → opr_in opr l = true.
Proof. intros Hin. unfold opr_in. by apply bool_decide_eq_true. Qed.

Lemma ends_block_jump tbl ins :
  i_opr ins ∈ ["goto"; "return"; "throw"] → ends_block tbl ins.
Proof. intros Hin. left. by apply opr_in_true. Qed.

Lemma ends_block_branch tbl ins :
  i_opr ins ∈ ["if"; "ifz"] → resolved tbl (i_target ins) ≠ [] →
  ends_block tbl ins.
Proof.
  intros Hin Hres. right. split; [by apply opr_in_true|].
  unfold _get_branch_targets. rewrite opr_in_true; [done|].
  set_solver.
Qed.

Example scenario_D_block_0 :
  nodes <$> get_basic_blocks scenario_D_code scenario_D_handlers !! 0%nat
  = Some [10; 15; 20].
Proof. vm_compute. reflexivity. Qed.

Example scenario_D_edge :
  30 ∈ from_option successors ∅ (build scenario_D_code scenario_D_handlers !! 10).
Proof. apply (bool_decide_unpack _). vm_compute. exact I. Qed.

(** *** C4 *)

(** C4, as stated, fails in scenario D: the node at offset 10 is the first
    of the three nodes of block 0 and has the handler offset 30, which is
    in another block, among its successors. *)
Lemma interior_exception_edge :
  ¬ interior_closed scenario_D_code scenario_D_handlers.
Proof.
  intros Hclosed.
  pose proof scenario_D_block_0 as Hb. pose proof scenario_D_edge as Hs.
  destruct (get_basic_blocks scenario_D_code scenario_D_handlers !! 0%nat)
    as [b|] eqn:Hb0; [|done].
  destruct (build scenario_D_code scenario_D_handlers !! 10) as [n|] eqn:Hn;
    [|by apply not_elem_of_empty in Hs].
  simpl in Hb, Hs. injection Hb as Hb.
  assert (30 ∈ nodes b) as Hin.
  { apply (Hclosed 0%nat b 10 n 30 Hb0); rewrite ?Hb; [left|done..]. }
  rewrite Hb in Hin.
  repeat (apply elem_of_cons in Hin as [Hin|Hin]; [done|]).
  by apply elem_of_nil in Hin.
Qed.

(** C4, amended.  The successor blocks of a block are exactly the block
    ids of the nodes that are successors of its last node, each listed
    once.  In a well-formed method, a successor of a node that is not the
    last of its block lies in the block, unless it is the edge to a
    handler that covers the node or the node is a switch. *)
Theorem block_edges (bc : list instr) (hs : list ExceptionHandler) (j : nat)
    (b : BasicBlock) :
  get_basic_blocks bc hs !! j = Some b →
  (∀ k, k ∈ successor_blocks b
        ↔ ∃ lst nl s ns,
            last (nodes b) = Some lst ∧ build bc hs !! lst = Some nl
            ∧ s ∈ successors nl
            ∧ build bc hs !! s = Some ns ∧ basic_block_id ns = Some k)
  ∧ NoDup (successor_blocks b)
  ∧ (well_formed bc →
     ∀ o n s, o ∈ nodes b → last (nodes b) ≠ Some o →
       build bc hs !! o = Some n → s ∈ successors n →
       s ∈ nodes b
       ∨ (∃ h, h ∈ exception_handlers n ∧ s = handler_pc h)
       ∨ classify_opr (i_opr (instruction n)) = SWITCH).
Proof.
  intros Hb. split; [intros k; by apply (final_successor_blocks bc hs j)|].
  split; [by apply (final_successor_blocks_NoDup bc hs j)|].
  intros Hwf o n s Ho Hlast Hn Hs.
  apply build_lookup in Hn as (i & ins & Hown & Hoff & Hins & Hsucc & Hexc).
  rewrite Hsucc in Hs. apply elem_of_union in Hs as [Hs|Hs].
  2:{ right. left. apply elem_of_list_to_set, list_elem_of_fmap in Hs
        as (h & -> & Hh). exists h. by rewrite Hexc. }
  apply elem_of_list_to_set in Hs.
  destruct Hown as (Hi & Hoi & Hpos & _).
  assert (bc ≠ []) as Hne by (intros ->; by rewrite lookup_nil in Hi).
  destruct (final_block bc hs j b Hne Hb) as (_ & _ & _ & i' & l & Hl & Hnodes).
  rewrite Hnodes in Ho, Hlast. unfold range_nodes in Ho, Hlast.
  rewrite well_formed_pc_list in Ho, Hlast by done.
  destruct (interior_next (get_offset <$> bc) l _ i o
              (well_formed_ascending bc Hwf)
              ltac:(by rewrite list_lookup_fmap, Hi; simpl; rewrite Hoi)
              Ho Hlast) as (o' & Ho' & Hlt & Hin').
  rewrite list_lookup_fmap in Ho'.
  destruct (bc !! S i) as [ins'|] eqn:Hi'; simplify_eq/=.
  assert (next_offset bc i = Some (get_offset ins')) as Hnext.
  { unfold next_offset. rewrite Hi'. simpl.
    by apply Hwf, list_elem_of_lookup_2 with (S i). }
  assert (get_offset ins' ∈ nodes b) as Hnb.
  { rewrite Hnodes. unfold range_nodes. by rewrite well_formed_pc_list. }
  assert (¬ ends_block (index_table bc) (instruction n)) as Hnends.
  { intros Hends.
    pose proof (find_leaders_next bc hs i _ _ Hi Hpos Hnext Hends) as Hlead.
    assert (get_offset ins' = l); [|apply list_elem_of_filter in Ho as [[? _] _]; lia].
    apply (leader_in_range (sorted_leaders bc hs) i').
    - apply sorted_strictly_ascending, NoDup_elements.
    - done.
    - unfold sorted_leaders.
      by rewrite (merge_sort_Permutation Z.le), elem_of_elements.
    - by apply list_elem_of_filter in Hin' as [? _]. }
  revert Hs. unfold _compute_successors. rewrite Hnext.
  control_cases (instruction n) Heq Hnot.
  - (* if *)
    rewrite Heq. eval_opr. rewrite elem_of_app, elem_of_option_list.
    intros [[= <-]|Hs]; [by left|]. exfalso. apply Hnends.
    apply ends_block_branch; [rewrite Heq; set_solver|].
    intros Hnil. rewrite Hnil in Hs. by apply elem_of_nil in Hs.
  - (* ifz *)
    rewrite Heq. eval_opr. rewrite elem_of_app, elem_of_option_list.
    intros [[= <-]|Hs]; [by left|]. exfalso. apply Hnends.
    apply ends_block_branch; [rewrite Heq; set_solver|].
    intros Hnil. rewrite Hnil in Hs. by apply elem_of_nil in Hs.
  - intros _. exfalso. apply Hnends, ends_block_jump. rewrite Heq. set_solver.
  - intros _. exfalso. apply Hnends, ends_block_jump. rewrite Heq. set_solver.
  - intros _. exfalso. apply Hnends, ends_block_jump. rewrite Heq. set_solver.
  - intros _. right. right. by rewrite Heq.
  - intros _. right. right. by rewrite Heq.
  - pose proof (λ s, opr_not_control (i_opr (instruction n)) s Hnot) as Hneq.
    rewrite !opr_in_false, bool_decide_eq_false_2.
    + rewrite elem_of_option_list. intros [= <-]. by left.
    + apply Hneq. unfold control_oprs. set_solver.
    + intros Hin. apply Hnot. unfold control_oprs. set_solver.
    + intros Hin. apply Hnot. unfold control_oprs. set_solver.
    + intros Hin. apply Hnot. unfold control_oprs. set_solver.
Qed.

(** ** Concrete instances *)

(** Well-formedness from two facts that evaluation decides. *)
Lemma well_formed_check bc :
  Forall (λ ins, 0 ≤ get_offset ins ∧ i_offset ins = Some (get_offset ins)) bc →
  StronglySorted Z.lt (valid_offsets bc) →
  well_formed bc.
Proof.
  intros Hall Hs. split; [by apply Forall_forall|by apply ascending_of_sorted].
Qed.

(** [edge_symmetry] at the edge from 15 to 20 of scenario D. *)
Lemma edge_symmetry_witness :
  20 ∈ successors (node_at (build scenario_D_code scenario_D_handlers) 15)
  ↔ 15 ∈ predecessors (node_at (build scenario_D_code scenario_D_handlers) 20).
Proof.
  apply (edge_symmetry (build scenario_D_code scenario_D_handlers) 15 20).
  - constructor.
  - vm_compute. reflexivity.
  - vm_compute. reflexivity.
Defined.

(** [block_edges] at block 0 of scenario D. *)
Lemma block_edges_witness :
  (∀ k, k ∈ successor_blocks scenario_D_block
        ↔ ∃ lst nl s ns,
            last (nodes scenario_D_block) = Some lst
            ∧ build scenario_D_code scenario_D_handlers !! lst = Some nl
            ∧ s ∈ successors nl
            ∧ build scenario_D_code scenario_D_handlers !! s = Some ns
            ∧ basic_block_id ns = Some k)
  ∧ NoDup (successor_blocks scenario_D_block)
  ∧ (well_formed scenario_D_code →
     ∀ o n s,
       o ∈ nodes scenario_D_block → last (nodes scenario_D_block) ≠ Some o →
       build scenario_D_code scenario_D_handlers !! o = Some n →
       s ∈ successors n →
       s ∈ nodes scenario_D_block
       ∨ (∃ h, h ∈ exception_handlers n ∧ s = handler_pc h)
       ∨ classify_opr (i_opr (instruction n)) = SWITCH).
Proof.
  apply (block_edges scenario_D_code scenario_D_handlers 0%nat).
  vm_compute. reflexivity.
Defined.


(** [branch_method] is well-formed, so the second half of C2 applies to
    it as well. *)
Example branch_method_well_formed : well_formed branch_method.
Proof.
  apply well_formed_check; apply (bool_decide_unpack _); vm_compute; exact I.
Qed.

(** [entry_point_iff] at the private overload of [overloaded_methods]. *)
Lemma entry_point_iff_witness :
  (full_name "C" (get_name private_foo) ∈ get_entry_points overloaded_methods "C"
   ↔ ∃ m', m' ∈ overloaded_methods ∧ get_name m' = get_name private_foo
           ∧ entry_condition m')
  ∧ ((∀ m', m' ∈ overloaded_methods → get_name m' = get_name private_foo →
            m' = private_foo) →
     (full_name "C" (get_name private_foo)
        ∈ get_entry_points overloaded_methods "C"
      ↔ entry_condition private_foo)).
Proof.
  apply (entry_point_iff overloaded_methods "C" private_foo).
  right. left.
Defined.

(** *** The scenarios of the specification *)

(** The conditional branch of [branch_method] has its fall-through and its
    target as successors. *)
Example branch_successors :
  _compute_successors branch_method (index_table branch_method) 1
    (mk_instr 1 "ifz" (Some 3)) = [4; 5].
Proof. vm_compute. reflexivity. Qed.

(** Scenario A: a straight-line method is one block, without dead code. *)
Example scenario_A :
  nodes <$> get_basic_blocks three_instrs [] = [[0; 3; 6]]
  ∧ get_unreachable_nodes (build_cfg "m" three_instrs) = Some ∅.
Proof. split; vm_compute; reflexivity. Qed.

Example scenario_C :
  elements <$> get_unreachable_nodes (build_cfg "m" scenario_C_code)
  = Some [5; 4].
Proof. vm_compute. reflexivity. Qed.

(** Scenario D: offset 30 is a leader and starts its own block. *)
Example scenario_D_blocks :
  nodes <$> get_basic_blocks scenario_D_code scenario_D_handlers
  = [[10; 15; 20]; [30]; [31]]
  ∧ successor_blocks <$> get_basic_blocks scenario_D_code scenario_D_handlers
    = [[2%nat]; [2%nat]; []].
Proof. split; vm_compute; reflexivity. Qed.

(** A [goto] whose target is not in the table has no successor, and the
    rest of the CFG is built. *)
Example wild_goto_edges :
  (λ o, elements (succs_of (cfg_nodes (build_cfg "m" wild_goto)) o)) <$> [0; 1; 4]
  = [[1]; []; []].
Proof. vm_compute. reflexivity. Qed.

Example switch_interior :
  nodes <$> get_basic_blocks switch_method [] = [[0; 1]; [2]]
  ∧ elements (succs_of (build switch_method []) 0) = [2].
Proof. split; vm_compute; reflexivity. Qed.

(** Scenario B: the branch of [branch_method] makes its fall-through and
    its target leaders, and nothing is dead. *)
Example scenario_B :
  sorted_leaders branch_method [] = [0; 4; 5]
  ∧ get_unreachable_nodes (build_cfg "m" branch_method) = Some ∅.
Proof. split; vm_compute; reflexivity. Qed.

(** Scenario E: [A.main] calls [B.helper], which calls [C.util]; [D.unused]
    is declared and never called. *)
Example scenario_E :
  get_reachable_from scenario_E_graph {["A.main"]}
  = Some {["A.main"; "B.helper"; "C.util"]}
  ∧ "D.unused" ∈ all_methods scenario_E_graph.
Proof.
  split; [vm_compute; reflexivity|].
  apply (bool_decide_unpack _). vm_compute. exact I.
Qed.

(** The simple CFG of [BytecodeAnalyzer.build_cfg] is built from the
    instruction list alone: in scenario D its node at offset 15 has no
    edge to the handler at offset 30. *)
Example analyzer_has_no_exception_edge :
  elements (succs_of (cfg_nodes (build_cfg "m" scenario_D_code)) 15) = [20].
Proof. vm_compute. reflexivity. Qed.

(** * Further properties of the code *)

(** ** Exception-table entries and the index table *)

Lemma get_or_self_empty k : get_or_self ∅ k = k.
Proof. unfold get_or_self. by rewrite lookup_empty. Qed.

(** X1. [ExceptionHandler.from_json] never fails: a missing key reads
    as index 0, and each of the three indices is replaced by its entry in
    the table when it has one and is kept as it is otherwise.  A table that
    is absent and a table that is empty (both are falsy) behave as a table
    without entries, so the guard [if index_to_offset:] cannot be
    observed. *)
Theorem from_json_table (d : handler_json) (t : option (gmap Z Z)) :
  from_json d t
  = {| start_pc := get_or_self (default ∅ t) (default 0 (j_start d));
       end_pc := get_or_self (default ∅ t) (default 0 (j_end d));
       handler_pc := get_or_self (default ∅ t) (default 0 (j_handler d));
       catch_type := j_catchType d |}.
Proof.
  unfold from_json. destruct t as [tbl|]; simpl.
  - case_decide as He; [|done]. subst tbl. by rewrite !get_or_self_empty.
  - by rewrite !get_or_self_empty.
Qed.

(** X2. After [_parse_opcodes], [_pc_list] is sorted and holds the
    offsets of the method that are not negative, each as often as it
    occurs; the keys of [_opcodes] are these offsets; [_index_to_offset] is
    the table that [build_cfg_from_json] and [BytecodeAnalyzer.build_cfg]
    compute on their own; [_resolve_target] maps a list position to the
    offset of the instruction at that position when the offset is present
    and not negative, and to nothing otherwise; and the offsets it returns
    are exactly those of [_pc_list]. *)
Theorem parse_opcodes_spec (bc : list instr) :
  StronglySorted Z.le (pc_list bc)
  ∧ pc_list bc ≡ₚ valid_offsets bc
  ∧ opcode_keys bc = list_to_set (pc_list bc)
  ∧ index_table bc = build_index_to_offset bc
  ∧ (∀ k o, _resolve_target (index_table bc) k = Some o
        ↔ 0 ≤ k ∧ ∃ ins, bc !! Z.to_nat k = Some ins
                         ∧ i_offset ins = Some o ∧ 0 ≤ o)
  ∧ (∀ o, o ∈ pc_list bc ↔ ∃ k, _resolve_target (index_table bc) k = Some o).
Proof.
  split_and!.
  - rewrite pc_list_eq. apply StronglySorted_merge_sort; apply _.
  - rewrite pc_list_eq. apply merge_sort_Permutation.
  - rewrite opcode_keys_eq, pc_list_eq.
    apply set_eq. intros x. rewrite !elem_of_list_to_set.
    by rewrite (merge_sort_Permutation Z.le).
  - apply index_table_eq.
  - intros k o. unfold _resolve_target.
    rewrite index_table_eq, build_index_to_offset_lookup, spec_resolve_Some.
    split.
    + intros (ins & Hk & Hins & Ho & Hpos). split; [done|]. exists ins.
      split_and!; [done| |done]. unfold get_offset in Ho.
      destruct (i_offset ins) as [x|]; simpl in *; [congruence|lia].
    + intros (Hk & ins & Hins & Ho & Hpos). exists ins.
      unfold get_offset. rewrite Ho. done.
  - intros o. rewrite elem_of_pc_list. unfold _resolve_target.
    rewrite index_table_eq. setoid_rewrite build_index_to_offset_lookup.
    split.
    + intros (Hpos & ins & [i Hi]%list_elem_of_lookup_1 & Ho).
      exists (Z.of_nat i). apply spec_resolve_Some. exists ins.
      rewrite Nat2Z.id. split_and!; [lia|done..].
    + intros (k & Hk). by eapply spec_resolve_is_offset.
Qed.

(** ** The leaders of [_find_leaders] *)

Lemma opr_in_spec opr l : opr_in opr l = true ↔ opr ∈ l.
Proof. unfold opr_in. apply bool_decide_eq_true. Qed.

Lemma leaders_step_spec bc L i ins o :
  o ∈ leaders_step bc (index_table bc) L (i, ins)
  ↔ o ∈ L ∨ makes_leader bc i ins o.
Proof.
  unfold leaders_step, makes_leader.
  case_decide as Hneg; [split; [by left|intros [?|[? _]]; [done|lia]]|].
  assert (0 ≤ get_offset ins) as Hpos by lia.
  destruct (opr_in (i_opr ins) ["if"; "ifz"]) eqn:Hif;
    destruct (opr_in (i_opr ins) ["goto"; "return"; "throw"]) eqn:Hgo;
    destruct (_get_branch_targets (index_table bc) ins) as [|t ts] eqn:Hts;
    destruct (next_offset bc i) as [n|] eqn:Hn;
    rewrite ?elem_of_union, ?elem_of_singleton, ?elem_of_list_to_set;
    try apply opr_in_spec in Hif; try apply opr_in_spec in Hgo;
    try (apply not_true_iff_false in Hif; rewrite opr_in_spec in Hif);
    try (apply not_true_iff_false in Hgo; rewrite opr_in_spec in Hgo);
    split; try naive_solver.
  all: intros [?|(_ & [Hx|[(? & ? & ?)|(? & ?)]])]; try naive_solver.
  all: try (by apply elem_of_nil in Hx).
Qed.

Lemma leaders_loop_spec bc L items o :
  o ∈ foldl (leaders_step bc (index_table bc)) L items
  ↔ o ∈ L ∨ ∃ i ins, (i, ins) ∈ items ∧ makes_leader bc i ins o.
Proof.
  revert L. induction items as [|[i ins] items IH]; intros L; cbn [foldl].
  - split; [by left|]. intros [?|(i & ins & Hin & _)]; [done|].
    by apply elem_of_nil in Hin.
  - rewrite IH, leaders_step_spec. setoid_rewrite elem_of_cons. split.
    + intros [[?|?]|(i' & ins' & ? & ?)]; [by left|right..].
      * exists i, ins. split; [by left|done].
      * exists i', ins'. split; [by right|done].
    + intros [?|(i' & ins' & [?|?] & ?)]; [by left; left| |].
      * simplify_eq. by left; right.
      * right. eauto.
Qed.

Lemma handler_is_instruction_spec bc h :
  handler_is_instruction bc (index_table bc) (opcode_keys bc) h = true
  ↔ is_offset_of bc (handler_pc h).
Proof.
  unfold handler_is_instruction.
  rewrite orb_true_iff, !bool_decide_eq_true, opcode_keys_eq,
    elem_of_list_to_set, elem_of_valid_offsets.
  split; [|by left]. intros [?|Hin]; [done|].
  apply list_elem_of_fmap in Hin as (i & Hi & _).
  rewrite index_table_eq, build_index_to_offset_lookup in Hi.
  symmetry in Hi. by eapply spec_resolve_is_offset.
Qed.

Lemma handler_loop_spec bc (L : gset Z) (hs : list ExceptionHandler) o :
  o ∈ foldl (λ (leaders : gset Z) h,
               if handler_is_instruction bc (index_table bc) (opcode_keys bc) h
               then leaders ∪ {[handler_pc h]} else leaders) L hs
  ↔ o ∈ L ∨ ∃ h, h ∈ hs ∧ handler_pc h = o ∧ is_offset_of bc o.
Proof.
  revert L. induction hs as [|h hs IH]; intros L; cbn [foldl].
  - split; [by left|]. intros [?|(h & Hin & _)]; [done|].
    by apply elem_of_nil in Hin.
  - rewrite IH. setoid_rewrite elem_of_cons.
    destruct (handler_is_instruction _ _ _ h) eqn:Hh.
    + apply handler_is_instruction_spec in Hh.
      rewrite elem_of_union, elem_of_singleton. split.
      * intros [[?| ->]|(h' & ? & ? & ?)]; [by left|right..].
        -- exists h. split; [by left|done].
        -- exists h'. split; [by right|done].
      * intros [?|(h' & [->|?] & <- & ?)]; [by left; left|by left; right|].
        right. eauto.
    + apply not_true_iff_false in Hh. rewrite handler_is_instruction_spec in Hh.
      split.
      * intros [?|(h' & ? & ? & ?)]; [by left|right]. exists h'. eauto.
      * intros [?|(h' & [->|?] & <- & ?)]; [by left|done|]. right. eauto.
Qed.

Lemma find_leaders_iff bc hs o :
  o ∈ leaders_of bc hs
  ↔ first_offset bc = Some o
    ∨ (∃ i ins, bc !! i = Some ins ∧ makes_leader bc i ins o)
    ∨ (∃ h, h ∈ hs ∧ handler_pc h = o ∧ is_offset_of bc o).
Proof.
  unfold leaders_of, _find_leaders, first_offset.
  destruct (pc_list bc) as [|first pcs] eqn:Hpcs.
  - split; [by intros ?%not_elem_of_empty|].
    assert (∀ x, ¬ is_offset_of bc x) as Hno.
    { intros x Hx%elem_of_pc_list. rewrite Hpcs in Hx. by apply elem_of_nil in Hx. }
    intros [?|[(i & ins & Hi & Hpos & _)|(h & _ & _ & Hx)]]; [done| |by apply Hno in Hx].
    exfalso. apply (Hno (get_offset ins)). split; [done|].
    exists ins. split; [|done]. by eapply list_elem_of_lookup_2.
  - rewrite handler_loop_spec, leaders_loop_spec, elem_of_singleton. simpl.
    setoid_rewrite elem_of_enumerate. naive_solver.
Qed.

Lemma get_branch_targets_offsets bc ins o :
  o ∈ _get_branch_targets (index_table bc) ins → is_offset_of bc o.
Proof.
  assert (∀ idx, o ∈ resolved (index_table bc) idx → is_offset_of bc o) as Hres.
  { intros idx. rewrite index_table_eq, elem_of_resolved, elem_of_opt_set.
    destruct idx as [k|]; simpl; [|done]. apply spec_resolve_is_offset. }
  unfold _get_branch_targets. repeat case_match;
    rewrite ?elem_of_app, ?list_elem_of_bind; try (by intros ?%elem_of_nil);
    try apply Hres.
  - intros [?|(c & Hc & _)]; [by eapply Hres|]. destruct c; eauto.
    all: by apply elem_of_nil in Hc.
  - intros [?|(c & Hc & _)]; [by eapply Hres|]. destruct c; eauto.
    all: by apply elem_of_nil in Hc.
Qed.

Lemma next_offset_valid bc i o :
  next_offset bc i = Some o → 0 ≤ o → is_offset_of bc o.
Proof.
  unfold next_offset. destruct (bc !! S i) as [ins|] eqn:Hins; [|done].
  simpl. intros Ho Hpos. split; [done|]. exists ins.
  split; [by eapply list_elem_of_lookup_2|]. unfold get_offset. by rewrite Ho.
Qed.

Lemma leader_nonneg_offset bc hs o :
  o ∈ leaders_of bc hs → 0 ≤ o → is_offset_of bc o.
Proof.
  rewrite find_leaders_iff.
  intros [Hf|[(i & ins & Hi & _ & [Ht|[(_ & _ & Hn)|(_ & Hn)]])|(h & _ & _ & ?)]] Hpos;
    [|by eapply get_branch_targets_offsets|by eapply next_offset_valid..|done].
  apply elem_of_pc_list. unfold first_offset in Hf. by apply head_Some_elem_of.
Qed.

(** X3. The leaders that [_find_leaders] finds are exactly: the least
    valid offset; what every instruction with a valid offset contributes
    ([makes_leader]: its resolved branch targets, the offset after a
    conditional branch one of whose targets resolves, the offset after a
    [goto], [return] or [throw]); and the [handler_pc] of every handler for
    which it is the offset of an instruction.  A leader that is not
    negative is the offset of an instruction, and the two-part test of the
    handler loop says no more than that. *)
Theorem find_leaders_spec (bc : list instr) (hs : list ExceptionHandler) :
  (∀ o, o ∈ leaders_of bc hs
        ↔ first_offset bc = Some o
          ∨ (∃ i ins, bc !! i = Some ins ∧ makes_leader bc i ins o)
          ∨ (∃ h, h ∈ hs ∧ handler_pc h = o ∧ is_offset_of bc o))
  ∧ (∀ o, o ∈ leaders_of bc hs → 0 ≤ o → is_offset_of bc o)
  ∧ (∀ h, handler_is_instruction bc (index_table bc) (opcode_keys bc) h = true
          ↔ is_offset_of bc (handler_pc h)).
Proof.
  split_and!.
  - apply find_leaders_iff.
  - apply leader_nonneg_offset.
  - apply handler_is_instruction_spec.
Qed.

(** ** Leaders and the starts of blocks *)

Lemma StronglySorted_filter (P : Z → Prop) `{!∀ x, Decision (P x)} (l : list Z) :
  StronglySorted Z.le l → StronglySorted Z.le (filter P l).
Proof.
  induction 1 as [|x l Hs IH Hall]; [constructor|].
  rewrite filter_cons. case_decide; [|done].
  constructor; [done|]. rewrite Forall_forall in Hall |- *.
  intros y [_ Hy]%list_elem_of_filter. by apply Hall.
Qed.

Lemma sorted_head_least (l : list Z) x y :
  StronglySorted Z.le l → head l = Some x → y ∈ l → x ≤ y.
Proof.
  intros Hs Hhd Hy. destruct l as [|z l]; simplify_eq/=.
  apply StronglySorted_cons in Hs as [Hall _].
  apply elem_of_cons in Hy as [->|Hy]; [lia|].
  rewrite Forall_forall in Hall. by apply Hall.
Qed.

Lemma sorted_last_greatest (l : list Z) x y :
  StronglySorted Z.le l → last l = Some x → y ∈ l → y ≤ x.
Proof.
  intros Hs Hlast Hy.
  revert Hs Hlast Hy. induction l as [|z l _] using rev_ind; [done|].
  intros Hs Hlast Hy. rewrite last_snoc in Hlast. simplify_eq.
  apply elem_of_app in Hy as [Hy|Hy];
    [|apply list_elem_of_singleton in Hy as ->; lia].
  eapply (StronglySorted_app_1_elem_of Z.le); [done..|left].
Qed.

Lemma pc_list_sorted bc : StronglySorted Z.le (pc_list bc).
Proof. rewrite pc_list_eq. apply StronglySorted_merge_sort; apply _. Qed.

Lemma range_nodes_sorted bc hs i l :
  StronglySorted Z.le (range_nodes (sorted_leaders bc hs) (pc_list bc) i l).
Proof. apply StronglySorted_filter, pc_list_sorted. Qed.

Lemma sorted_leaders_ascending bc hs : strictly_ascending (sorted_leaders bc hs).
Proof. apply sorted_strictly_ascending, NoDup_elements. Qed.

Lemma elem_of_sorted_leaders bc hs o :
  o ∈ sorted_leaders bc hs ↔ o ∈ leaders_of bc hs.
Proof.
  unfold sorted_leaders.
  by rewrite (merge_sort_Permutation Z.le), elem_of_elements.
Qed.

Lemma leader_in_own_range bc hs i l :
  sorted_leaders bc hs !! i = Some l →
  in_block l (sorted_leaders bc hs !! S i) l.
Proof.
  intros Hi. split; [lia|].
  destruct (sorted_leaders bc hs !! S i) as [n|] eqn:Hn; simpl; [|done].
  apply (sorted_leaders_ascending bc hs i (S i) l n); [lia|done..].
Qed.

(** The block of a range starts at the leader of the range. *)
Lemma block_start_leader bc hs j b :
  get_basic_blocks bc hs !! j = Some b →
  ∃ i, sorted_leaders bc hs !! i = Some (block_start_pc b)
       ∧ nodes b = range_nodes (sorted_leaders bc hs) (pc_list bc) i
                     (block_start_pc b).
Proof.
  intros Hb. destruct (nil_or_length_pos bc) as [->|Hne].
  { by rewrite get_basic_blocks_nil, lookup_nil in Hb. }
  assert (bc ≠ []) as Hne' by (by intros ->).
  destruct (final_block bc hs j b Hne' Hb) as (_ & Hhd & _ & i & l & Hl & Hn).
  assert (block_start_pc b ∈ nodes b) as Hs by (by apply head_Some_elem_of).
  rewrite Hn in Hs. apply elem_of_range_nodes in Hs as [[Hle Hup] Hpc].
  assert (l = block_start_pc b) as ->; [|eauto].
  destruct (decide (0 ≤ l)) as [Hpos|Hneg].
  - assert (l ∈ range_nodes (sorted_leaders bc hs) (pc_list bc) i l) as Hin.
    { apply elem_of_range_nodes. split; [by apply leader_in_own_range|].
      apply elem_of_pc_list, (leader_nonneg_offset bc hs); [|done].
      apply elem_of_sorted_leaders. by eapply list_elem_of_lookup_2. }
    rewrite Hn in Hhd.
    pose proof (sorted_head_least _ _ l (range_nodes_sorted bc hs i l) Hhd Hin).
    lia.
  - exfalso.
    destruct (first_offset bc) as [first|] eqn:Hfirst.
    2:{ unfold first_offset in Hfirst. apply head_None in Hfirst.
        rewrite Hfirst in Hpc. by apply elem_of_nil in Hpc. }
    pose proof (first_offset_least bc first _ Hfirst Hpc) as Hfs.
    assert (0 ≤ first) as Hfpos.
    { unfold first_offset in Hfirst. apply head_Some_elem_of in Hfirst.
      by apply elem_of_pc_list in Hfirst as [? _]. }
    assert (first ∈ sorted_leaders bc hs) as [i' Hi']%list_elem_of_lookup_1.
    { apply elem_of_sorted_leaders, find_leaders_iff. by left. }
    pose proof (sorted_leaders_ascending bc hs) as Hasc.
    destruct (Nat.lt_trichotomy i i') as [Hlt|[->|Hgt]].
    + destruct (lookup_lt_is_Some_2 (sorted_leaders bc hs) (S i)) as [n Hn'].
      { apply lookup_lt_Some in Hi'. lia. }
      rewrite Hn' in Hup. simpl in Hup.
      destruct (decide (S i = i')) as [<-|Hne2]; [simplify_eq; lia|].
      pose proof (Hasc (S i) i' n first ltac:(lia) Hn' Hi'). lia.
    + by simplify_eq.
    + pose proof (Hasc i' i first l Hgt Hi' Hl). lia.
Qed.

Lemma build_is_leader bc hs o n :
  build bc hs !! o = Some n →
  is_leader n = bool_decide (o ∈ leaders_of bc hs).
Proof.
  intros Hn. destruct (nil_or_length_pos bc) as [->|Hne].
  { by rewrite build_nil, lookup_empty in Hn. }
  assert (bc ≠ []) as Hne' by (by intros ->).
  pose proof (build_agree is_leader bc hs Hne' (λ _ _, eq_refl) (λ _ _, eq_refl))
    as Hag.
  destruct (node_agree_lookup _ _ _ _ _ Hag Hn) as (n0 & Hn0 & Heq).
  apply build_nodes_lookup in Hn0 as (i & ins & (_ & Ho & _) & ->).
  simpl in Heq. by rewrite <- Heq, Ho.
Qed.

(** X4. For a node of the CFG after [build], the [is_leader] flag is
    set exactly when the node's offset is in the leader set, and exactly
    when some basic block starts at the node. *)
Theorem leader_flag_block_start (bc : list instr)
    (hs : list ExceptionHandler) (o : Z) (n : CFGNode) :
  build bc hs !! o = Some n →
  (is_leader n = true ↔ o ∈ leaders_of bc hs)
  ∧ (is_leader n = true
     ↔ ∃ b, b ∈ get_basic_blocks bc hs ∧ block_start_pc b = o).
Proof.
  intros Hn. rewrite (build_is_leader bc hs o n Hn), bool_decide_eq_true.
  split; [done|]. split.
  - intros Hl.
    destruct (node_in_block bc hs o) as (j & b & Hb & Hob).
    { apply elem_of_dom. eauto. }
    exists b. split; [by eapply list_elem_of_lookup_2|].
    destruct (block_start_leader bc hs j b Hb) as (i & Hi & Hnodes).
    apply elem_of_sorted_leaders in Hl as [i' Hi']%list_elem_of_lookup_1.
    rewrite Hnodes in Hob. apply elem_of_range_nodes in Hob as [Hblk Hpc].
    assert (i' = i) as ->.
    { eapply (ranges_disjoint (sorted_leaders bc hs) i' i o _ o);
        [apply sorted_leaders_ascending|done..|by apply leader_in_own_range|done]. }
    congruence.
  - intros (b & [j Hb]%list_elem_of_lookup_1 & <-).
    destruct (block_start_leader bc hs j b Hb) as (i & Hi & _).
    apply elem_of_sorted_leaders. by eapply list_elem_of_lookup_2.
Qed.

(** [leader_flag_block_start] at the handler entry at offset 30 of scenario D. *)
Lemma leader_flag_block_start_witness :
  (is_leader (node_at (build scenario_D_code scenario_D_handlers) 30) = true
   ↔ 30 ∈ leaders_of scenario_D_code scenario_D_handlers)
  ∧ (is_leader (node_at (build scenario_D_code scenario_D_handlers) 30) = true
     ↔ ∃ b, b ∈ get_basic_blocks scenario_D_code scenario_D_handlers
            ∧ block_start_pc b = 30).
Proof.
  apply (leader_flag_block_start scenario_D_code scenario_D_handlers 30).
  vm_compute. reflexivity.
Defined.

(** ** Handlers and the edges of the builder *)

Lemma covering_nil o : covering [] o = [].
Proof. done. Qed.

(** X5. Exception handlers only add to the graph.  The node that
    [build] makes with a handler list has the instruction of the node made
    without handlers; its [exception_handlers] are the handlers that cover
    it, in table order; its successors are those of the node made without
    handlers together with the [handler_pc] of its handlers; and it has
    every predecessor of the node made without handlers. *)
Theorem handlers_only_add (bc : list instr) (hs : list ExceptionHandler)
    (o : Z) (n : CFGNode) :
  build bc hs !! o = Some n →
  ∃ n0, build bc [] !! o = Some n0
        ∧ instruction n = instruction n0
        ∧ exception_handlers n0 = []
        ∧ exception_handlers n = covering hs o
        ∧ successors n
          = successors n0 ∪ list_to_set (handler_pc <$> exception_handlers n)
        ∧ predecessors n0 ⊆ predecessors n.
Proof.
  intros Hn.
  assert (o ∈ dom (build bc [])) as [n0 Hn0]%elem_of_dom.
  { apply build_dom, (build_dom bc hs), elem_of_dom. eauto. }
  exists n0. split; [done|].
  destruct (build_lookup bc hs o n Hn) as (i & ins & Hown & _ & Hins & Hs & Hh).
  destruct (build_lookup bc [] o n0 Hn0)
    as (i0 & ins0 & Hown0 & _ & Hins0 & Hs0 & Hh0).
  destruct (owner_unique _ _ _ _ _ _ Hown Hown0) as [<- <-].
  split_and!; [congruence|done|done| |].
  - rewrite Hs, Hs0, Hh. simpl. set_solver.
  - intros p Hp.
    assert (p ∈ preds_of (build bc []) o) as Hp'
      by (unfold preds_of; by rewrite Hn0).
    apply build_preds in Hp' as (Hpd & Hod & Hps).
    assert (p ∈ preds_of (build bc hs) o) as Hq; [|by unfold preds_of in Hq; rewrite Hn in Hq].
    apply build_preds. rewrite !build_dom in *. split_and!; [done..|].
    assert (p ∈ dom (build bc hs)) as [np Hnp]%elem_of_dom by (by apply build_dom).
    assert (p ∈ dom (build bc [])) as [np0 Hnp0]%elem_of_dom by (by apply build_dom).
    destruct (build_lookup bc hs p np Hnp) as (k & ik & Hownk & _ & _ & Hsk & _).
    destruct (build_lookup bc [] p np0 Hnp0) as (k0 & ik0 & Hownk0 & _ & _ & Hsk0 & _).
    destruct (owner_unique _ _ _ _ _ _ Hownk Hownk0) as [<- <-].
    unfold succs_of in *. rewrite Hnp. rewrite Hnp0 in Hps. simpl in *.
    rewrite Hsk. rewrite Hsk0 in Hps. set_solver.
Qed.

(** [handlers_only_add] at the node at offset 15 of scenario D. *)
Lemma handlers_only_add_witness :
  ∃ n0, build scenario_D_code [] !! 15 = Some n0
        ∧ instruction (node_at (build scenario_D_code scenario_D_handlers) 15)
          = instruction n0
        ∧ exception_handlers n0 = []
        ∧ exception_handlers
            (node_at (build scenario_D_code scenario_D_handlers) 15)
          = covering scenario_D_handlers 15
        ∧ successors (node_at (build scenario_D_code scenario_D_handlers) 15)
          = successors n0
            ∪ list_to_set
                (handler_pc <$>
                   exception_handlers
                     (node_at (build scenario_D_code scenario_D_handlers) 15))
        ∧ predecessors n0
          ⊆ predecessors (node_at (build scenario_D_code scenario_D_handlers) 15).
Proof.
  apply (handlers_only_add scenario_D_code scenario_D_handlers 15).
  vm_compute. reflexivity.
Defined.

Lemma compute_successors_sources bc i ins x :
  x ∈ _compute_successors bc (index_table bc) i ins →
  next_offset bc i = Some x ∨ is_offset_of bc x.
Proof.
  assert (∀ idx, x ∈ resolved (index_table bc) idx → is_offset_of bc x) as Hres.
  { intros idx. rewrite index_table_eq, elem_of_resolved, elem_of_opt_set.
    destruct idx as [k|]; simpl; [|done]. apply spec_resolve_is_offset. }
  unfold _compute_successors. repeat case_match;
    rewrite ?elem_of_app, ?elem_of_option_list, ?elem_of_dict_fromkeys;
    try (by intros ?%elem_of_nil).
  - intros [?|?]; [by left|right; eauto].
  - intros ?. right; eauto.
  - intros ?. right. by eapply get_branch_targets_offsets.
  - intros ?. by left.
Qed.

(** X6. The edges of the CFG after [build]: every predecessor of a
    node is a node; a successor of a node is a node, or the [handler_pc] of
    one of the node's handlers, or the negative raw offset of the next
    instruction.  In a well-formed method only a handler target can be
    missing from the nodes. *)
Theorem builder_edges_closed (bc : list instr) (hs : list ExceptionHandler)
    (a : Z) (n : CFGNode) :
  build bc hs !! a = Some n →
  (∀ p, p ∈ predecessors n → p ∈ dom (build bc hs))
  ∧ (∀ s, s ∈ successors n →
          s ∈ dom (build bc hs)
          ∨ (∃ h, h ∈ exception_handlers n ∧ handler_pc h = s)
          ∨ (s < 0 ∧ ∃ i, next_offset bc i = Some s))
  ∧ (well_formed bc →
     ∀ s, s ∈ successors n →
          s ∈ dom (build bc hs)
          ∨ ∃ h, h ∈ exception_handlers n ∧ handler_pc h = s).
Proof.
  intros Hn.
  destruct (build_lookup bc hs a n Hn) as (i & ins & Hown & _ & Hins & Hs & Hh).
  assert (∀ s, s ∈ successors n →
            s ∈ dom (build bc hs)
            ∨ (∃ h, h ∈ exception_handlers n ∧ handler_pc h = s)
            ∨ (s < 0 ∧ next_offset bc i = Some s)) as Hsucc.
  { intros s. rewrite Hs, Hh, elem_of_union, !elem_of_list_to_set.
    intros [Hc|Hc].
    - apply compute_successors_sources in Hc as [Hnext|Hoff].
      + destruct (decide (0 ≤ s)) as [Hpos|Hneg].
        * left. apply build_dom. by eapply next_offset_valid.
        * right; right. split; [lia|done].
      + left. by apply build_dom.
    - apply list_elem_of_fmap in Hc as (h & -> & Hh'). right; left. eauto. }
  split_and!.
  - intros p Hp.
    assert (p ∈ preds_of (build bc hs) a) as Hp'
      by (unfold preds_of; by rewrite Hn).
    by apply build_preds in Hp' as (? & _).
  - intros s Hsn. destruct (Hsucc s Hsn) as [?|[?|[? ?]]]; eauto 6.
  - intros [Hvalid _] s Hsn.
    destruct (Hsucc s Hsn) as [?|[?|[Hneg Hnext]]]; [by left|by right|exfalso].
    unfold next_offset in Hnext.
    destruct (bc !! S i) as [nx|] eqn:Hnx; simplify_eq/=.
    destruct (Hvalid nx) as [Hpos Heq]; [by eapply list_elem_of_lookup_2|].
    rewrite Hnext in Heq. simplify_eq. lia.
Qed.

(** [builder_edges_closed] at the node at offset 15 of scenario D. *)
Lemma builder_edges_closed_witness :
  (∀ p, p ∈ predecessors (node_at (build scenario_D_code scenario_D_handlers) 15) →
        p ∈ dom (build scenario_D_code scenario_D_handlers))
  ∧ (∀ s, s ∈ successors (node_at (build scenario_D_code scenario_D_handlers) 15) →
          s ∈ dom (build scenario_D_code scenario_D_handlers)
          ∨ (∃ h, h ∈ exception_handlers
                        (node_at (build scenario_D_code scenario_D_handlers) 15)
                  ∧ handler_pc h = s)
          ∨ (s < 0 ∧ ∃ i, next_offset scenario_D_code i = Some s))
  ∧ (well_formed scenario_D_code →
     ∀ s, s ∈ successors (node_at (build scenario_D_code scenario_D_handlers) 15) →
          s ∈ dom (build scenario_D_code scenario_D_handlers)
          ∨ ∃ h, h ∈ exception_handlers
                       (node_at (build scenario_D_code scenario_D_handlers) 15)
                 ∧ handler_pc h = s).
Proof.
  apply (builder_edges_closed scenario_D_code scenario_D_handlers 15).
  vm_compute. reflexivity.
Defined.

(** X7. After [build] every node has a [basic_block_id]: the position
    and the id of a block that lists the node, and the node's offset lies
    between that block's [start_pc] and [end_pc]. *)
Theorem node_has_block (bc : list instr) (hs : list ExceptionHandler)
    (o : Z) (n : CFGNode) :
  build bc hs !! o = Some n →
  ∃ j b, basic_block_id n = Some j
         ∧ get_basic_blocks bc hs !! j = Some b
         ∧ block_id b = j ∧ o ∈ nodes b
         ∧ block_start_pc b ≤ o ≤ block_end_pc b.
Proof.
  intros Hn. destruct (nil_or_length_pos bc) as [->|Hne].
  { by rewrite build_nil, lookup_empty in Hn. }
  assert (bc ≠ []) as Hne' by (by intros ->).
  destruct (node_in_block bc hs o) as (j & b & Hb & Hob).
  { apply elem_of_dom. eauto. }
  exists j, b.
  destruct (final_block bc hs j b Hne' Hb) as (Hid & Hhd & Hlst & i & l & _ & Hnodes).
  split_and!; [|done..| |].
  - apply (node_block_id bc hs o n j Hn). eauto.
  - eapply (sorted_head_least (nodes b)); [|done..].
    rewrite Hnodes. apply range_nodes_sorted.
  - eapply (sorted_last_greatest (nodes b)); [|done..].
    rewrite Hnodes. apply range_nodes_sorted.
Qed.

(** [node_has_block] at the node at offset 15 of scenario D. *)
Lemma node_has_block_witness :
  ∃ j b,
    basic_block_id (node_at (build scenario_D_code scenario_D_handlers) 15)
    = Some j
    ∧ get_basic_blocks scenario_D_code scenario_D_handlers !! j = Some b
    ∧ block_id b = j ∧ 15 ∈ nodes b
    ∧ block_start_pc b ≤ 15 ≤ block_end_pc b.
Proof.
  apply (node_has_block scenario_D_code scenario_D_handlers 15).
  vm_compute. reflexivity.
Defined.

(** ** The blocks in order *)

Lemma filter_none (P : Z → Prop) `{!∀ x, Decision (P x)} (l : list Z) :
  (∀ x, x ∈ l → ¬ P x) → filter P l = [].
Proof.
  induction l as [|x l IH]; intros Hno; [done|].
  rewrite filter_cons_False by (apply Hno; left).
  apply IH. intros y Hy. apply Hno. by right.
Qed.

Lemma filter_all (P : Z → Prop) `{!∀ x, Decision (P x)} (l : list Z) :
  (∀ x, x ∈ l → P x) → filter P l = l.
Proof.
  induction l as [|x l IH]; intros Hall; [done|].
  rewrite filter_cons_True by (apply Hall; left).
  f_equal. apply IH. intros y Hy. apply Hall. by right.
Qed.

(** Two adjacent ranges of a sorted list, one after the other. *)
Lemma ranges_adjacent (pcs : list Z) a b nx :
  StronglySorted Z.le pcs → a ≤ b → (∀ n, nx = Some n → b < n) →
  filter (in_block a (Some b)) pcs ++ filter (in_block b nx) pcs
  = filter (in_block a nx) pcs.
Proof.
  intros Hs Hab Hnx. induction Hs as [|x pcs Hs IH Hall]; [done|].
  rewrite Forall_forall in Hall.
  assert (from_option (λ n, x < n) True nx ↔ ∀ n, nx = Some n → x < n) as Hup.
  { destruct nx; naive_solver. }
  assert (x < b → from_option (λ n, x < n) True nx) as Hlow.
  { intros Hxb. apply Hup. intros n Hn. specialize (Hnx n Hn). lia. }
  rewrite !filter_cons.
  destruct (decide (in_block a (Some b) x)) as [H1|H1],
    (decide (in_block b nx x)) as [H2|H2],
    (decide (in_block a nx x)) as [H3|H3];
    unfold in_block in H1, H2, H3; simpl in H1, H2, H3.
  - lia.
  - lia.
  - simpl. by rewrite IH.
  - exfalso. apply H3. split; [lia|]. apply Hlow. lia.
  - assert (filter (in_block a (Some b)) pcs = []) as Hnil.
    { apply filter_none. intros y Hy [_ Hlt]. simpl in Hlt.
      specialize (Hall y Hy). lia. }
    rewrite Hnil in IH |- *. simpl in *. by rewrite IH.
  - exfalso. apply H3. split; [lia|]. tauto.
  - exfalso. apply H2. split; [lia|]. tauto.
  - done.
Qed.

Section leader_loop_concat.
Variables (sl pcs : list Z) (cfg0 : gmap Z CFGNode).
Hypothesis Hasc : strictly_ascending sl.
Hypothesis Hpcs : ∀ o, o ∈ pcs → o ∈ dom cfg0.
Hypothesis Hbid0 : ∀ o n, cfg0 !! o = Some n → basic_block_id n = None.
Hypothesis Hoff : ∀ o n, cfg0 !! o = Some n → offset n = o.
Hypothesis Hsorted : StronglySorted Z.le pcs.

Lemma loop_step_nodes k l :
  (k < length sl)%nat → sl !! k = Some l →
  mjoin (nodes <$> (loop_state sl pcs cfg0 (S k)).1.2)
  = mjoin (nodes <$> (loop_state sl pcs cfg0 k).1.2) ++ range_nodes sl pcs k l.
Proof.
  intros Hk Hl. rewrite (loop_state_S sl pcs cfg0 k l Hl).
  pose proof (loop_inv_state sl pcs cfg0 Hasc Hpcs Hbid0 Hoff k ltac:(lia)) as Hinv.
  destruct (loop_state sl pcs cfg0 k) as [[cfg blocks] bid].
  rewrite (block_step_eq sl pcs cfg0 Hpcs) by apply (inv_dom _ _ _ _ _ Hinv).
  cbv zeta. destruct (range_nodes sl pcs k l) as [|x r] eqn:Hr; simpl.
  - by rewrite app_nil_r.
  - rewrite fmap_app, join_app. simpl. by rewrite app_nil_r.
Qed.

Lemma loop_nodes k l0 :
  head sl = Some l0 → (k < length sl)%nat →
  mjoin (nodes <$> (loop_state sl pcs cfg0 (S k)).1.2)
  = filter (in_block l0 (sl !! S k)) pcs.
Proof.
  intros Hhd. induction k as [|k IH]; intros Hk.
  - assert (sl !! 0%nat = Some l0) as Hl0 by (by rewrite <- head_lookup).
    rewrite (loop_step_nodes 0 l0) by done. done.
  - destruct (lookup_lt_is_Some_2 sl (S k) Hk) as [l Hl].
    rewrite (loop_step_nodes (S k) l), IH by (done || lia).
    rewrite Hl. apply ranges_adjacent; [done| |].
    + assert (sl !! 0%nat = Some l0) as Hl0 by (by rewrite <- head_lookup).
      pose proof (Hasc 0%nat (S k) l0 l ltac:(lia) Hl0 Hl). lia.
    + intros n Hn. apply (Hasc (S k) (S (S k)) l n); [lia|done..].
Qed.

Lemma loop_nodes_final l0 :
  head sl = Some l0 → (∀ o, o ∈ pcs → l0 ≤ o) →
  mjoin (nodes <$> (loop_state sl pcs cfg0 (length sl)).1.2) = pcs.
Proof.
  intros Hhd Hle. destruct (length sl) as [|m] eqn:Hlen.
  { apply nil_length_inv in Hlen. by rewrite Hlen in Hhd. }
  rewrite (loop_nodes m l0) by (done || lia).
  rewrite (lookup_ge_None_2 sl) by lia.
  apply filter_all. intros o Ho. split; [by apply Hle|done].
Qed.

End leader_loop_concat.

Lemma block_agree_fmap_eq {A} (f : BasicBlock → A) bs bs' :
  block_agree f bs bs' → f <$> bs = f <$> bs'.
Proof. intros Hag. apply list_eq. intros j. rewrite !list_lookup_fmap. apply Hag. Qed.

(** The node lists of the blocks are those of the leader loop. *)
Lemma blocks_of_loop bc hs :
  bc ≠ [] →
  nodes <$> get_basic_blocks bc hs
  = nodes <$> (loop_state (sorted_leaders bc hs) (pc_list bc)
                 (_compute_predecessors (nodes_of bc hs))
                 (length (sorted_leaders bc hs))).1.2.
Proof.
  intros Hne. rewrite get_basic_blocks_cons by done.
  unfold blocks_of, _build_basic_blocks. fold (sorted_leaders bc hs).
  rewrite loop_state_final.
  destruct (foldl _ _ _) as [[cfg raw] bid]. simpl.
  symmetry. apply block_agree_fmap_eq.
  etrans; [apply (link_successors_agree nodes cfg raw (λ _ _, eq_refl))|].
  apply (link_predecessors_agree nodes _ (λ _ _, eq_refl)).
Qed.

Lemma blocks_concat bc hs :
  mjoin (nodes <$> get_basic_blocks bc hs) = pc_list bc.
Proof.
  destruct (nil_or_length_pos bc) as [->|Hne]; [done|].
  assert (bc ≠ []) as Hne' by (by intros ->).
  rewrite blocks_of_loop by done.
  destruct (first_offset bc) as [first|] eqn:Hfirst.
  - destruct (sorted_leaders_head bc hs first Hfirst) as (l0 & Hl0 & Hle).
    apply (loop_nodes_final _ _ _ (sorted_leaders_ascending bc hs)
             (λ o, proj1 (pc_list_dom bc hs o))
             (λ o n Hn, proj1 (nodes_of_fresh bc hs o n Hn))
             (λ o n Hn, proj2 (nodes_of_fresh bc hs o n Hn))
             (pc_list_sorted bc) l0 Hl0).
    intros o Ho. pose proof (first_offset_least bc first o Hfirst Ho). lia.
  - unfold first_offset in Hfirst. apply head_None in Hfirst.
    assert (sorted_leaders bc hs = []) as ->; [|by rewrite Hfirst].
    unfold sorted_leaders, leaders_of, _find_leaders. by rewrite Hfirst.
Qed.

Lemma sum_block_len (bs : list BasicBlock) :
  sum_list (block_len <$> bs) = length (mjoin (nodes <$> bs)).
Proof.
  induction bs as [|b bs IH]; [done|].
  rewrite !fmap_cons. simpl. by rewrite length_app, <- IH.
Qed.

(** X8. The node lists of the basic blocks, one after the other in
    block order, are [_pc_list], the sorted valid offsets.  So the lengths
    of the blocks ([__len__]) add up to the number of instructions with a
    valid offset; every block is non-empty, has its position as its id,
    starts at its first node and ends at its last one, and lists its nodes
    in ascending order; and a method without a valid offset has no
    block. *)
Theorem blocks_cover_pc_list (bc : list instr) (hs : list ExceptionHandler) :
  mjoin (nodes <$> get_basic_blocks bc hs) = pc_list bc
  ∧ sum_list (block_len <$> get_basic_blocks bc hs)
    = length (valid_offsets bc)
  ∧ (∀ j b, get_basic_blocks bc hs !! j = Some b →
            block_id b = j ∧ (0 < block_len b)%nat
            ∧ head (nodes b) = Some (block_start_pc b)
            ∧ last (nodes b) = Some (block_end_pc b)
            ∧ block_start_pc b ≤ block_end_pc b
            ∧ StronglySorted Z.le (nodes b))
  ∧ (pc_list bc = [] → get_basic_blocks bc hs = []).
Proof.
  assert (∀ j b, get_basic_blocks bc hs !! j = Some b →
            block_id b = j ∧ (0 < block_len b)%nat
            ∧ head (nodes b) = Some (block_start_pc b)
            ∧ last (nodes b) = Some (block_end_pc b)
            ∧ block_start_pc b ≤ block_end_pc b
            ∧ StronglySorted Z.le (nodes b)) as Hshape.
  { intros j b Hb. destruct (nil_or_length_pos bc) as [->|Hne].
    { by rewrite get_basic_blocks_nil, lookup_nil in Hb. }
    assert (bc ≠ []) as Hne' by (by intros ->).
    destruct (final_block bc hs j b Hne' Hb) as (Hid & Hhd & Hlst & i & l & _ & Hn).
    assert (StronglySorted Z.le (nodes b)) as Hs
      by (rewrite Hn; apply range_nodes_sorted).
    split_and!; try done.
    - unfold block_len. revert Hhd. destruct (nodes b); [done|simpl; lia].
    - eapply (sorted_head_least (nodes b)); [done..|].
      by apply last_Some_elem_of. }
  split_and!; [apply blocks_concat| |done|].
  - rewrite <- (merge_sort_Permutation Z.le (valid_offsets bc)), <- pc_list_eq.
    rewrite <- blocks_concat with (hs := hs). apply sum_block_len.
  - intros Hnil. pose proof (blocks_concat bc hs) as Hc. rewrite Hnil in Hc.
    destruct (get_basic_blocks bc hs) as [|b bs] eqn:Hbs; [done|exfalso].
    destruct (Hshape 0%nat b) as (_ & Hlen & _); [done|].
    simpl in Hc. unfold block_len in Hlen.
    destruct (nodes b); simpl in *; [lia|done].
Qed.

(** ** Predecessor blocks *)

Lemma add_block_predecessor_linked from_id succ_id b :
  block_linked (λ x, x = from_id ∧ block_id b = succ_id) b
    (add_block_predecessor from_id succ_id b).
Proof.
  unfold add_block_predecessor, block_linked.
  repeat case_decide; simpl; split_and!; try done.
  - intros x. split; [by left|]. intros [?|[-> _]]; done.
  - intros Hnd. apply NoDup_app. split_and!; [done| |apply NoDup_singleton].
    by intros x Hx ->%list_elem_of_singleton.
  - intros x. rewrite elem_of_app, list_elem_of_singleton. naive_solver.
  - intros x. naive_solver.
Qed.

Lemma add_block_predecessors_linked from_id succs (bs : list BasicBlock) j b' :
  foldl (λ bs s, add_block_predecessor from_id s <$> bs) bs succs !! j = Some b' →
  ∃ b, bs !! j = Some b
       ∧ block_linked (λ x, x = from_id ∧ block_id b ∈ succs) b b'.
Proof.
  revert bs. induction succs as [|s succs IH]; intros bs; cbn [foldl].
  - intros Hb. exists b'. split; [done|]. split_and!; try done.
    intros x. split; [by left|]. intros [?|[_ ?%elem_of_nil]]; done.
  - intros Hb. destruct (IH _ Hb) as (b1 & Hb1 & Hid1 & Hs1 & Hnd1 & Hp1).
    rewrite list_lookup_fmap in Hb1.
    destruct (bs !! j) as [b|] eqn:Hbj; simplify_eq/=.
    exists b. split; [done|].
    destruct (add_block_predecessor_linked from_id s b) as (Hid & Hs & Hnd & Hp).
    split_and!; [congruence|congruence|tauto|].
    intros x. rewrite Hp1, Hp, Hid, elem_of_cons. naive_solver.
Qed.

Lemma link_predecessors_loop (l acc : list BasicBlock) j b' :
  foldl (λ bs b,
           foldl (λ bs succ_id, add_block_predecessor (block_id b) succ_id <$> bs)
             bs (successor_blocks b)) acc l !! j = Some b' →
  ∃ b, acc !! j = Some b
       ∧ block_linked
           (λ x, ∃ c, c ∈ l ∧ block_id c = x ∧ block_id b ∈ successor_blocks c)
           b b'.
Proof.
  revert acc. induction l as [|c l IH]; intros acc; cbn [foldl].
  - intros Hb. exists b'. split; [done|]. split_and!; try done.
    intros x. split; [by left|]. intros [?|(c & ?%elem_of_nil & _)]; done.
  - intros Hb. destruct (IH _ Hb) as (b1 & Hb1 & Hid1 & Hs1 & Hnd1 & Hp1).
    destruct (add_block_predecessors_linked _ _ _ _ _ Hb1)
      as (b & Hbj & Hid & Hs & Hnd & Hp).
    exists b. split; [done|].
    split_and!; [congruence|congruence|tauto|].
    intros x. rewrite Hp1, Hp, Hid. setoid_rewrite elem_of_cons. naive_solver.
Qed.

(** The predecessor blocks of a block after [build]. *)
Lemma final_predecessor_blocks bc hs j b :
  get_basic_blocks bc hs !! j = Some b →
  NoDup (predecessor_blocks b)
  ∧ ∀ i, i ∈ predecessor_blocks b
         ↔ ∃ a, get_basic_blocks bc hs !! i = Some a ∧ j ∈ successor_blocks a.
Proof.
  intros Hb. destruct (nil_or_length_pos bc) as [->|Hne].
  { by rewrite get_basic_blocks_nil, lookup_nil in Hb. }
  assert (bc ≠ []) as Hne' by (by intros ->).
  destruct (blocks_of_inv bc hs Hne') as (raw & Hinv & Heq).
  set (mid := link_successors (build bc hs) <$> raw) in *.
  assert (∀ i c, mid !! i = Some c →
            block_id c = i ∧ predecessor_blocks c = []) as Hmid.
  { intros i c Hc.
    set (f := λ b, (block_id b, predecessor_blocks b)).
    destruct (block_agree_lookup f _ _ _ _
      (link_successors_agree f (build bc hs) raw (λ _ _, eq_refl)) Hc)
      as (c0 & Hc0 & Heq0).
    destruct (inv_blocks _ _ _ _ _ Hinv i c0 Hc0) as (Hid & _ & Hp & _).
    unfold f in Heq0. injection Heq0 as Hi Hpp. split; congruence. }
  assert (∀ i c, mid !! i = Some c →
            ∃ a, get_basic_blocks bc hs !! i = Some a
                 ∧ successor_blocks a = successor_blocks c) as Hfwd.
  { intros i c Hc.
    pose proof (link_predecessors_agree successor_blocks mid (λ _ _, eq_refl) i)
      as Hag.
    rewrite <- Heq, Hc in Hag.
    destruct (get_basic_blocks bc hs !! i) as [a|]; simplify_eq/=. eauto. }
  assert (∀ i a, get_basic_blocks bc hs !! i = Some a →
            ∃ c, mid !! i = Some c
                 ∧ successor_blocks a = successor_blocks c) as Hbwd.
  { intros i a Ha.
    pose proof (link_predecessors_agree successor_blocks mid (λ _ _, eq_refl) i)
      as Hag.
    rewrite <- Heq, Ha in Hag.
    destruct (mid !! i) as [c|]; simplify_eq/=. eauto. }
  rewrite Heq in Hb. unfold link_predecessors in Hb.
  destruct (link_predecessors_loop _ _ _ _ Hb) as (b0 & Hb0 & _ & _ & Hnd & Hp).
  destruct (Hmid j b0 Hb0) as [Hid0 Hp0].
  split; [apply Hnd; rewrite Hp0; constructor|].
  intros i. rewrite Hp, Hp0, Hid0. split.
  - intros [?%elem_of_nil|(c & [i' Hc]%list_elem_of_lookup_1 & Hidc & Hj)]; [done|].
    destruct (Hmid i' c Hc) as [Hid' _].
    destruct (Hfwd i' c Hc) as (a & Ha & Hsa).
    exists a. split; [congruence|]. by rewrite Hsa.
  - intros (a & Ha & Hj). right.
    destruct (Hbwd i a Ha) as (c & Hc & Hsa).
    destruct (Hmid i c Hc) as [Hid' _].
    exists c. split_and!; [by eapply list_elem_of_lookup_2|done|].
    by rewrite <- Hsa.
Qed.

(** X9. Block-level edges are symmetric: block [j] is among the
    successor blocks of block [i] exactly when [i] is among the predecessor
    blocks of block [j].  No predecessor list has a duplicate, and every id
    in either list is the position of a block. *)
Theorem block_edge_symmetry (bc : list instr) (hs : list ExceptionHandler)
    (i j : nat) (a b : BasicBlock) :
  get_basic_blocks bc hs !! i = Some a →
  get_basic_blocks bc hs !! j = Some b →
  (j ∈ successor_blocks a ↔ i ∈ predecessor_blocks b)
  ∧ NoDup (predecessor_blocks b)
  ∧ (∀ k, k ∈ successor_blocks a → (k < length (get_basic_blocks bc hs))%nat)
  ∧ (∀ k, k ∈ predecessor_blocks b → (k < length (get_basic_blocks bc hs))%nat).
Proof.
  intros Ha Hb.
  destruct (final_predecessor_blocks bc hs j b Hb) as [Hnd Hp].
  split_and!; [|done| |].
  - rewrite Hp. split; [eauto|]. intros (a' & Ha' & Hj). congruence.
  - intros k Hk.
    apply (final_successor_blocks bc hs i a k Ha) in Hk
      as (lst & nl & s & ns & _ & _ & _ & Hns & Hid).
    apply (node_block_id bc hs s ns k Hns) in Hid as (bk & Hbk & _).
    by eapply lookup_lt_Some.
  - intros k (a' & Ha' & _)%Hp. by eapply lookup_lt_Some.
Qed.

(** [block_edge_symmetry] at blocks 0 and 1 of scenario D. *)
Lemma block_edge_symmetry_witness :
  (1%nat ∈ successor_blocks scenario_D_block
   ↔ 0%nat ∈ predecessor_blocks
               (block_at (get_basic_blocks scenario_D_code scenario_D_handlers) 1))
  ∧ NoDup (predecessor_blocks
             (block_at (get_basic_blocks scenario_D_code scenario_D_handlers) 1))
  ∧ (∀ k, k ∈ successor_blocks scenario_D_block →
          (k < length (get_basic_blocks scenario_D_code scenario_D_handlers))%nat)
  ∧ (∀ k, k ∈ predecessor_blocks
                (block_at (get_basic_blocks scenario_D_code scenario_D_handlers) 1) →
          (k < length (get_basic_blocks scenario_D_code scenario_D_handlers))%nat).
Proof.
  apply (block_edge_symmetry scenario_D_code scenario_D_handlers 0 1).
  - vm_compute. reflexivity.
  - vm_compute. reflexivity.
Defined.

(** ** The CFG of the analyzer *)

(** *** The fields of the nodes of [build_cfg] *)

Lemma create_loop_owner name l o n :
  cfg_nodes (foldl create_step
     {| method_name := name; cfg_nodes := ∅; entry_offset := 0 |} l) !! o = Some n
  ↔ ∃ i ins, owner l o i ins ∧ n = new_node o ins.
Proof.
  revert n. induction l as [|x l IH] using rev_ind; intros n.
  - simpl. rewrite lookup_empty. split; [done|].
    intros (i & ins & (Hi & _) & _). by rewrite lookup_nil in Hi.
  - rewrite foldl_app. cbn [foldl]. unfold create_step at 1.
    case_decide as Hpos; simpl.
    + destruct (decide (get_offset x = o)) as [Heq|Hne].
      * rewrite Heq, lookup_insert_eq. split.
        -- intros [= <-]. exists (length l), x. split; [|done].
           by apply owner_snoc_new; [|lia].
        -- intros (i & ins & Ho & ->).
           destruct (owner_unique _ _ _ _ _ _ Ho
                       (owner_snoc_new l x o Heq ltac:(lia))) as [-> ->].
           done.
      * rewrite lookup_insert_ne by done. rewrite IH.
        split; intros (i & ins & Ho & ->); exists i, ins;
          (split; [by apply (owner_snoc_old l x o i ins)|done]).
    + rewrite IH. assert (get_offset x ≠ o ∨ o < 0) as [Hne|Hlt] by lia.
      * split; intros (i & ins & Ho & ->); exists i, ins;
          (split; [by apply (owner_snoc_old l x o i ins)|done]).
      * split; intros (i & ins & (_ & _ & ? & _) & _); lia.
Qed.

Lemma add_edge_agree {A} (f : CFGNode → A) cfg a b :
  (∀ n s, f (with_successors n s) = f n) →
  (∀ n p, f (with_predecessors n p) = f n) →
  node_agree f (cfg_nodes cfg) (cfg_nodes (add_edge cfg a b)).
Proof.
  intros Hs Hp. unfold add_edge. case_match; [|done]. simpl.
  etrans; apply node_agree_alter; intros n; [apply Hs|apply Hp].
Qed.

Lemma edges_loop_agree {A} (f : CFGNode → A) bc tbl cfg items :
  (∀ n s, f (with_successors n s) = f n) →
  (∀ n p, f (with_predecessors n p) = f n) →
  node_agree f (cfg_nodes cfg) (cfg_nodes (foldl (edges_step bc tbl) cfg items)).
Proof.
  intros Hs Hp.
  apply (foldl_ind (λ c, node_agree f (cfg_nodes cfg) (cfg_nodes c))); [done|].
  intros c [i inst] _ Hc. etrans; [exact Hc|]. unfold edges_step.
  case_match; [done|].
  apply (foldl_ind (λ c', node_agree f (cfg_nodes c) (cfg_nodes c'))); [done|].
  intros c' t _ Hc'. etrans; [exact Hc'|]. by apply add_edge_agree.
Qed.

Lemma build_cfg_lookup name bc o n :
  cfg_nodes (build_cfg name bc) !! o = Some n →
  ∃ i ins, owner bc o i ins
    ∧ (offset n, instruction n, is_leader n, basic_block_id n,
       exception_handlers n)
      = (o, ins, false, None, []).
Proof.
  unfold build_cfg. destruct bc as [|x bc']; [by simpl; rewrite lookup_empty|].
  intros Hn.
  set (f := λ n, (offset n, instruction n, is_leader n, basic_block_id n,
                  exception_handlers n)).
  destruct (node_agree_lookup f _ _ _ _
    (edges_loop_agree f _ _ _ _ (λ _ _, eq_refl) (λ _ _, eq_refl)) Hn)
    as (n0 & Hn0 & Heq).
  apply create_loop_owner in Hn0 as (i & ins & Hown & ->).
  exists i, ins. split; [done|]. exact (eq_sym Heq).
Qed.

(** X10. A node made by [BytecodeAnalyzer.build_cfg] is stored under its
    own offset, which is not negative; it holds the last instruction of
    the list that has this offset; it carries the defaults of the
    dataclass ([is_leader] false, no block id, no handlers); and all its
    successors and predecessors are nodes of the same CFG. *)
Theorem analyzer_cfg_closed (name : string) (bc : list instr) (o : Z)
    (n : CFGNode) :
  cfg_nodes (build_cfg name bc) !! o = Some n →
  offset n = o ∧ 0 ≤ o
  ∧ (∃ i, owner bc o i (instruction n))
  ∧ is_leader n = false ∧ basic_block_id n = None
  ∧ exception_handlers n = []
  ∧ successors n ⊆ dom (cfg_nodes (build_cfg name bc))
  ∧ predecessors n ⊆ dom (cfg_nodes (build_cfg name bc)).
Proof.
  intros Hn.
  destruct (build_cfg_lookup name bc o n Hn) as (i & ins & Hown & Heq).
  injection Heq as Ho Hi Hl Hb He.
  split_and!; try done.
  - by destruct Hown as (_ & _ & ? & _).
  - exists i. by rewrite Hi.
  - intros s Hs.
    assert (s ∈ succs_of (cfg_nodes (build_cfg name bc)) o) as Hs'
      by (unfold succs_of; by rewrite Hn).
    apply build_cfg_succs in Hs' as (_ & ? & _). by apply build_cfg_dom.
  - intros p Hp.
    assert (p ∈ preds_of (cfg_nodes (build_cfg name bc)) o) as Hp'
      by (unfold preds_of; by rewrite Hn).
    apply build_cfg_preds in Hp' as (? & _). by apply build_cfg_dom.
Qed.

(** [analyzer_cfg_closed] at the node at offset 4 of scenario C. *)
Lemma analyzer_cfg_closed_witness :
  offset (node_at (cfg_nodes (build_cfg "m" scenario_C_code)) 4) = 4 ∧ 0 ≤ 4
  ∧ (∃ i, owner scenario_C_code 4 i
            (instruction (node_at (cfg_nodes (build_cfg "m" scenario_C_code)) 4)))
  ∧ is_leader (node_at (cfg_nodes (build_cfg "m" scenario_C_code)) 4) = false
  ∧ basic_block_id (node_at (cfg_nodes (build_cfg "m" scenario_C_code)) 4) = None
  ∧ exception_handlers (node_at (cfg_nodes (build_cfg "m" scenario_C_code)) 4)
    = []
  ∧ successors (node_at (cfg_nodes (build_cfg "m" scenario_C_code)) 4)
    ⊆ dom (cfg_nodes (build_cfg "m" scenario_C_code))
  ∧ predecessors (node_at (cfg_nodes (build_cfg "m" scenario_C_code)) 4)
    ⊆ dom (cfg_nodes (build_cfg "m" scenario_C_code)).
Proof.
  apply (analyzer_cfg_closed "m" scenario_C_code 4).
  vm_compute. reflexivity.
Defined.

(** *** The two builders on a well-formed method *)

Lemma spec_successors_offsets bc i ins x :
  well_formed bc → x ∈ spec_successors bc i ins → is_offset_of bc x.
Proof.
  intros [Hvalid _] [Hnext|[k Hk]]%spec_successors_sources.
  - destruct (bc !! S i) as [nx|] eqn:Hnx; simplify_eq/=.
    destruct (Hvalid nx) as [Hpos Heq]; [by eapply list_elem_of_lookup_2|].
    split; [congruence|]. exists nx.
    split; [by eapply list_elem_of_lookup_2|congruence].
  - by eapply spec_resolve_is_offset.
Qed.

Lemma build_succs_spec bc a i ins x :
  bc !! i = Some ins → get_offset ins = a → well_formed bc → switch_form ins →
  x ∈ succs_of (build bc []) a ↔ x ∈ spec_successors bc i ins.
Proof.
  intros Hi Ha Hwf Hsf.
  pose proof Hwf as [Hvalid _].
  assert (is_offset_of bc a) as Hoff.
  { split; [|exists ins; split; [by eapply list_elem_of_lookup_2|done]].
    rewrite <- Ha. by apply Hvalid, list_elem_of_lookup_2 with i. }
  apply (build_dom bc []) in Hoff as [n Hn]%elem_of_dom.
  unfold succs_of. rewrite Hn. simpl.
  destruct (build_lookup bc [] a n Hn) as (i' & ins' & (Hi' & Ha' & _) & _ & _ & Hs & _).
  assert (i' = i) as -> by (eapply (well_formed_unique bc); [done..|congruence]).
  simplify_eq. rewrite Hs, covering_nil. simpl.
  rewrite union_empty_r_L, elem_of_list_to_set, index_table_eq.
  by apply elem_of_compute_successors.
Qed.

Lemma build_cfg_succs_spec name bc a i ins x :
  bc !! i = Some ins → get_offset ins = a → well_formed bc →
  x ∈ succs_of (cfg_nodes (build_cfg name bc)) a ↔ x ∈ spec_successors bc i ins.
Proof.
  intros Hi Ha Hwf. pose proof Hwf as [Hvalid _].
  assert (is_offset_of bc a) as Hoff.
  { split; [|exists ins; split; [by eapply list_elem_of_lookup_2|done]].
    rewrite <- Ha. by apply Hvalid, list_elem_of_lookup_2 with i. }
  rewrite build_cfg_succs. split.
  - intros (_ & _ & i' & ins' & Hin & Ha' & _ & Hx).
    apply elem_of_enumerate in Hin.
    assert (i' = i) as -> by (eapply (well_formed_unique bc); [done..|congruence]).
    simplify_eq. by apply elem_of_edge_targets.
  - intros Hx. split_and!; [done|by eapply spec_successors_offsets|].
    exists i, ins. split_and!; [by apply elem_of_enumerate|done| |].
    + by destruct Hoff.
    + by apply elem_of_edge_targets.
Qed.

(** X11. On a well-formed method in the input format,
    [CFGBuilder.build] without handlers and [BytecodeAnalyzer.build_cfg]
    build the same graph: the same keys, and under every key the same
    successor set and the same predecessor set. *)
Theorem builders_agree (name : string) (bc : list instr) :
  well_formed bc → Forall switch_form bc →
  same_edges (build bc []) (cfg_nodes (build_cfg name bc)).
Proof.
  intros Hwf Hsf.
  assert (dom (build bc []) = dom (cfg_nodes (build_cfg name bc))) as Hdom.
  { apply set_eq. intros o. by rewrite build_dom, build_cfg_dom. }
  assert (∀ a, succs_of (build bc []) a
               = succs_of (cfg_nodes (build_cfg name bc)) a) as Hsucc.
  { intros a. destruct (decide (a ∈ dom (build bc []))) as [Ha|Ha].
    - apply build_dom in Ha as (_ & ins & [i Hi]%list_elem_of_lookup_1 & Ho).
      apply set_eq. intros x.
      rewrite (build_succs_spec bc a i ins), (build_cfg_succs_spec name bc a i ins);
        try done.
      rewrite Forall_forall in Hsf. by apply Hsf, list_elem_of_lookup_2 with i.
    - unfold succs_of. rewrite (proj1 (not_elem_of_dom _ _) Ha).
      rewrite Hdom in Ha. by rewrite (proj1 (not_elem_of_dom _ _) Ha). }
  split; [done|]. intros b. split; [done|].
  apply set_eq. intros x.
  rewrite build_preds, build_cfg_preds, Hsucc, build_cfg_succs, !build_dom.
  naive_solver.
Qed.

(** [builders_agree] at [branch_method]. *)
Lemma builders_agree_witness :
  same_edges (build branch_method []) (cfg_nodes (build_cfg "m" branch_method)).
Proof.
  apply (builders_agree "m" branch_method).
  - apply well_formed_check; apply (bool_decide_unpack _); vm_compute; exact I.
  - repeat constructor; intros Heq; discriminate Heq.
Defined.

(** *** [CFG.add_edge] *)

Lemma add_edge_entry cfg a b : entry_offset (add_edge cfg a b) = entry_offset cfg.
Proof. unfold add_edge. by case_match. Qed.

Lemma add_edge_lookup cfg a b k :
  cfg_nodes (add_edge cfg a b) !! k = edge_update cfg a b k <$> cfg_nodes cfg !! k.
Proof.
  unfold add_edge, edge_update. case_match; simpl.
  - destruct (decide (k = b)) as [Hb|Hb], (decide (k = a)) as [Ha|Ha]; subst;
      rewrite ?lookup_alter_eq, ?lookup_alter_ne by done;
      rewrite ?lookup_alter_eq, ?lookup_alter_ne by done;
      by destruct (cfg_nodes cfg !! _).
  - by destruct (cfg_nodes cfg !! k).
Qed.

Lemma edge_update_dom cfg cfg' a b k n :
  dom (cfg_nodes cfg) = dom (cfg_nodes cfg') →
  edge_update cfg a b k n = edge_update cfg' a b k n.
Proof. intros Hd. unfold edge_update. by rewrite Hd. Qed.

Lemma CFGNode_eq (n n' : CFGNode) :
  offset n = offset n' → instruction n = instruction n' →
  successors n = successors n' → predecessors n = predecessors n' →
  is_leader n = is_leader n' → basic_block_id n = basic_block_id n' →
  exception_handlers n = exception_handlers n' → n = n'.
Proof. destruct n, n'; simpl; intros; by subst. Qed.

Lemma CFG_eq (c c' : CFG) :
  method_name c = method_name c' → entry_offset c = entry_offset c' →
  (∀ k, cfg_nodes c !! k = cfg_nodes c' !! k) → c = c'.
Proof.
  destruct c, c'; simpl; intros -> -> Hk. f_equal. by apply map_eq.
Qed.

Lemma add_edge_name cfg a b : method_name (add_edge cfg a b) = method_name cfg.
Proof. unfold add_edge. by case_match. Qed.

Lemma edge_update_idemp cfg a b k n :
  edge_update cfg a b k (edge_update cfg a b k n) = edge_update cfg a b k n.
Proof.
  unfold edge_update. case_match; [|done].
  repeat case_decide; apply CFGNode_eq; simpl; try done; set_solver.
Qed.

Lemma edge_update_comm cfg a b a' b' k n :
  edge_update cfg a' b' k (edge_update cfg a b k n)
  = edge_update cfg a b k (edge_update cfg a' b' k n).
Proof.
  unfold edge_update. repeat case_match; try done;
    apply CFGNode_eq; simpl; try done; set_solver.
Qed.

(** X12. [CFG.add_edge] is idempotent, two calls commute, and a call
    one of whose ends is not a node changes nothing. *)
Theorem add_edge_algebra (cfg : CFG) (a b a' b' : Z) :
  add_edge (add_edge cfg a b) a b = add_edge cfg a b
  ∧ add_edge (add_edge cfg a b) a' b' = add_edge (add_edge cfg a' b') a b
  ∧ (a ∉ dom (cfg_nodes cfg) ∨ b ∉ dom (cfg_nodes cfg) →
     add_edge cfg a b = cfg).
Proof.
  split_and!.
  - apply CFG_eq; rewrite ?add_edge_name, ?add_edge_entry; try done.
    intros k. rewrite !add_edge_lookup, <- option_fmap_compose.
    apply option_fmap_ext. intros n. simpl.
    rewrite (edge_update_dom (add_edge cfg a b) cfg) by apply add_edge_dom.
    apply edge_update_idemp.
  - apply CFG_eq; rewrite ?add_edge_name, ?add_edge_entry; try done.
    intros k. rewrite !add_edge_lookup, <- !option_fmap_compose.
    apply option_fmap_ext. intros n. simpl.
    rewrite (edge_update_dom (add_edge cfg a b) cfg) by apply add_edge_dom.
    rewrite (edge_update_dom (add_edge cfg a' b') cfg) by apply add_edge_dom.
    apply edge_update_comm.
  - intros Hno. unfold add_edge.
    destruct Hno as [H1|H1]; rewrite (bool_decide_eq_false_2 _ H1);
      by rewrite ?andb_false_r.
Qed.

(** ** Reachability and dead code *)

(** *** Reachability in a CFG *)

Lemma reachable_node_dom c x : reachable_node c x → x ∈ dom (cfg_nodes c).
Proof.
  intros [He Hrtc]. apply rtc_inv_r in Hrtc as [<-|(y & _ & _ & ?)]; done.
Qed.

Lemma reachable_node_step c a b :
  reachable_node c a → cfg_edge c a b → reachable_node c b.
Proof. intros [He Hrtc] Hab. split; [done|]. by eapply rtc_r. Qed.

(** X13. [get_reachable_nodes] returns, and its result is the least
    set that holds the entry offset and is closed under successor edges
    that end in a node; the entry offset is in it exactly when it is a
    node; together with the result of [get_unreachable_nodes] it partitions
    the nodes.  When the entry offset is not a node, nothing is
    reachable. *)
Theorem reachable_nodes_closure (c : CFG) :
  ∃ r u,
    get_reachable_nodes c = Some r ∧ get_unreachable_nodes c = Some u
    ∧ r ∪ u = dom (cfg_nodes c) ∧ r ## u
    ∧ (entry_offset c ∈ r ↔ entry_offset c ∈ dom (cfg_nodes c))
    ∧ (entry_offset c ∉ dom (cfg_nodes c) → r = ∅)
    ∧ (∀ a b, a ∈ r → cfg_edge c a b → b ∈ r)
    ∧ (∀ S : gset Z, entry_offset c ∈ S →
         (∀ a b, a ∈ S → cfg_edge c a b → b ∈ S) → r ⊆ S).
Proof.
  destruct (get_reachable_nodes_spec c) as (r & Hr & Hspec).
  exists r, (dom (cfg_nodes c) ∖ r).
  assert (r ⊆ dom (cfg_nodes c)) as Hsub.
  { intros x Hx%Hspec. by apply reachable_node_dom. }
  split_and!; [done| | | | | | |].
  - unfold get_unreachable_nodes. by rewrite Hr.
  - apply set_eq. intros x. rewrite elem_of_union, elem_of_difference.
    destruct (decide (x ∈ r)); naive_solver.
  - set_solver.
  - rewrite Hspec. split; [by intros [? _]|]. intros He. by split.
  - intros He. apply set_eq. intros x. rewrite Hspec.
    split; [by intros [? _]|by intros ?%not_elem_of_empty].
  - intros a b Ha%Hspec Hab. apply Hspec. by eapply reachable_node_step.
  - intros S He Hcl x [_ Hrtc]%Hspec.
    induction Hrtc as [|a b x Hab _ IH]; [done|].
    apply IH. by eapply Hcl.
Qed.

(** *** The entry offset of [build_cfg] *)

Lemma build_cfg_entry name bc : entry_offset (build_cfg name bc) = 0.
Proof.
  unfold build_cfg. destruct bc as [|x bc']; [done|].
  apply (foldl_ind (λ c, entry_offset c = 0)).
  - apply (foldl_ind (λ c, entry_offset c = 0)); [done|].
    intros c inst _ Hc. unfold create_step. by case_decide.
  - intros c [i inst] _ Hc. unfold edges_step. case_match; [done|].
    apply (foldl_ind (λ c', entry_offset c' = 0)); [done|].
    intros c' t _ Hc'. by rewrite add_edge_entry.
Qed.

(** X14. The entry offset of a CFG made by [build_cfg] is 0, whatever
    the method.  When no instruction has offset 0, no node is reachable
    and every node is reported unreachable; when one has, offset 0 is
    reachable. *)
Theorem analyzer_entry_zero (name : string) (bc : list instr) :
  entry_offset (build_cfg name bc) = 0
  ∧ (¬ is_offset_of bc 0 →
     get_reachable_nodes (build_cfg name bc) = Some ∅
     ∧ get_unreachable_nodes (build_cfg name bc)
       = Some (dom (cfg_nodes (build_cfg name bc))))
  ∧ (is_offset_of bc 0 →
     ∃ r, get_reachable_nodes (build_cfg name bc) = Some r ∧ 0 ∈ r).
Proof.
  split; [apply build_cfg_entry|].
  destruct (get_reachable_nodes_spec (build_cfg name bc)) as (r & Hr & Hspec).
  split.
  - intros Hno. assert (r = ∅) as ->.
    { apply set_eq. intros x. rewrite Hspec.
      split; [|by intros ?%not_elem_of_empty].
      intros [He _]. rewrite build_cfg_entry, build_cfg_dom in He. done. }
    split; [done|]. unfold get_unreachable_nodes. rewrite Hr. simpl.
    by rewrite difference_empty_L.
  - intros H0. exists r. split; [done|]. apply Hspec.
    split; rewrite build_cfg_entry; [by apply build_cfg_dom|done].
Qed.

(** *** Methods without unconditional transfers *)

Lemma fallthrough_edge name bc i ins nx :
  well_formed bc → bc !! i = Some ins → bc !! S i = Some nx →
  i_opr ins ∉ ["goto"; "return"; "throw"; "tableswitch"; "lookupswitch"] →
  cfg_edge (build_cfg name bc) (get_offset ins) (get_offset nx).
Proof.
  intros Hwf Hi Hnx Hopr. pose proof Hwf as [Hvalid _].
  destruct (Hvalid ins) as [Hpos _]; [by eapply list_elem_of_lookup_2|].
  destruct (Hvalid nx) as [Hposn Hoffn]; [by eapply list_elem_of_lookup_2|].
  assert (is_offset_of bc (get_offset ins)) as Ha.
  { split; [done|]. exists ins. split; [by eapply list_elem_of_lookup_2|done]. }
  assert (is_offset_of bc (get_offset nx)) as Hb.
  { split; [done|]. exists nx. split; [by eapply list_elem_of_lookup_2|done]. }
  split; [|by apply build_cfg_dom].
  apply build_cfg_succs. split_and!; [done..|].
  exists i, ins. split_and!; [by apply elem_of_enumerate|done..|].
  assert (next_offset bc i = Some (get_offset nx)) as Hnext.
  { unfold next_offset. by rewrite Hnx. }
  unfold edge_targets. rewrite Hnext.
  rewrite (bool_decide_eq_false_2 (i_opr ins = "goto")) by set_solver.
  rewrite (opr_in_false _ ["return"; "throw"]) by set_solver.
  rewrite (opr_in_false _ ["tableswitch"; "lookupswitch"]) by set_solver.
  case_match; rewrite ?elem_of_app; [right|]; simpl; left.
Qed.

(** X15. In a well-formed method that starts at offset 0 and in which
    no instruction other than the last is a [goto], a [return], a [throw]
    or a switch, the CFG made by [build_cfg] has no unreachable node. *)
Theorem fallthrough_no_dead_code (name : string) (bc : list instr) :
  well_formed bc →
  get_offset <$> head bc = Some 0 →
  (∀ i ins, bc !! i = Some ins → (S i < length bc)%nat →
     i_opr ins ∉ ["goto"; "return"; "throw"; "tableswitch"; "lookupswitch"]) →
  get_unreachable_nodes (build_cfg name bc) = Some ∅.
Proof.
  intros Hwf Hhd Hopr.
  assert (∀ i ins, bc !! i = Some ins →
            reachable_node (build_cfg name bc) (get_offset ins)) as Hall.
  { induction i as [|i IH]; intros ins Hi.
    - rewrite head_lookup, Hi in Hhd. simplify_eq/=. rewrite Hhd.
      split; rewrite build_cfg_entry; [|done]. apply build_cfg_dom.
      split; [done|]. exists ins. split; [by eapply list_elem_of_lookup_2|done].
    - destruct (lookup_lt_is_Some_2 bc i) as [prev Hprev].
      { apply lookup_lt_Some in Hi. lia. }
      eapply reachable_node_step; [by apply (IH prev)|].
      apply (fallthrough_edge name bc i prev ins); [done..|].
      apply (Hopr i prev Hprev). by apply lookup_lt_Some in Hi. }
  destruct (get_unreachable_nodes_spec (build_cfg name bc)) as (u & -> & Hu).
  f_equal. apply set_eq. intros x. rewrite Hu.
  split; [|by intros ?%not_elem_of_empty].
  intros [(_ & ins & [i Hi]%list_elem_of_lookup_1 & <-)%build_cfg_dom Hnot].
  destruct Hnot. by eapply Hall.
Qed.

(** [fallthrough_no_dead_code] at [branch_method]. *)
Lemma fallthrough_no_dead_code_witness :
  get_unreachable_nodes (build_cfg "m" branch_method) = Some ∅.
Proof.
  apply (fallthrough_no_dead_code "m" branch_method).
  - apply well_formed_check; apply (bool_decide_unpack _); vm_compute; exact I.
  - reflexivity.
  - intros i ins Hi Hlt. simpl in Hlt.
    destruct i as [|[|[|i]]]; [| | |lia]; simpl in Hi; injection Hi as <-;
      apply (bool_decide_unpack _); vm_compute; exact I.
Defined.

(** *** Reachability in the call graph *)

Lemma call_edge_callee g a b : call_edge g a b → b ∈ callees g.
Proof.
  intros (s & Hs & Hb). unfold callees. apply elem_of_union_list.
  exists s. split; [|done]. apply list_elem_of_fmap. exists (a, s).
  split; [done|]. by apply elem_of_map_to_list.
Qed.

(** X16. [get_reachable_from] returns, and its result is the least
    set that includes the entry points and is closed under the recorded
    calls.  It includes every entry point, registered or not; it holds
    entry points and recorded callees only; it is a fixed point of the
    function; and it grows with the set of entry points. *)
Theorem reachable_from_closure (g : CallGraph) (eps : gset string) :
  ∃ r, get_reachable_from g eps = Some r
       ∧ eps ⊆ r ∧ r ⊆ eps ∪ callees g
       ∧ (∀ a b, a ∈ r → call_edge g a b → b ∈ r)
       ∧ (∀ S : gset string, eps ⊆ S →
            (∀ a b, a ∈ S → call_edge g a b → b ∈ S) → r ⊆ S)
       ∧ get_reachable_from g r = Some r
       ∧ (∀ eps' r', eps ⊆ eps' → get_reachable_from g eps' = Some r' → r ⊆ r').
Proof.
  destruct (get_reachable_from_spec g eps) as (r & Hr & Hspec).
  exists r. split; [done|].
  assert (∀ S : gset string, eps ⊆ S →
            (∀ a b, a ∈ S → call_edge g a b → b ∈ S) → r ⊆ S) as Hleast.
  { intros S Heps Hcl x (e & He & Hrtc)%Hspec.
    assert (e ∈ S) as HeS by (by apply Heps). clear He.
    induction Hrtc as [|a b x Hab _ IH]; [done|]. apply IH. by eapply Hcl. }
  assert (∀ a b, a ∈ r → call_edge g a b → b ∈ r) as Hclosed.
  { intros a b (e & He & Hrtc)%Hspec Hab. apply Hspec. exists e.
    split; [done|]. by eapply rtc_r. }
  assert (eps ⊆ r) as Heps.
  { intros e He. apply Hspec. exists e. split; [done|constructor]. }
  split_and!; [done| |done|done| |].
  - apply Hleast; [set_solver|]. intros a b _ Hab%call_edge_callee. set_solver.
  - destruct (get_reachable_from_spec g r) as (r2 & Hr2 & Hspec2).
    rewrite Hr2. f_equal. apply set_eq. intros x. rewrite Hspec2. split.
    + intros (e & He & Hrtc).
      induction Hrtc as [|a b x Hab _ IH]; [done|]. apply IH. by eapply Hclosed.
    + intros Hx. exists x. split; [done|constructor].
  - intros eps' r' Hsub Hr'.
    destruct (get_reachable_from_spec g eps') as (r2 & Hr2 & Hspec2).
    rewrite Hr' in Hr2. simplify_eq.
    intros x (e & He & Hrtc)%Hspec. apply Hspec2. exists e. split; [|done].
    by apply Hsub.
Qed.

(** *** [extract_calls] *)

Lemma add_call_edge g caller callee x y :
  call_edge (add_call g caller callee) x y
  ↔ call_edge g x y ∨ (x = caller ∧ y = callee).
Proof.
  unfold call_edge, add_call. simpl.
  destruct (decide (caller = x)) as [->|Hne].
  - rewrite lookup_insert_eq. split.
    + intros (s & [= <-] & Hy). apply elem_of_union in Hy as [Hy|Hy].
      * left. destruct (calls g !! x) as [s|]; simpl in Hy; [eauto|].
        by apply not_elem_of_empty in Hy.
      * right. by apply elem_of_singleton in Hy.
    + intros [(s & Hs & Hy)|[_ ->]]; eexists; (split; [done|]).
      * rewrite Hs. simpl. set_solver.
      * set_solver.
  - rewrite lookup_insert_ne by done. naive_solver.
Qed.

Lemma extract_calls_edges g caller bc x y :
  call_edge (extract_calls g caller bc) x y
  ↔ call_edge g x y
    ∨ (x = caller ∧ ∃ inst, inst ∈ bc ∧ records_call inst y).
Proof.
  unfold extract_calls, records_call. revert g.
  induction bc as [|inst bc IH]; intros g; cbn [foldl].
  - split; [by left|]. intros [?|(_ & inst & Hin & _)]; [done|].
    by apply elem_of_nil in Hin.
  - rewrite IH. setoid_rewrite elem_of_cons.
    destruct (bool_decide (i_opr inst = "invoke")) eqn:Hop.
    + apply bool_decide_eq_true in Hop.
      destruct (bool_decide (i_method_class inst ≠ "")
                && bool_decide (i_method_name inst ≠ "")) eqn:Hc.
      * apply andb_true_iff in Hc
          as [Hc1%bool_decide_eq_true Hc2%bool_decide_eq_true].
        rewrite add_call_edge. split.
        -- intros [[?|[-> ->]]|(-> & i' & ? & ?)]; [by left|right..].
           ++ split; [done|]. exists inst. split_and!; try done. by left.
           ++ split; [done|]. exists i'. split; [by right|done].
        -- intros [?|(-> & i' & [->|?] & ? & ? & ? & ->)]; [by left; left| |].
           ++ left. by right.
           ++ right. split; [done|]. exists i'. done.
      * apply andb_false_iff in Hc. rewrite !bool_decide_eq_false in Hc.
        split.
        -- intros [?|(-> & i' & ? & ?)]; [by left|right].
           split; [done|]. exists i'. split; [by right|done].
        -- intros [?|(-> & i' & [->|?] & ? & ? & ? & ->)]; [by left| |].
           ++ exfalso. naive_solver.
           ++ right. split; [done|]. exists i'. done.
    + apply bool_decide_eq_false in Hop. split.
      * intros [?|(-> & i' & ? & ?)]; [by left|right].
        split; [done|]. exists i'. split; [by right|done].
      * intros [?|(-> & i' & [->|?] & ? & ? & ? & ->)]; [by left|done|].
        right. split; [done|]. exists i'. done.
Qed.

(** X17. [extract_calls] registers no method, keeps every recorded
    call, and adds exactly the calls from [caller] to [class.name] for the
    [invoke] instructions of the bytecode whose class name and method name
    are both non-empty. *)
Theorem extract_calls_spec (g : CallGraph) (caller : string)
    (bc : list instr) :
  all_methods (extract_calls g caller bc) = all_methods g
  ∧ ∀ x y, call_edge (extract_calls g caller bc) x y
           ↔ call_edge g x y
             ∨ (x = caller
                ∧ ∃ inst, inst ∈ bc ∧ i_opr inst = "invoke"
                          ∧ i_method_class inst ≠ "" ∧ i_method_name inst ≠ ""
                          ∧ y = full_name (i_method_class inst)
                                  (i_method_name inst)).
Proof.
  split; [apply extract_calls_all_methods|]. apply extract_calls_edges.
Qed.

(** ** The result of the analysis *)

(** *** Sums over the values of a dictionary *)

Lemma sum_values_insert {A} (f : A → nat) (m : gmap string A) k a :
  m !! k = None →
  sum_list (f <$> (map_to_list (<[k := a]> m)).*2)
  = (f a + sum_list (f <$> (map_to_list m).*2))%nat.
Proof. intros Hk. by rewrite map_to_list_insert. Qed.

Lemma sum_values_le {A B} (f : A → nat) (g : B → nat)
    (D : gmap string A) (M : gmap string B) :
  (∀ k a, D !! k = Some a → ∃ b, M !! k = Some b ∧ (f a ≤ g b)%nat) →
  (sum_list (f <$> (map_to_list D).*2) ≤ sum_list (g <$> (map_to_list M).*2))%nat.
Proof.
  revert M. induction D as [|k a D Hk IH] using map_ind; intros M Hle.
  - rewrite map_to_list_empty. simpl. lia.
  - destruct (Hle k a) as (b & Hb & Hab); [by rewrite lookup_insert_eq|].
    rewrite <- (insert_delete_id M k b Hb).
    rewrite !sum_values_insert by (done || apply lookup_delete_eq).
    specialize (IH (delete k M)).
    assert (sum_list (f <$> (map_to_list D).*2)
            ≤ sum_list (g <$> (map_to_list (delete k M)).*2))%nat; [|lia].
    apply IH. intros k' a' Hk'.
    assert (k ≠ k') as Hne by (intros ->; congruence).
    destruct (Hle k' a') as (b' & Hb' & Hab'); [by rewrite lookup_insert_ne|].
    exists b'. by rewrite lookup_delete_ne.
Qed.

Lemma sum_values_zero {A} (f : A → nat) (D : gmap string A) :
  (∀ k a, D !! k = Some a → (0 < f a)%nat) →
  sum_list (f <$> (map_to_list D).*2) = 0%nat ↔ D = ∅.
Proof.
  intros Hpos. split; [|by intros ->; rewrite map_to_list_empty].
  induction D as [|k a D Hk IH] using map_ind; [done|].
  rewrite sum_values_insert by done.
  pose proof (Hpos k a (lookup_insert_eq _ _ _)). lia.
Qed.

(** *** The result of [analyze_class] *)

Lemma unreachable_nodes_subset c u :
  get_unreachable_nodes c = Some u → u ⊆ dom (cfg_nodes c).
Proof.
  unfold get_unreachable_nodes.
  destruct (get_reachable_nodes c); intros; simplify_eq/=. set_solver.
Qed.

Lemma analyze_class_result self methods cn :
  ∃ reachable dead,
    get_reachable_from (call_graph (foldl (analyze_method cn) self methods))
      (get_entry_points methods cn) = Some reachable
    ∧ (∀ m, m ∈ reachable
            ↔ reachable_method (call_graph (foldl (analyze_method cn) self methods))
                (get_entry_points methods cn) m)
    ∧ (∀ m s, dead !! m = Some s
              ↔ m ∈ reachable
                ∧ ∃ c, cfgs (foldl (analyze_method cn) self methods) !! m = Some c
                       ∧ get_unreachable_nodes c = Some s ∧ s ≠ ∅)
    ∧ analyze_class self methods cn
      = Some (foldl (analyze_method cn) self methods,
              {| r_cfgs := cfgs (foldl (analyze_method cn) self methods);
                 r_call_graph :=
                   call_graph (foldl (analyze_method cn) self methods);
                 entry_points := get_entry_points methods cn;
                 unreachable_methods :=
                   all_methods (call_graph (foldl (analyze_method cn) self methods))
                   ∖ reachable;
                 dead_instructions := dead;
                 total_instructions :=
                   sum_list ((λ c, size (cfg_nodes c)) <$>
                     (map_to_list
                        (cfgs (foldl (analyze_method cn) self methods))).*2) |}).
Proof.
  set (self' := foldl (analyze_method cn) self methods).
  destruct (get_reachable_from_spec (call_graph self')
              (get_entry_points methods cn)) as (r & Hr & Hspec).
  destruct (dead_loop_spec r (map_to_list (cfgs self'))) as (dead & Hd & Hdead).
  { apply NoDup_fst_map_to_list. }
  exists r, dead. split_and!; [done|done| |].
  - intros m s. rewrite Hdead. by setoid_rewrite elem_of_map_to_list.
  - unfold analyze_class. fold self'. rewrite Hr. simpl. rewrite Hd. done.
Qed.

(** X18. In the result of [analyze_class],
    [get_dead_instruction_count] is at most [total_instructions], which is
    the number of nodes of all the CFGs that the analyzer holds after the
    call; and the count is 0 exactly when [dead_instructions] is empty. *)
Theorem dead_count_bounded (self : BytecodeAnalyzer)
    (methods : list method_json) (cn : string) :
  ∃ self' res,
    analyze_class self methods cn = Some (self', res)
    ∧ (get_dead_instruction_count res ≤ total_instructions res)%nat
    ∧ (get_dead_instruction_count res = 0%nat ↔ dead_instructions res = ∅)
    ∧ total_instructions res
      = sum_list ((λ c, size (cfg_nodes c)) <$> (map_to_list (cfgs self')).*2).
Proof.
  destruct (analyze_class_result self methods cn)
    as (r & dead & Hr & Hspec & Hdead & ->).
  eexists _, _. split; [done|]. unfold get_dead_instruction_count. simpl.
  split_and!; [| |done].
  - apply sum_values_le. intros m s (_ & c & Hc & Hu & _)%Hdead.
    exists c. split; [done|]. rewrite <- size_dom.
    by apply subseteq_size, unreachable_nodes_subset.
  - apply sum_values_zero. intros m s (_ & c & _ & _ & Hne)%Hdead.
    assert (size s ≠ 0%nat); [|lia].
    apply size_non_empty_iff. by intros ?%leibniz_equiv.
Qed.

(** X19. In the result of [analyze_class], every entry point is a
    registered method, the unreachable methods are registered methods, no
    entry point and no method with dead instructions is reported
    unreachable, and every method with dead instructions has a CFG. *)
Theorem entry_points_not_unreachable (self : BytecodeAnalyzer)
    (methods : list method_json) (cn : string) :
  ∃ self' res,
    analyze_class self methods cn = Some (self', res)
    ∧ entry_points res ⊆ all_methods (r_call_graph res)
    ∧ unreachable_methods res ⊆ all_methods (r_call_graph res)
    ∧ entry_points res ## unreachable_methods res
    ∧ dom (dead_instructions res) ## unreachable_methods res
    ∧ dom (dead_instructions res) ⊆ dom (r_cfgs res).
Proof.
  destruct (analyze_class_result self methods cn)
    as (r & dead & Hr & Hspec & Hdead & ->).
  eexists _, _. split; [done|]. simpl.
  assert (get_entry_points methods cn ⊆ r) as Heps.
  { intros e He. apply Hspec. exists e. split; [done|constructor]. }
  split_and!.
  - intros e (m & Hm & _ & ->)%get_entry_points_spec.
    apply analyze_methods_all_methods. right. eauto.
  - set_solver.
  - set_solver.
  - intros m [s Hs]%elem_of_dom Hm. apply Hdead in Hs as [? _]. set_solver.
  - intros m [s Hs]%elem_of_dom. apply Hdead in Hs as (_ & c & Hc & _).
    apply elem_of_dom. eauto.
Qed.

(** *** The analyzer after the method loop *)

Lemma build_cfg_name name bc : method_name (build_cfg name bc) = name.
Proof.
  unfold build_cfg. destruct bc as [|x bc']; [done|].
  apply (foldl_ind (λ c, method_name c = name)).
  - apply (foldl_ind (λ c, method_name c = name)); [done|].
    intros c inst _ Hc. unfold create_step. by case_decide.
  - intros c [i inst] _ Hc. unfold edges_step. case_match; [done|].
    apply (foldl_ind (λ c', method_name c' = name)); [done|].
    intros c' t _ Hc'. unfold add_edge. by case_match.
Qed.

Lemma analyze_methods_cfgs cn self methods k c :
  cfgs (foldl (analyze_method cn) self methods) !! k = Some c →
  cfgs self !! k = Some c
  ∨ ∃ m code, m ∈ methods ∧ m_code m = Some code
              ∧ k = full_name cn (get_name m)
              ∧ c = build_cfg k (c_bytecode code).
Proof.
  induction methods as [|m methods IH] using rev_ind; [by left|].
  rewrite foldl_app. cbn [foldl]. unfold analyze_method at 1.
  setoid_rewrite elem_of_app. setoid_rewrite list_elem_of_singleton.
  destruct (m_code m) as [code|] eqn:Hcode; simpl.
  - destruct (decide (full_name cn (get_name m) = k)) as [<-|Hne].
    + rewrite lookup_insert_eq. intros [= <-]. right. exists m, code. eauto.
    + rewrite lookup_insert_ne by done.
      intros [?|(m' & code' & ? & ?)]%IH; [by left|right]. exists m', code'. eauto.
  - intros [?|(m' & code' & ? & ?)]%IH; [by left|right]. exists m', code'. eauto.
Qed.

Lemma analyze_methods_cfgs_dom cn self methods :
  dom (cfgs self) ⊆ dom (cfgs (foldl (analyze_method cn) self methods)).
Proof.
  apply (foldl_ind (λ s, dom (cfgs self) ⊆ dom (cfgs s))); [done|].
  intros s m _ Hs. unfold analyze_method. destruct (m_code m); simpl; [|done].
  rewrite dom_insert_L. set_solver.
Qed.

Lemma analyze_methods_last cn self methods m code :
  m ∈ methods → m_code m = Some code →
  (∀ m' code', m' ∈ methods → m_code m' = Some code' →
               get_name m' = get_name m → code' = code) →
  cfgs (foldl (analyze_method cn) self methods) !! full_name cn (get_name m)
  = Some (build_cfg (full_name cn (get_name m)) (c_bytecode code)).
Proof.
  induction methods as [|x methods IH] using rev_ind;
    [by intros ?%elem_of_nil|].
  intros Hin Hcode Huniq. rewrite foldl_app. cbn [foldl].
  unfold analyze_method at 1.
  destruct (m_code x) as [cx|] eqn:Hcx; simpl.
  - destruct (decide (get_name x = get_name m)) as [Heq|Hne].
    + rewrite Heq, lookup_insert_eq. do 3 f_equal.
      apply (Huniq x cx); [|done..]. apply elem_of_app. right. left.
    + rewrite lookup_insert_ne by (by intros ?%full_name_inj).
      apply elem_of_app in Hin as [Hin|Hin%list_elem_of_singleton];
        [|congruence].
      apply IH; [done..|]. intros m' code' Hm'. apply Huniq.
      apply elem_of_app. by left.
  - apply elem_of_app in Hin as [Hin|Hin%list_elem_of_singleton];
      [|congruence].
    apply IH; [done..|]. intros m' code' Hm'. apply Huniq.
    apply elem_of_app. by left.
Qed.

Lemma analyze_methods_calls cn self methods x y :
  call_edge (call_graph (foldl (analyze_method cn) self methods)) x y
  ↔ call_edge (call_graph self) x y
    ∨ ∃ m code inst, m ∈ methods ∧ m_code m = Some code
                     ∧ x = full_name cn (get_name m)
                     ∧ inst ∈ c_bytecode code ∧ records_call inst y.
Proof.
  induction methods as [|m methods IH] using rev_ind.
  - split; [by left|]. intros [?|(m & ? & ? & ?%elem_of_nil & _)]; done.
  - rewrite foldl_app. cbn [foldl]. unfold analyze_method at 1.
    setoid_rewrite elem_of_app. setoid_rewrite list_elem_of_singleton.
    destruct (m_code m) as [code|] eqn:Hcode; simpl.
    + rewrite extract_calls_edges. unfold call_edge at 1. simpl.
      fold (call_edge (call_graph (foldl (analyze_method cn) self methods)) x y).
      rewrite IH. split.
      * intros [[?|(m' & c' & i' & ? & ?)]|(-> & inst & ? & ?)];
          [by left|right..].
        -- exists m', c', i'. split; [by left|done].
        -- exists m, code, inst. split_and!; [by right|done..].
      * intros [?|(m' & c' & i' & [?|Hm] & Hc & Hx & Hi & Hr)];
          [by left; left| |].
        -- left. right. exists m', c', i'. done.
        -- subst m'. rewrite Hcode in Hc. injection Hc as <-.
           right. split; [done|]. exists i'. done.
    + unfold call_edge at 1. simpl.
      fold (call_edge (call_graph (foldl (analyze_method cn) self methods)) x y).
      rewrite IH. split.
      * intros [?|(m' & c' & i' & ? & ?)]; [by left|right].
        exists m', c', i'. split; [by left|done].
      * intros [?|(m' & c' & i' & [?|Hm] & Hc & ?)]; [by left| |].
        -- right. exists m', c', i'. done.
        -- subst m'. congruence.
Qed.

(** X20. The analyzer after [analyze_class].  It keeps the keys of the
    CFGs it had; a CFG that it holds was there before the call or is
    [build_cfg] of the code of a declared method, under that method's full
    name; a declared method with code, whose name is shared only by methods
    with the same code, has the CFG of its code; and the recorded calls are
    the earlier ones and those that [extract_calls] records for the
    declared methods with code. *)
Theorem analyze_class_state (self : BytecodeAnalyzer)
    (methods : list method_json) (cn : string) :
  ∃ self' res,
    analyze_class self methods cn = Some (self', res)
    ∧ r_cfgs res = cfgs self' ∧ r_call_graph res = call_graph self'
    ∧ dom (cfgs self) ⊆ dom (cfgs self')
    ∧ (∀ k c, cfgs self' !! k = Some c →
         cfgs self !! k = Some c
         ∨ ∃ m code, m ∈ methods ∧ m_code m = Some code
                     ∧ k = full_name cn (get_name m)
                     ∧ c = build_cfg k (c_bytecode code))
    ∧ (∀ m code, m ∈ methods → m_code m = Some code →
         (∀ m' code', m' ∈ methods → m_code m' = Some code' →
                      get_name m' = get_name m → code' = code) →
         cfgs self' !! full_name cn (get_name m)
         = Some (build_cfg (full_name cn (get_name m)) (c_bytecode code)))
    ∧ (∀ x y, call_edge (call_graph self') x y
              ↔ call_edge (call_graph self) x y
                ∨ ∃ m code inst, m ∈ methods ∧ m_code m = Some code
                                 ∧ x = full_name cn (get_name m)
                                 ∧ inst ∈ c_bytecode code
                                 ∧ records_call inst y).
Proof.
  destruct (analyze_class_result self methods cn)
    as (r & dead & _ & _ & _ & ->).
  eexists _, _. split; [done|]. simpl. split_and!; [done|done| | | |].
  - apply analyze_methods_cfgs_dom.
  - apply analyze_methods_cfgs.
  - apply analyze_methods_last.
  - apply analyze_methods_calls.
Qed.

(** *** Analysing a class again *)

Lemma add_method_known g name :
  name ∈ all_methods g → add_method g name = g.
Proof.
  intros Hin. destruct g as [c ms]. unfold add_method. simpl in *.
  f_equal. set_solver.
Qed.

Lemma add_call_known g caller callee :
  call_edge g caller callee → add_call g caller callee = g.
Proof.
  intros (s & Hs & Hin). destruct g as [c ms]. unfold add_call. simpl in *.
  f_equal. rewrite Hs. simpl.
  replace (s ∪ {[callee]}) with s by set_solver. by apply insert_id.
Qed.

Lemma extract_calls_known g caller bc :
  (∀ inst y, inst ∈ bc → records_call inst y → call_edge g caller y) →
  extract_calls g caller bc = g.
Proof.
  intros Hknown. unfold extract_calls.
  induction bc as [|inst bc IH]; cbn [foldl]; [done|].
  assert ((if bool_decide (i_opr inst = "invoke") then
             if bool_decide (i_method_class inst ≠ "")
                && bool_decide (i_method_name inst ≠ "")
             then add_call g caller
                    (full_name (i_method_class inst) (i_method_name inst))
             else g
           else g) = g) as ->.
  { destruct (bool_decide (i_opr inst = "invoke")) eqn:Hop; [|done].
    destruct (bool_decide (i_method_class inst ≠ "")
              && bool_decide (i_method_name inst ≠ "")) eqn:Hc; [|done].
    apply bool_decide_eq_true in Hop.
    apply andb_true_iff in Hc as [Hc1%bool_decide_eq_true Hc2%bool_decide_eq_true].
    apply add_call_known, (Hknown inst); [left|done]. }
  apply IH. intros inst' y Hin. apply Hknown. by right.
Qed.

Lemma analyze_methods_call_graph_known cn s methods :
  (∀ m, m ∈ methods → full_name cn (get_name m) ∈ all_methods (call_graph s)) →
  (∀ m code inst y, m ∈ methods → m_code m = Some code →
     inst ∈ c_bytecode code → records_call inst y →
     call_edge (call_graph s) (full_name cn (get_name m)) y) →
  call_graph (foldl (analyze_method cn) s methods) = call_graph s.
Proof.
  revert s. induction methods as [|m methods IH]; intros s Hms Hcalls;
    cbn [foldl]; [done|].
  assert (call_graph (analyze_method cn s m) = call_graph s) as Hstep.
  { unfold analyze_method.
    rewrite add_method_known by (apply Hms; left).
    destruct (m_code m) as [code|] eqn:Hcode; simpl; [|done].
    apply extract_calls_known. intros inst y Hin Hrec.
    apply (Hcalls m code inst y); [left|done..]. }
  rewrite IH; [done|rewrite Hstep..].
  - intros m' Hm'. apply Hms. by right.
  - intros m' code inst y Hm'. apply Hcalls. by right.
Qed.

Lemma analyze_method_cfgs cn s m k :
  cfgs (analyze_method cn s m) !! k
  = match m_code m with
    | Some code =>
        if decide (full_name cn (get_name m) = k)
        then Some (build_cfg (full_name cn (get_name m)) (c_bytecode code))
        else cfgs s !! k
    | None => cfgs s !! k
    end.
Proof.
  unfold analyze_method. destruct (m_code m); simpl; [|done].
  case_decide as Hk; [subst; apply lookup_insert_eq|by apply lookup_insert_ne].
Qed.

Lemma analyze_methods_cfgs_again cn s s0 methods k :
  cfgs (foldl (analyze_method cn) s methods) !! k
  = cfgs (foldl (analyze_method cn) s0 methods) !! k
  ∨ (cfgs (foldl (analyze_method cn) s methods) !! k = cfgs s !! k
     ∧ cfgs (foldl (analyze_method cn) s0 methods) !! k = cfgs s0 !! k).
Proof.
  induction methods as [|m methods IH] using rev_ind; [by right|].
  rewrite !foldl_app. cbn [foldl]. rewrite !analyze_method_cfgs.
  destruct (m_code m) as [code|]; [|done].
  case_decide; [by left|done].
Qed.

Lemma analyze_methods_again cn self methods :
  foldl (analyze_method cn) (foldl (analyze_method cn) self methods) methods
  = foldl (analyze_method cn) self methods.
Proof.
  set (self' := foldl (analyze_method cn) self methods).
  assert (call_graph (foldl (analyze_method cn) self' methods)
          = call_graph self') as Hg.
  { apply analyze_methods_call_graph_known.
    - intros m Hm. apply analyze_methods_all_methods. right. eauto.
    - intros m code inst y Hm Hcode Hin Hrec.
      apply analyze_methods_calls. right. exists m, code, inst. done. }
  assert (cfgs (foldl (analyze_method cn) self' methods) = cfgs self') as Hc.
  { apply map_eq. intros k.
    destruct (analyze_methods_cfgs_again cn self' self methods k) as [->|[-> _]];
      done. }
  destruct (foldl (analyze_method cn) self' methods) as [c g].
  destruct self' as [c' g']. simpl in *. by subst.
Qed.

(** X21. Analysing the same class again changes nothing: the second
    call returns the result of the first and leaves the analyzer as the
    first call left it. *)
Theorem reanalysis_idempotent (self : BytecodeAnalyzer)
    (methods : list method_json) (cn : string) :
  ∃ self' res,
    analyze_class self methods cn = Some (self', res)
    ∧ analyze_class self' methods cn = Some (self', res).
Proof.
  destruct (analyze_class_result self methods cn)
    as (r & dead & _ & _ & _ & Hres).
  eexists _, _. split; [exact Hres|]. rewrite <- Hres.
  unfold analyze_class. by rewrite analyze_methods_again.
Qed.

(** ** Node kinds *)

Lemma classify_other ins :
  i_opr ins ∉ control_oprs →
  classify_opr (i_opr ins) ∉ [BRANCH; SWITCH; JUMP; RETURN; THROW; EXIT].
Proof.
  intros Hnot. unfold classify_opr. simpl.
  repeat case_decide;
    first [ apply (bool_decide_unpack _); vm_compute; exact I
          | exfalso; apply Hnot;
            match goal with H : i_opr ins = _ |- _ => rewrite H end;
            unfold control_oprs; set_solver ].
Qed.

(** X22. For a node type that comes from [classify_opr]: [is_branch]
    holds exactly for [if], [ifz] and the two switches, [is_jump] exactly
    for [goto], and [is_terminator] exactly for [return] and [throw] (no
    operation string is classified as [EXIT]).  A terminator has no
    successor in the list of either builder, and a jump has its resolved
    target and nothing else. *)
Theorem node_kinds (bc : list instr) (tbl : gmap Z Z) (i : nat) (ins : instr) :
  (is_branch (classify_opr (i_opr ins)) = true
   ↔ i_opr ins ∈ ["if"; "ifz"; "tableswitch"; "lookupswitch"])
  ∧ (is_jump (classify_opr (i_opr ins)) = true ↔ i_opr ins = "goto")
  ∧ (is_terminator (classify_opr (i_opr ins)) = true
     ↔ i_opr ins ∈ ["return"; "throw"])
  ∧ classify_opr (i_opr ins) ≠ EXIT
  ∧ (is_terminator (classify_opr (i_opr ins)) = true →
     _compute_successors bc tbl i ins = [] ∧ edge_targets bc tbl i ins = [])
  ∧ (is_jump (classify_opr (i_opr ins)) = true →
     _compute_successors bc tbl i ins = resolved tbl (i_target ins)
     ∧ edge_targets bc tbl i ins = resolved tbl (i_target ins)).
Proof.
  control_cases ins Heq Hnot.
  1-7: unfold _compute_successors, edge_targets; rewrite !Heq; eval_opr;
    split_and!;
    first [ apply (bool_decide_unpack _); vm_compute; exact I
          | intros Hf; vm_compute in Hf; discriminate Hf
          | intros _; by split ].
  pose proof (classify_other ins Hnot) as Hc.
  unfold is_branch, is_jump, is_terminator. rewrite !bool_decide_eq_true.
  assert (∀ s, s ∈ control_oprs → i_opr ins ≠ s) as Hne
    by (intros s Hs Heq; apply Hnot; by rewrite Heq).
  split_and!.
  - split; [intros Hb; exfalso; apply Hc; set_solver|].
    intros Hin. exfalso. apply Hnot. unfold control_oprs. set_solver.
  - split; [intros Hb; exfalso; apply Hc; rewrite Hb; set_solver|].
    intros Heq. exfalso. apply Hnot. rewrite Heq. unfold control_oprs. set_solver.
  - split; [intros Hb; exfalso; apply Hc; set_solver|].
    intros Hin. exfalso. apply Hnot. unfold control_oprs. set_solver.
  - intros Heq. apply Hc. rewrite Heq. set_solver.
  - intros Hb. exfalso. apply Hc. set_solver.
  - intros Hb. exfalso. apply Hc. rewrite Hb. set_solver.
Qed.

(** ** Single entry *)

Lemma compute_successors_cases bc tbl i ins x :
  x ∈ _compute_successors bc tbl i ins →
  next_offset bc i = Some x ∨ x ∈ _get_branch_targets tbl ins.
Proof.
  control_cases ins Heq Hnot.
  1-7: unfold _compute_successors, _get_branch_targets;
    rewrite !Heq; eval_opr;
    rewrite ?elem_of_dict_fromkeys, ?elem_of_app, ?elem_of_option_list;
    try tauto; try (by intros ?%elem_of_nil).
  unfold _compute_successors.
  pose proof (λ s, opr_not_control (i_opr ins) s Hnot) as Hne.
  rewrite !opr_in_false, bool_decide_eq_false_2;
    [rewrite elem_of_option_list; by left|..];
    try (apply Hne; unfold control_oprs; set_solver);
    intros Hin; apply Hnot; unfold control_oprs; set_solver.
Qed.

Lemma next_offset_index bc i x :
  next_offset bc i = Some x →
  ∃ nx, bc !! S i = Some nx ∧ i_offset nx = Some x ∧ get_offset nx = x.
Proof.
  unfold next_offset. destruct (bc !! S i) as [nx|]; [|done]. simpl.
  intros Hx. exists nx. unfold get_offset. by rewrite Hx.
Qed.

(** X23. A node that is not a leader is entered by fall-through only:
    each of its predecessors is the offset of an instruction whose next
    instruction is the node.  In a well-formed method such a node has at
    most one predecessor. *)
Theorem single_entry (bc : list instr) (hs : list ExceptionHandler) (x : Z)
    (n : CFGNode) :
  build bc hs !! x = Some n → is_leader n = false →
  (∀ y, y ∈ predecessors n →
        ∃ i ins, owner bc y i ins ∧ next_offset bc i = Some x)
  ∧ (well_formed bc →
     ∀ y y', y ∈ predecessors n → y' ∈ predecessors n → y = y').
Proof.
  intros Hn Hflag.
  assert (x ∉ leaders_of bc hs) as Hnl.
  { rewrite (build_is_leader bc hs x n Hn) in Hflag.
    by apply bool_decide_eq_false in Hflag. }
  assert (∀ y, y ∈ predecessors n →
            ∃ i ins, owner bc y i ins ∧ next_offset bc i = Some x) as Hpred.
  { intros y Hy.
    assert (y ∈ preds_of (build bc hs) x) as Hy'
      by (unfold preds_of; by rewrite Hn).
    apply build_preds in Hy' as ([ny Hny]%elem_of_dom & Hxd & Hx).
    unfold succs_of in Hx. rewrite Hny in Hx. simpl in Hx.
    destruct (build_lookup bc hs y ny Hny)
      as (i & ins & Hown & _ & _ & Hs & _).
    exists i, ins. split; [done|].
    rewrite Hs, elem_of_union, !elem_of_list_to_set in Hx.
    destruct Hx as [Hx|Hx].
    - apply compute_successors_cases in Hx as [?|Hx]; [done|exfalso].
      apply Hnl, find_leaders_iff. right; left.
      destruct Hown as (Hi & Ho & Hpos & _).
      exists i, ins. split; [done|]. split; [lia|by left].
    - exfalso. apply list_elem_of_fmap in Hx as (h & -> & Hh).
      apply list_elem_of_filter in Hh as [_ Hh].
      apply Hnl, find_leaders_iff. right; right.
      exists h. split_and!; [done..|]. by apply (build_dom bc hs). }
  split; [done|]. intros Hwf y y' Hy Hy'.
  destruct (Hpred y Hy) as (i & ins & (Hi & Ho & _) & Hnext).
  destruct (Hpred y' Hy') as (i' & ins' & (Hi' & Ho' & _) & Hnext').
  apply next_offset_index in Hnext as (nx & Hnx & _ & Hx).
  apply next_offset_index in Hnext' as (nx' & Hnx' & _ & Hx').
  assert (S i = S i') as Heq
    by (eapply (well_formed_unique bc); [done..|congruence]).
  simplify_eq. congruence.
Qed.

(** [single_entry] at the node at offset 15 of scenario D. *)
Lemma single_entry_witness :
  (∀ y, y ∈ predecessors (node_at (build scenario_D_code scenario_D_handlers) 15) →
        ∃ i ins, owner scenario_D_code y i ins
                 ∧ next_offset scenario_D_code i = Some 15)
  ∧ (well_formed scenario_D_code →
     ∀ y y',
       y ∈ predecessors (node_at (build scenario_D_code scenario_D_handlers) 15) →
       y' ∈ predecessors (node_at (build scenario_D_code scenario_D_handlers) 15) →
       y = y').
Proof.
  apply (single_entry scenario_D_code scenario_D_handlers 15).
  - vm_compute. reflexivity.
  - vm_compute. reflexivity.
Defined.

(** ** Dead code after a transfer *)

Lemma elem_of_resolved_index tbl idx x :
  x ∈ resolved tbl idx ↔ ∃ k, idx = Some k ∧ tbl !! k = Some x.
Proof.
  unfold resolved, _resolve_target. destruct idx as [k|].
  - destruct (tbl !! k) as [o|] eqn:Hk.
    + rewrite list_elem_of_singleton. naive_solver.
    + split; [by intros ?%elem_of_nil|]. intros (k' & [= <-] & ?). congruence.
  - split; [by intros ?%elem_of_nil|]. by intros (k' & ? & _).
Qed.

Lemma resolved_target_index tbl ins x :
  x ∈ resolved tbl (i_target ins) →
  ∃ k, k ∈ target_indices ins ∧ tbl !! k = Some x.
Proof.
  intros (k & Hk & Hx)%elem_of_resolved_index. exists k. split; [|done].
  unfold target_indices. rewrite Hk. simpl. left.
Qed.

Lemma resolved_default_index tbl ins x :
  x ∈ resolved tbl (i_default ins) →
  ∃ k, k ∈ target_indices ins ∧ tbl !! k = Some x.
Proof.
  intros (k & Hk & Hx)%elem_of_resolved_index. exists k. split; [|done].
  unfold target_indices. rewrite Hk, !elem_of_app. right; left. simpl. left.
Qed.

Lemma resolved_case_index tbl ins x :
  x ∈ (i_targets ins ≫= λ case,
         match case with
         | CaseInt c => resolved tbl (Some c)
         | CaseDict t => resolved tbl t
         | CaseOther => []
         end) →
  ∃ k, k ∈ target_indices ins ∧ tbl !! k = Some x.
Proof.
  intros (c & Hx & Hc)%list_elem_of_bind.
  assert (∃ k, case_index c = Some k ∧ tbl !! k = Some x) as (k & Hk & Hkx).
  { destruct c as [t|t|]; simpl.
    - apply elem_of_resolved_index in Hx as (k & [= <-] & ?). eauto.
    - apply elem_of_resolved_index in Hx as (k & -> & ?). eauto.
    - by apply elem_of_nil in Hx. }
  exists k. split; [|done]. unfold target_indices. rewrite !elem_of_app.
  right; right. apply list_elem_of_omap. eauto.
Qed.

Lemma edge_targets_cases bc tbl i ins x :
  x ∈ edge_targets bc tbl i ins →
  (next_offset bc i = Some x
   ∧ i_opr ins ∉ ["goto"; "return"; "throw"; "tableswitch"; "lookupswitch"])
  ∨ ∃ k, k ∈ target_indices ins ∧ tbl !! k = Some x.
Proof.
  pose proof (resolved_target_index tbl ins x) as Ht.
  pose proof (resolved_default_index tbl ins x) as Hd.
  pose proof (resolved_case_index tbl ins x) as Hc.
  control_cases ins Heq Hnot.
  1-7: unfold edge_targets; rewrite !Heq; eval_opr;
    rewrite ?elem_of_app, ?elem_of_option_list.
  - intros [?|?]; [right; auto|left]. split; [done|].
    apply (bool_decide_unpack _). vm_compute. exact I.
  - intros [?|?]; [right; auto|left]. split; [done|].
    apply (bool_decide_unpack _). vm_compute. exact I.
  - intros ?. right; auto.
  - by intros ?%elem_of_nil.
  - by intros ?%elem_of_nil.
  - intros [?|?]; right; auto.
  - intros [?|?]; right; auto.
  - unfold edge_targets.
    pose proof (λ s, opr_not_control (i_opr ins) s Hnot) as Hne.
    rewrite !opr_in_false, bool_decide_eq_false_2;
      [rewrite elem_of_option_list; intros ?; left; split; [done|]|..];
      try (apply Hne; unfold control_oprs; set_solver);
      intros Hin; apply Hnot; unfold control_oprs; set_solver.
Qed.

(** X24. Dead code after an unconditional transfer.  In a well-formed
    method, when the instruction after a [goto], a [return] or a [throw]
    is named by no instruction as its target, its default or a case
    target, [get_unreachable_nodes] of the CFG made by [build_cfg] returns
    a set that holds the offset of that instruction. *)
Theorem dead_after_transfer (name : string) (bc : list instr) (i : nat)
    (ins nx : instr) :
  well_formed bc →
  bc !! i = Some ins → bc !! S i = Some nx →
  i_opr ins ∈ ["goto"; "return"; "throw"] →
  (∀ other, other ∈ bc → Z.of_nat (S i) ∉ target_indices other) →
  ∃ u, get_unreachable_nodes (build_cfg name bc) = Some u
       ∧ get_offset nx ∈ u.
Proof.
  intros Hwf Hi Hnx Hopr Hno. pose proof Hwf as [Hvalid Hasc].
  destruct (Hvalid ins) as [Hpos _]; [by eapply list_elem_of_lookup_2|].
  destruct (Hvalid nx) as [Hposn _]; [by eapply list_elem_of_lookup_2|].
  destruct (get_unreachable_nodes_spec (build_cfg name bc)) as (u & Hu & Hspec).
  exists u. split; [done|]. apply Hspec. split.
  { apply build_cfg_dom. split; [done|]. exists nx.
    split; [by eapply list_elem_of_lookup_2|done]. }
  intros [_ Hrtc]. rewrite build_cfg_entry in Hrtc.
  apply rtc_inv_r in Hrtc as [H0|(y & _ & Hedge & _)].
  - pose proof (Hasc i (S i) ins nx ltac:(lia) Hi Hnx Hpos Hposn). lia.
  - apply build_cfg_succs in Hedge as (_ & _ & j & other & Hj & _ & _ & Hx).
    apply elem_of_enumerate in Hj.
    apply edge_targets_cases in Hx as [[Hnext Hfall]|(k & Hk & Hkx)].
    + apply next_offset_index in Hnext as (nx' & Hnx' & _ & Hoff).
      assert (S j = S i) as Heq
        by (eapply (well_formed_unique bc); [done..|congruence]).
      simplify_eq. apply Hfall. set_solver.
    + rewrite build_index_to_offset_lookup in Hkx.
      apply spec_resolve_Some in Hkx as (nx' & Hk0 & Hnx' & Hoff & _).
      assert (Z.to_nat k = S i) as Heq
        by (eapply (well_formed_unique bc); [done..|congruence]).
      apply (Hno other); [by eapply list_elem_of_lookup_2|].
      by replace (Z.of_nat (S i)) with k by lia.
Qed.

(** [dead_after_transfer] at the [goto] of scenario C. *)
Lemma dead_after_transfer_witness :
  ∃ u, get_unreachable_nodes (build_cfg "m" scenario_C_code) = Some u
       ∧ get_offset (mk_instr 4 "load" None) ∈ u.
Proof.
  apply (dead_after_transfer "m" scenario_C_code 1
           (mk_instr 1 "goto" (Some 4)) (mk_instr 4 "load" None)).
  - apply well_formed_check; apply (bool_decide_unpack _); vm_compute; exact I.
  - reflexivity.
  - reflexivity.
  - apply (bool_decide_unpack _). vm_compute. exact I.
  - intros other Hin.
    repeat (apply elem_of_cons in Hin as [->|Hin];
            [apply (bool_decide_unpack _); vm_compute; exact I|]).
    by apply elem_of_nil in Hin.
Defined.

(** * Exception edges and unresolved targets, builder by builder *)

(** ** C1 *)

(** C1, as stated, fails for [BytecodeAnalyzer.build_cfg], one of the two
    builders it is stated for: in scenario D the node at offset 15 lies in
    the protected range [10, 20) of the handler at offset 30, and the CFG
    that [build_cfg] makes for the method gives it the successor 20
    only. *)
Lemma analyzer_omits_exception_edges :
  ¬ exception_edges_hold (cfg_nodes (build_cfg "m" scenario_D_code))
      scenario_D_handlers.
Proof.
  intros Hhold.
  destruct (Hhold 15 (node_at (cfg_nodes (build_cfg "m" scenario_D_code)) 15)
              scenario_D_handler) as [Hs _].
  - vm_compute. reflexivity.
  - left.
  - vm_compute. split; [discriminate|reflexivity].
  - revert Hs. apply (bool_decide_unpack _). vm_compute. exact I.
Qed.

(** C1, amended.  The statement holds of the node dictionary that
    [CFGBuilder.build] returns for the method's bytecode and handler list:
    a node whose offset lies in the protected range [start_pc, end_pc) of
    one of the handlers has that handler's [handler_pc] among its
    successors and the handler in its [exception_handlers] list.  The CFG
    of [BytecodeAnalyzer.build_cfg] has no exception augmentation: every
    node of it has an empty handler list, and every successor of a node is
    a control-flow target of an instruction at the node's offset. *)
Theorem exception_edges_by_builder (name : string) (bc : list instr)
    (hs : list ExceptionHandler) :
  exception_edges_hold (build bc hs) hs
  ∧ (∀ o n, cfg_nodes (build_cfg name bc) !! o = Some n →
       exception_handlers n = []
       ∧ ∀ s, s ∈ successors n →
              ∃ i ins, bc !! i = Some ins ∧ get_offset ins = o
                       ∧ s ∈ edge_targets bc (build_index_to_offset bc) i ins).
Proof.
  split.
  - intros o n h Hn Hh Hrange.
    apply build_lookup in Hn as (i & ins & _ & Ho & _ & Hs & He).
    rewrite Ho in Hrange.
    assert (h ∈ covering hs o) as Hcov.
    { unfold covering. by apply list_elem_of_filter. }
    split.
    + rewrite Hs. apply elem_of_union_r, elem_of_list_to_set.
      by apply list_elem_of_fmap_2.
    + by rewrite He.
  - intros o n Hn.
    destruct (build_cfg_lookup name bc o n Hn) as (i & ins & _ & Heq).
    injection Heq as _ _ _ _ He. split; [done|]. intros s Hs.
    assert (s ∈ succs_of (cfg_nodes (build_cfg name bc)) o) as Hs'
      by (unfold succs_of; by rewrite Hn).
    apply build_cfg_succs in Hs' as (_ & _ & j & inst & Hj & Ho & _ & Ht).
    apply elem_of_enumerate in Hj. eauto.
Qed.

(** [exception_edges_by_builder] at the node at offset 15 of scenario D
    and its handler. *)
Lemma exception_edges_by_builder_witness :
  handler_pc scenario_D_handler
    ∈ successors (node_at (build scenario_D_code scenario_D_handlers) 15)
  ∧ scenario_D_handler
    ∈ exception_handlers (node_at (build scenario_D_code scenario_D_handlers) 15).
Proof.
  apply (proj1 (exception_edges_by_builder "m" scenario_D_code
                  scenario_D_handlers) 15).
  - vm_compute. reflexivity.
  - left.
  - vm_compute. split; [discriminate|reflexivity].
Defined.

(** ** C9 *)

Lemma elem_of_bind_resolved tbl (f : switch_case → option Z)
    (g : switch_case → list Z) (cs : list switch_case) x :
  (∀ c, g c = resolved tbl (f c)) →
  x ∈ cs ≫= g ↔ ∃ k, k ∈ omap f cs ∧ tbl !! k = Some x.
Proof.
  intros Hg. rewrite list_elem_of_bind. setoid_rewrite list_elem_of_omap.
  split.
  - intros (c & Hx & Hc). rewrite Hg in Hx.
    apply elem_of_resolved_index in Hx as (k & Hk & Hkx). eauto.
  - intros (k & (c & Hc & Hk) & Hkx). exists c. split; [|done].
    rewrite Hg. apply elem_of_resolved_index. eauto.
Qed.

Lemma elem_of_resolved_list tbl idx x :
  x ∈ resolved tbl idx ↔ ∃ k, k ∈ option_list idx ∧ tbl !! k = Some x.
Proof.
  rewrite elem_of_resolved_index. setoid_rewrite elem_of_option_list. done.
Qed.

Lemma exists_elem_of_app {A} (P : A → Prop) (l1 l2 : list A) :
  (∃ k, k ∈ l1 ++ l2 ∧ P k) ↔ (∃ k, k ∈ l1 ∧ P k) ∨ (∃ k, k ∈ l2 ∧ P k).
Proof. setoid_rewrite elem_of_app. naive_solver. Qed.

Lemma exists_elem_of_nil {A} (P : A → Prop) : (∃ k, k ∈ @nil A ∧ P k) ↔ False.
Proof. split; [|done]. by intros (k & ?%elem_of_nil & _). Qed.

Lemma edge_targets_iff bc tbl i ins x :
  x ∈ edge_targets bc tbl i ins
  ↔ (falls_through ins ∧ next_offset bc i = Some x)
    ∨ ∃ k, k ∈ jump_indices ins ∧ tbl !! k = Some x.
Proof.
  unfold falls_through.
  control_cases ins Heq Hnot.
  1-7: unfold edge_targets, jump_indices; rewrite !Heq; eval_opr;
    rewrite ?exists_elem_of_app, ?exists_elem_of_nil, ?elem_of_app,
      ?elem_of_option_list, <- ?elem_of_resolved_list.
  1-2: assert (∀ s : string, s ∈ ["if"; "ifz"] →
                 s ∉ ["goto"; "return"; "throw"; "tableswitch"; "lookupswitch"])
         as Hft by (intros s Hs; repeat (apply elem_of_cons in Hs as [->|Hs];
                      [apply (bool_decide_unpack _); vm_compute; exact I|]);
                    by apply elem_of_nil in Hs).
  - specialize (Hft "if" ltac:(left)). tauto.
  - specialize (Hft "ifz" ltac:(right; left)). tauto.
  - split; [by right|]. intros [[Hft _]|?]; [|done]. exfalso. apply Hft. left.
  - split; [by intros ?%elem_of_nil|].
    intros [[Hft _]|[]]. exfalso. apply Hft. right; left.
  - split; [by intros ?%elem_of_nil|].
    intros [[Hft _]|[]]. exfalso. apply Hft. right; right; left.
  - rewrite (elem_of_bind_resolved tbl case_index)
      by (intros c; by destruct c).
    split; [by right|]. intros [[Hft _]|?]; [|done]. exfalso. apply Hft.
    right; right; right; left.
  - rewrite (elem_of_bind_resolved tbl case_index)
      by (intros c; by destruct c).
    split; [by right|]. intros [[Hft _]|?]; [|done]. exfalso. apply Hft.
    right; right; right; right; left.
  - unfold edge_targets, jump_indices.
    pose proof (λ s, opr_not_control (i_opr ins) s Hnot) as Hne.
    rewrite !opr_in_false, bool_decide_eq_false_2;
      [rewrite elem_of_option_list, exists_elem_of_nil|..];
      try (apply Hne; unfold control_oprs; set_solver);
      try (intros Hin; apply Hnot; unfold control_oprs; set_solver).
    split; [|tauto]. intros Hx. left. split; [|done].
    intros Hin. apply Hnot. unfold control_oprs. set_solver.
Qed.

Lemma compute_successors_iff bc tbl i ins x :
  x ∈ _compute_successors bc tbl i ins
  ↔ (falls_through ins ∧ next_offset bc i = Some x)
    ∨ ∃ k, k ∈ builder_indices ins ∧ _resolve_target tbl k = Some x.
Proof.
  unfold falls_through, _resolve_target.
  control_cases ins Heq Hnot.
  1-7: unfold _compute_successors, _get_branch_targets, builder_indices;
    rewrite !Heq; eval_opr;
    rewrite ?elem_of_dict_fromkeys, ?exists_elem_of_app, ?exists_elem_of_nil,
      ?elem_of_app, ?elem_of_option_list, <- ?elem_of_resolved_list.
  1-2: assert (∀ s : string, s ∈ ["if"; "ifz"] →
                 s ∉ ["goto"; "return"; "throw"; "tableswitch"; "lookupswitch"])
         as Hft by (intros s Hs; repeat (apply elem_of_cons in Hs as [->|Hs];
                      [apply (bool_decide_unpack _); vm_compute; exact I|]);
                    by apply elem_of_nil in Hs).
  - specialize (Hft "if" ltac:(left)). tauto.
  - specialize (Hft "ifz" ltac:(right; left)). tauto.
  - split; [by right|]. intros [[Hft _]|?]; [|done]. exfalso. apply Hft. left.
  - split; [by intros ?%elem_of_nil|].
    intros [[Hft _]|[]]. exfalso. apply Hft. right; left.
  - split; [by intros ?%elem_of_nil|].
    intros [[Hft _]|[]]. exfalso. apply Hft. right; right; left.
  - rewrite (elem_of_bind_resolved tbl table_index)
      by (intros c; by destruct c).
    split; [by right|]. intros [[Hft _]|?]; [|done]. exfalso. apply Hft.
    right; right; right; left.
  - rewrite (elem_of_bind_resolved tbl lookup_index)
      by (intros c; by destruct c).
    split; [by right|]. intros [[Hft _]|?]; [|done]. exfalso. apply Hft.
    right; right; right; right; left.
  - unfold _compute_successors, builder_indices.
    pose proof (λ s, opr_not_control (i_opr ins) s Hnot) as Hne.
    rewrite !opr_in_false, !bool_decide_eq_false_2;
      [rewrite elem_of_option_list, exists_elem_of_nil|..];
      try (apply Hne; unfold control_oprs; set_solver);
      try (intros Hin; apply Hnot; unfold control_oprs; set_solver).
    split; [|tauto]. intros Hx. left. split; [|done].
    intros Hin. apply Hnot. unfold control_oprs. set_solver.
Qed.

(** C9. Both builders produce their CFG whatever the target indices are:
    the nodes are the valid offsets of the method, and the successors of a
    node are exactly the offset of the next instruction, for an
    instruction that falls through, and the table entries of the target
    indices of the instruction (for [CFGBuilder.build], the handler
    offsets as well).  So a target index that is absent from the table
    adds no edge and every other index adds its edge.  The predecessor
    sets mirror the successor sets (for [CFGBuilder.build], towards the
    offsets that have a node), and the graph is the graph of the method
    from which the absent indices have been removed.  Both builders are
    total functions of the method: no step of theirs can fail. *)
Theorem unresolved_targets_omitted (name : string) (bc : list instr)
    (hs : list ExceptionHandler) :
  (∀ o, o ∈ dom (cfg_nodes (build_cfg name bc)) ↔ is_offset_of bc o)
  ∧ (∀ a s, s ∈ succs_of (cfg_nodes (build_cfg name bc)) a
       ↔ ∃ i ins, bc !! i = Some ins ∧ get_offset ins = a ∧ 0 ≤ a
           ∧ ((falls_through ins ∧ next_offset bc i = Some s ∧ 0 ≤ s)
              ∨ ∃ k, k ∈ jump_indices ins
                     ∧ build_index_to_offset bc !! k = Some s))
  ∧ (∀ a s, a ∈ preds_of (cfg_nodes (build_cfg name bc)) s
       ↔ s ∈ succs_of (cfg_nodes (build_cfg name bc)) a)
  ∧ (∀ o, o ∈ dom (build bc hs) ↔ is_offset_of bc o)
  ∧ (∀ a s, s ∈ succs_of (build bc hs) a
       ↔ ∃ i ins, owner bc a i ins
           ∧ ((falls_through ins ∧ next_offset bc i = Some s)
              ∨ (∃ k, k ∈ builder_indices ins
                      ∧ _resolve_target (index_table bc) k = Some s)
              ∨ ∃ h, h ∈ covering hs a ∧ handler_pc h = s))
  ∧ (∀ a s, a ∈ preds_of (build bc hs) s
       ↔ s ∈ dom (build bc hs) ∧ s ∈ succs_of (build bc hs) a)
  ∧ same_edges (cfg_nodes (build_cfg name bc))
      (cfg_nodes (build_cfg name (erase_unresolved bc)))
  ∧ same_edges (build bc hs) (build (erase_unresolved bc) hs).
Proof.
  split_and!.
  - apply build_cfg_dom.
  - intros a s. rewrite build_cfg_succs. unfold requested.
    setoid_rewrite elem_of_enumerate. setoid_rewrite edge_targets_iff. split.
    + intros (_ & [Hpos _] & i & ins & Hi & Ha & Hpa & Hx).
      exists i, ins. split_and!; [done..|]. tauto.
    + intros (i & ins & Hi & Ha & Hpa & Hx).
      assert (is_offset_of bc a) as Hoa.
      { split; [done|]. exists ins.
        split; [by eapply list_elem_of_lookup_2|done]. }
      split_and!; [done| |].
      * destruct Hx as [(_ & Hn & Hps)|(k & _ & Hk)].
        -- by eapply next_offset_valid.
        -- rewrite build_index_to_offset_lookup in Hk.
           by eapply spec_resolve_is_offset.
      * exists i, ins. split_and!; [done..|]. tauto.
  - intros a s. rewrite build_cfg_preds, build_cfg_succs. tauto.
  - apply build_dom.
  - intros a s. split.
    + intros Hs. unfold succs_of in Hs.
      destruct (build bc hs !! a) as [n|] eqn:Hn;
        [|by apply not_elem_of_empty in Hs].
      simpl in Hs.
      destruct (build_lookup bc hs a n Hn) as (i & ins & Hown & _ & _ & Hsn & _).
      exists i, ins. split; [done|].
      rewrite Hsn, elem_of_union, !elem_of_list_to_set in Hs.
      destruct Hs as [Hs|Hs].
      * apply compute_successors_iff in Hs. tauto.
      * right; right. apply list_elem_of_fmap in Hs as (h & -> & Hh). eauto.
    + intros (i & ins & Hown & Hx).
      assert (a ∈ dom (build bc hs)) as [n Hn]%elem_of_dom.
      { apply build_dom. destruct Hown as (Hi & Ha & Hpa & _).
        split; [done|]. exists ins.
        split; [by eapply list_elem_of_lookup_2|done]. }
      unfold succs_of. rewrite Hn. simpl.
      destruct (build_lookup bc hs a n Hn)
        as (i' & ins' & Hown' & _ & _ & Hsn & _).
      destruct (owner_unique _ _ _ _ _ _ Hown Hown') as [<- <-].
      rewrite Hsn, elem_of_union, !elem_of_list_to_set.
      rewrite compute_successors_iff.
      destruct Hx as [?|[?|(h & Hh & <-)]]; [left; by left|left; by right|right].
      by apply list_elem_of_fmap_2.
  - intros a s. rewrite build_preds. split; [tauto|].
    intros [Hd Hs]. split_and!; [|done..].
    unfold succs_of in Hs. apply elem_of_dom.
    destruct (build bc hs !! a) as [n|]; [done|by apply not_elem_of_empty in Hs].
  - apply (unresolved_targets_erased name bc hs).
  - apply (unresolved_targets_erased name bc hs).
Qed.
